(** * A shallow embedding of the logic-circuit simulator

    Sources embedded here:
    - [src/logic/gates.js]      ([LogicGate], [AndGate], [NotGate], [NAndGate])
    - [src/logic/io.js]         ([InputPoint], [OutputPoint])
    - [src/logic/simulation.js] ([Simulation])

    JavaScript objects live in a store indexed by object identity; every
    method is a state transformer that may complete normally or abruptly
    (a thrown exception), and an abrupt completion keeps the mutations
    made before the throw.  The nested method calls of the node classes
    ([addOutput] calls [addInput] calls [addOutput] ...) consume one unit
    of call-stack depth each; a call made with no depth left throws
    [RangeError], as the engine does on stack exhaustion.

    Arguments are references to objects: [null] and [undefined] arguments
    (the [x && ...] guards of the source) are not modelled.  Signals and
    gate capacities ([maxInputs]) are JavaScript numbers restricted to the
    integers; the source checks neither, and [NAndGate] stores whatever
    [numInputs] it is given. *)

From stdpp Require Import gmap strings list.
From Stdlib Require Import ZArith Lia.

(** ** Signals *)

Definition HIGH : Z := 1%Z.
Definition LOW : Z := 0%Z.

(** ** Objects *)

(** Object identity.  A reference that is not bound in the store stands
    for an object that has none of the members the code inspects. *)
Definition ref := nat.

Inductive GateClass := LogicGate | AndGate | NotGate | NAndGate.

#[global] Instance GateClass_eq_dec : EqDecision GateClass.
Proof. solve_decision. Defined.

Inductive node :=
| InputPoint (name : string) (value : Z) (outputs : list ref)
| OutputPoint (name : string) (input : option ref) (value : Z)
| Gate (cls : GateClass) (name : string) (inputs : list ref)
       (outputValue : Z) (outputs : list ref) (maxInputs : Z).

(** The four arrays of a [Simulation]. *)
Record Simulation := mkSimulation {
  components : list ref;
  inputPoints : list ref;
  outputPoints : list ref;
  gates : list ref
}.

(** What the code writes to the console. *)
Inductive log :=
| InvalidValue (name : string)                      (* console.error, InputPoint.setValue *)
| MaxInputsReached (name : string) (maxInputs : Z)  (* console.error, LogicGate.addInput *)
| ReplacingConnection (name : string) (old : option string) (* console.warn, OutputPoint.addInput *)
| ConnectNotAdded                                   (* console.error, Simulation.connect *)
| ConnectInvalid                                    (* console.error, Simulation.connect *)
| DisconnectNoRemoveOutput.                         (* console.error, Simulation.disconnect *)

Record World := mkWorld {
  heap : gmap ref node;
  sim : Simulation;
  console : list log
}.

(** ** Completions *)

Inductive exn :=
| TypeError        (* member access on undefined, or call of a non-function *)
| RangeError       (* call-stack exhaustion *)
| ReferenceError   (* an identifier that is not in scope *)
| NotImplemented.  (* Error thrown by LogicGate.evaluate *)

Inductive outcome (A : Type) :=
| Return (a : A)
| Throw (e : exn).
Arguments Return {A} a.
Arguments Throw {A} e.

Definition M (A : Type) : Type := World -> outcome A * World.

Definition ret {A} (a : A) : M A := fun w => (Return a, w).
Definition throw {A} (e : exn) : M A := fun w => (Throw e, w).
Definition bind {A B} (m : M A) (k : A -> M B) : M B :=
  fun w => match m w with
           | (Return a, w') => k a w'
           | (Throw e, w') => (Throw e, w')
           end.
Definition gets {A} (f : World -> A) : M A := fun w => (Return (f w), w).
Definition modify (f : World -> World) : M unit := fun w => (Return tt, f w).

Notation "'do' x <- m ; k" := (bind m (fun x => k))
  (at level 10, x name, m at level 100, k at level 200).
Notation "m ;; k" := (bind m (fun _ => k))
  (at level 100, k at level 200, right associativity).

(** [Array.prototype.forEach] over the array object the loop started on. *)
Fixpoint forEach {A} (l : list A) (f : A -> M unit) : M unit :=
  match l with
  | [] => ret tt
  | x :: l' => f x ;; forEach l' f
  end.

(** ** Store access *)

Definition obj (w : World) (r : ref) : option node := heap w !! r.

Definition upd_heap (f : gmap ref node -> gmap ref node) (w : World) : World :=
  mkWorld (f (heap w)) (sim w) (console w).
Definition upd_sim (f : Simulation -> Simulation) (w : World) : World :=
  mkWorld (heap w) (f (sim w)) (console w).
Definition write_console (e : log) (w : World) : World :=
  mkWorld (heap w) (sim w) (console w ++ [e]).

(** Field assignments on one object. *)

(** [this.outputs = l] *)
Definition with_outputs (l : list ref) (n : node) : node :=
  match n with
  | InputPoint nm v _ => InputPoint nm v l
  | Gate c nm i o _ m => Gate c nm i o l m
  | OutputPoint _ _ _ => n
  end.

(** [this.inputs = l] *)
Definition with_inputs (l : list ref) (n : node) : node :=
  match n with
  | Gate c nm _ o outs m => Gate c nm l o outs m
  | _ => n
  end.

(** [this.input = s] *)
Definition with_input (s : option ref) (n : node) : node :=
  match n with
  | OutputPoint nm _ v => OutputPoint nm s v
  | _ => n
  end.

(** [this.value = v] on an InputPoint or OutputPoint, [this.outputValue = v] on a gate *)
Definition with_value (v : Z) (n : node) : node :=
  match n with
  | InputPoint nm _ outs => InputPoint nm v outs
  | OutputPoint nm i _ => OutputPoint nm i v
  | Gate c nm i _ outs m => Gate c nm i v outs m
  end.

(** The same assignments on the object that [r] denotes. *)
Definition set_outputs (r : ref) (l : list ref) (h : gmap ref node) : gmap ref node :=
  alter (with_outputs l) r h.
Definition set_inputs (r : ref) (l : list ref) (h : gmap ref node) : gmap ref node :=
  alter (with_inputs l) r h.
Definition set_input (r : ref) (s : option ref) (h : gmap ref node) : gmap ref node :=
  alter (with_input s) r h.
Definition set_value (r : ref) (v : Z) (h : gmap ref node) : gmap ref node :=
  alter (with_value v) r h.

(** ** Members and capabilities *)

Definition name_of (o : option node) : option string :=
  match o with
  | Some (InputPoint n _ _) | Some (OutputPoint n _ _) | Some (Gate _ n _ _ _ _) => Some n
  | None => None
  end.

(** [x.outputs]; [None] is [undefined] *)
Definition outputs_of (o : option node) : option (list ref) :=
  match o with
  | Some (InputPoint _ _ outs) | Some (Gate _ _ _ _ outs _) => Some outs
  | _ => None
  end.

(** [x.inputs]; [None] is [undefined] (an OutputPoint has [input], not [inputs]) *)
Definition inputs_of (o : option node) : option (list ref) :=
  match o with
  | Some (Gate _ _ ins _ _ _) => Some ins
  | _ => None
  end.

(** [x.input] of an OutputPoint *)
Definition input_of (o : option node) : option ref :=
  match o with
  | Some (OutputPoint _ i _) => i
  | _ => None
  end.

(** [typeof x.addOutput === 'function'], and the same for [removeOutput] *)
Definition has_addOutput (o : option node) : bool :=
  match o with
  | Some (InputPoint _ _ _) | Some (Gate _ _ _ _ _ _) => true
  | _ => false
  end.
Definition has_removeOutput (o : option node) : bool := has_addOutput o.

(** [typeof x.addInput === 'function'], and the same for [removeInput] *)
Definition has_addInput (o : option node) : bool :=
  match o with
  | Some (OutputPoint _ _ _) | Some (Gate _ _ _ _ _ _) => true
  | _ => false
  end.
Definition has_removeInput (o : option node) : bool := has_addInput o.

(** [typeof x.evaluate === 'function'] *)
Definition has_evaluate (o : option node) : bool :=
  match o with
  | Some (Gate _ _ _ _ _ _) => true
  | _ => false
  end.

(** [x.constructor.name] *)
Definition constructor_name (o : option node) : string :=
  match o with
  | Some (InputPoint _ _ _) => "InputPoint"
  | Some (OutputPoint _ _ _) => "OutputPoint"
  | Some (Gate LogicGate _ _ _ _ _) => "LogicGate"
  | Some (Gate AndGate _ _ _ _ _) => "AndGate"
  | Some (Gate NotGate _ _ _ _ _) => "NotGate"
  | Some (Gate NAndGate _ _ _ _ _) => "NAndGate"
  | None => "Object"
  end.

(** [x instanceof Object.getPrototypeOf(this.gates).constructor].
    [this.gates] is an array, its prototype is [Array.prototype] and the
    constructor of that is [Array]: the test is [x instanceof Array].
    The prototype chain of an InputPoint, an OutputPoint, a gate of any
    class or a plain object does not pass through [Array.prototype]. *)
Definition instanceof_gates_constructor (o : option node) : bool :=
  match o with
  | Some (InputPoint _ _ _) => false
  | Some (OutputPoint _ _ _) => false
  | Some (Gate _ _ _ _ _ _) => false
  | None => false
  end.

(** [arr.includes(x)] *)
Definition includes (l : list ref) (x : ref) : bool := bool_decide (x ∈ l).

(** [arr.filter(y => y !== x)] *)
Definition without (x : ref) (l : list ref) : list ref := filter (fun y => y ≠ x) l.

(** ** Constructors *)

Definition new_InputPoint (name : string) (initialState : Z) : node :=
  InputPoint name initialState [].
Definition new_OutputPoint (name : string) : node :=
  OutputPoint name None LOW.
Definition new_LogicGate (name : string) : node := Gate LogicGate name [] LOW [] 2%Z.
Definition new_AndGate (name : string) : node := Gate AndGate name [] LOW [] 2%Z.
Definition new_NotGate (name : string) : node := Gate NotGate name [] LOW [] 1%Z.
Definition new_NAndGate (name : string) (numInputs : Z) : node :=
  Gate NAndGate name [] LOW [] numInputs.
Definition new_Simulation : Simulation := mkSimulation [] [] [] [].

(** ** Reading signals *)

(** [x.getOutput()] where the caller has not checked that it is a function *)
Definition getOutput (r : ref) : M Z :=
  do o <- gets (fun w => obj w r);
  match o with
  | Some (InputPoint _ v _) => ret v
  | Some (OutputPoint _ _ v) => ret v
  | Some (Gate _ _ _ ov _ _) => ret ov
  | None => throw TypeError
  end.

(** [LogicGate.getInputValue(index)] of a gate whose [inputs] is [ins].
    It has no effect on the store. *)
Definition getInputValue (w : World) (ins : list ref) (index : nat) : Z :=
  match ins !! index with
  | Some inputSource =>
      match obj w inputSource with
      | Some (InputPoint _ v _) => v
      | Some (OutputPoint _ _ v) => v
      | Some (Gate _ _ _ ov _ _) => ov
      | None => LOW
      end
  | None => LOW
  end.

(** The loop of [NAndGate.evaluate]: [result] starts HIGH and the loop
    stops at the first input that reads LOW. *)
Fixpoint nand_loop (w : World) (ins : list ref) (i : nat) (remaining : nat) : Z :=
  match remaining with
  | O => HIGH
  | S k => if Z.eqb (getInputValue w ins i) LOW then LOW
           else nand_loop w ins (S i) k
  end.

(** The value [evaluate] stores into [outputValue], per class; [None] for
    the base class, whose [evaluate] throws. *)
Definition evaluate_value (w : World) (c : GateClass) (ins : list ref) (maxInputs : Z) : option Z :=
  match c with
  | LogicGate => None
  | AndGate =>
      if Z.ltb (Z.of_nat (length ins)) maxInputs then Some LOW
      else
        let val1 := getInputValue w ins 0 in
        let val2 := getInputValue w ins 1 in
        Some (if Z.eqb val1 HIGH && Z.eqb val2 HIGH then HIGH else LOW)
  | NotGate =>
      if Z.ltb (Z.of_nat (length ins)) 1 then Some LOW
      else
        let val := getInputValue w ins 0 in
        Some (if Z.eqb val HIGH then LOW else HIGH)
  | NAndGate =>
      if Nat.eqb (length ins) 0 then Some LOW
      else Some (nand_loop w ins 0 (length ins))
  end.

(** [gate.evaluate()] *)
Definition evaluate (this : ref) : M Z :=
  do w <- gets id;
  match obj w this with
  | Some (Gate c _ ins _ _ mx) =>
      match evaluate_value w c ins mx with
      | Some v => modify (upd_heap (set_value this v)) ;; ret v
      | None => throw NotImplemented
      end
  | _ => throw TypeError
  end.

(** [InputPoint.setValue(newValue)] *)
Definition setValue (this : ref) (newValue : Z) : M unit :=
  do o <- gets (fun w => obj w this);
  match o with
  | Some (InputPoint n _ _) =>
      if Z.eqb newValue HIGH || Z.eqb newValue LOW
      then modify (upd_heap (set_value this newValue))
      else modify (write_console (InvalidValue n))
  | _ => throw TypeError
  end.

(** [InputPoint.toggle()] *)
Definition toggle (this : ref) : M unit :=
  do o <- gets (fun w => obj w this);
  match o with
  | Some (InputPoint _ v _) =>
      modify (upd_heap (set_value this (if Z.eqb v HIGH then LOW else HIGH)))
  | _ => throw TypeError
  end.

(** [OutputPoint.update()] *)
Definition update (this : ref) : M unit :=
  do w <- gets id;
  match obj w this with
  | Some (OutputPoint _ inp _) =>
      match inp with
      | Some s =>
          match obj w s with
          | Some (InputPoint _ v _) | Some (OutputPoint _ _ v) | Some (Gate _ _ _ v _ _) =>
              modify (upd_heap (set_value this v))
          | None => modify (upd_heap (set_value this LOW))
          end
      | None => modify (upd_heap (set_value this LOW))
      end
  | _ => throw TypeError
  end.

(** [OutputPoint.getValue()] *)
Definition getValue (this : ref) : M Z :=
  do o <- gets (fun w => obj w this);
  match o with
  | Some (OutputPoint _ _ v) => ret v
  | _ => throw TypeError
  end.

(** ** Linking

    [addOutput] and [removeOutput] are the methods of InputPoint and of
    LogicGate (the bodies are the same text in both classes); [addInput]
    and [removeInput] are the methods of LogicGate and of OutputPoint.
    The receiver's class selects the body.  [fuel] is the call-stack
    depth still available. *)

Fixpoint removeOutput (fuel : nat) (this destination : ref) {struct fuel} : M unit :=
  match fuel with
  | O => throw RangeError
  | S fuel' =>
      do o <- gets (fun w => obj w this);
      match outputs_of o with
      | Some outs =>
          modify (upd_heap (set_outputs this (without destination outs))) ;;
          do d <- gets (fun w => obj w destination);
          if has_removeInput d then removeInput fuel' destination this else ret tt
      | None => throw TypeError
      end
  end

with removeInput (fuel : nat) (this source : ref) {struct fuel} : M unit :=
  match fuel with
  | O => throw RangeError
  | S fuel' =>
      do o <- gets (fun w => obj w this);
      match o with
      | Some (Gate _ _ ins _ _ _) =>
          modify (upd_heap (set_inputs this (without source ins))) ;;
          do s <- gets (fun w => obj w source);
          if has_removeOutput s then removeOutput fuel' source this else ret tt
      | Some (OutputPoint _ inp _) =>
          (* OutputPoint.removeInput() takes no parameter *)
          match inp with
          | Some i =>
              do io <- gets (fun w => obj w i);
              if has_removeOutput io then removeOutput fuel' i this else ret tt
          | None => ret tt
          end ;;
          modify (upd_heap (set_input this None)) ;;
          modify (upd_heap (set_value this LOW))
      | _ => throw TypeError
      end
  end.

Fixpoint addOutput (fuel : nat) (this destination : ref) {struct fuel} : M unit :=
  match fuel with
  | O => throw RangeError
  | S fuel' =>
      do o <- gets (fun w => obj w this);
      match outputs_of o with
      | Some outs =>
          if includes outs destination then ret tt
          else
            modify (upd_heap (set_outputs this (outs ++ [destination]))) ;;
            do d <- gets (fun w => obj w destination);
            if has_addInput d then
              match inputs_of d with
              | Some ins =>
                  if includes ins this then ret tt
                  else addInput fuel' destination this
              | None => throw TypeError   (* destination.inputs is undefined *)
              end
            else ret tt
      | None => throw TypeError
      end
  end

with addInput (fuel : nat) (this source : ref) {struct fuel} : M unit :=
  match fuel with
  | O => throw RangeError
  | S fuel' =>
      do o <- gets (fun w => obj w this);
      match o with
      | Some (Gate _ n ins _ _ mx) =>
          if Z.ltb (Z.of_nat (length ins)) mx then
            if includes ins source then ret tt
            else
              modify (upd_heap (set_inputs this (ins ++ [source]))) ;;
              do s <- gets (fun w => obj w source);
              if has_addOutput s then addOutput fuel' source this else ret tt
          else modify (write_console (MaxInputsReached n mx))
      | Some (OutputPoint n inp _) =>
          match inp with
          | Some old =>
              if bool_decide (old ≠ source) then
                do oldo <- gets (fun w => obj w old);
                modify (write_console (ReplacingConnection n (name_of oldo))) ;;
                if has_removeOutput oldo then removeOutput fuel' old this else ret tt
              else ret tt
          | None => ret tt
          end ;;
          modify (upd_heap (set_input this (Some source))) ;;
          do s <- gets (fun w => obj w source);
          (if has_addOutput s then
             match outputs_of s with
             | Some outs =>
                 if includes outs this then ret tt else addOutput fuel' source this
             | None => throw TypeError
             end
           else ret tt) ;;
          update this
      | _ => throw TypeError
      end
  end.

(** ** The Simulation *)

Definition set_components (l : list ref) (s : Simulation) : Simulation :=
  mkSimulation l (inputPoints s) (outputPoints s) (gates s).
Definition set_inputPoints (l : list ref) (s : Simulation) : Simulation :=
  mkSimulation (components s) l (outputPoints s) (gates s).
Definition set_outputPoints (l : list ref) (s : Simulation) : Simulation :=
  mkSimulation (components s) (inputPoints s) l (gates s).
Definition set_gates (l : list ref) (s : Simulation) : Simulation :=
  mkSimulation (components s) (inputPoints s) (outputPoints s) l.

(** [Simulation.addComponent(component)] *)
Definition addComponent (component : ref) : M unit :=
  do w <- gets id;
  if includes (components (sim w)) component then ret tt
  else
    modify (upd_sim (fun s => set_components (components s ++ [component]) s)) ;;
    let o := obj w component in
    if String.eqb (constructor_name o) "InputPoint" then
      modify (upd_sim (fun s => set_inputPoints (inputPoints s ++ [component]) s))
    else if String.eqb (constructor_name o) "OutputPoint" then
      modify (upd_sim (fun s => set_outputPoints (outputPoints s ++ [component]) s))
    else if instanceof_gates_constructor o then
      if has_evaluate o then
        modify (upd_sim (fun s => set_gates (gates s ++ [component]) s))
      else ret tt
    else ret tt.

(** [Simulation.removeComponent(component)] *)
Definition removeComponent (fuel : nat) (component : ref) : M unit :=
  modify (upd_sim (fun s => set_components (without component (components s)) s)) ;;
  do o <- gets (fun w => obj w component);
  if String.eqb (constructor_name o) "InputPoint" then
    modify (upd_sim (fun s => set_inputPoints (without component (inputPoints s)) s)) ;;
    forEach (default [] (outputs_of o)) (fun outputConnection =>
      do oc <- gets (fun w => obj w outputConnection);
      if has_removeInput oc then removeInput fuel outputConnection component else ret tt) ;;
    modify (upd_heap (set_outputs component []))
  else if String.eqb (constructor_name o) "OutputPoint" then
    modify (upd_sim (fun s => set_outputPoints (without component (outputPoints s)) s)) ;;
    match input_of o with
    | Some i =>
        do io <- gets (fun w => obj w i);
        if has_removeOutput io then removeOutput fuel i component else ret tt
    | None => ret tt
    end ;;
    modify (upd_heap (set_input component None))
  else if has_evaluate o then
    modify (upd_sim (fun s => set_gates (without component (gates s)) s)) ;;
    forEach (default [] (inputs_of o)) (fun inputSource =>
      do io <- gets (fun w => obj w inputSource);
      if has_removeOutput io then removeOutput fuel inputSource component else ret tt) ;;
    modify (upd_heap (set_inputs component [])) ;;
    do o' <- gets (fun w => obj w component);
    forEach (default [] (outputs_of o')) (fun outputConnection =>
      do oc <- gets (fun w => obj w outputConnection);
      if has_removeInput oc then removeInput fuel outputConnection component else ret tt) ;;
    modify (upd_heap (set_outputs component []))
  else ret tt.

(** The callback of [this.gates.forEach] in [propagate]; [changed] is the
    local variable of the enclosing loop body. *)
Definition evaluate_gate (gate : ref) (changed : bool) : M bool :=
  do oldOutput <- getOutput gate;
  do _ <- evaluate gate;
  do newOutput <- getOutput gate;
  ret (if bool_decide (newOutput ≠ oldOutput) then true else changed).

Fixpoint evaluate_gates (gs : list ref) (changed : bool) : M bool :=
  match gs with
  | [] => ret changed
  | gate :: gs' => do changed' <- evaluate_gate gate changed; evaluate_gates gs' changed'
  end.

(** [this.outputPoints.forEach(outputPoint => outputPoint.update())] *)
Definition update_outputs : M unit :=
  do ops <- gets (fun w => outputPoints (sim w));
  forEach ops update.

(** The [for] loop of [propagate]: [i] is the loop variable and
    [remaining] is [maxIterations - i]. *)
Fixpoint propagate_loop (remaining : nat) (i : nat) : M unit :=
  match remaining with
  | O => ret tt
  | S remaining' =>
      do gs <- gets (fun w => gates (sim w));
      do changed <- evaluate_gates gs false;
      update_outputs ;;
      if negb changed && Nat.ltb 0 i then ret tt
      else propagate_loop remaining' (S i)
  end.

(** [Simulation.propagate()] *)
Definition propagate : M unit :=
  do maxIterations <- gets (fun w => (length (gates (sim w)) + 1));
  propagate_loop maxIterations 0 ;;
  update_outputs.

(** [Simulation.connect(sourceComponent, targetComponent)] *)
Definition connect (fuel : nat) (sourceComponent targetComponent : ref) : M unit :=
  do w <- gets id;
  if negb (includes (components (sim w)) sourceComponent)
     || negb (includes (components (sim w)) targetComponent)
  then modify (write_console ConnectNotAdded)
  else
    (if has_addOutput (obj w sourceComponent) && has_addInput (obj w targetComponent)
     then addOutput fuel sourceComponent targetComponent
     else modify (write_console ConnectInvalid)) ;;
    propagate.

(** [Simulation.disconnect(sourceComponent, targetComponent)] *)
Definition disconnect (fuel : nat) (sourceComponent targetComponent : ref) : M unit :=
  do w <- gets id;
  (if has_removeOutput (obj w sourceComponent)
   then removeOutput fuel sourceComponent targetComponent
   else modify (write_console DisconnectNoRemoveOutput)) ;;
  propagate.

(** ** Snapshot *)

Record connection := mkConnection {
  from : option string;
  to : option string
}.

Record CircuitState := mkCircuitState {
  st_inputs : list (option string * Z);
  st_gates : list (option string * Z * list (option string));
  st_outputs : list (option string * Z);
  st_connections : list connection
}.

(** [arr.map(f)] for a callback that reads the store and may throw *)
Fixpoint mapM {A B} (f : A -> M B) (l : list A) : M (list B) :=
  match l with
  | [] => ret []
  | x :: l' => do y <- f x; do ys <- mapM f l'; ret (y :: ys)
  end.

(** The [findIndex] callback of the deduplication filter.  Its second
    disjunct ends in [comp.constructor.name !== 'OutputPoint'], and no
    [comp] is in scope there: reaching that conjunct throws. *)
Fixpoint findIndex (conn : connection) (self : list connection) (i : nat)
  : outcome (option nat) :=
  match self with
  | [] => Return None
  | c :: rest =>
      if bool_decide (from c = from conn) && bool_decide (to c = to conn)
      then Return (Some i)
      else if bool_decide (to c = from conn) && bool_decide (from c = to conn)
      then Throw ReferenceError
      else findIndex conn rest (S i)
  end.

(** [self.filter((conn, index, self) => index === self.findIndex(...))];
    [todo] is the part of [self] from position [index] on. *)
Fixpoint dedup_connections (self todo : list connection) (index : nat)
  : outcome (list connection) :=
  match todo with
  | [] => Return []
  | conn :: todo' =>
      match findIndex conn self 0 with
      | Throw e => Throw e
      | Return found =>
          match dedup_connections self todo' (S index) with
          | Throw e => Throw e
          | Return kept =>
              Return (if bool_decide (found = Some index) then conn :: kept else kept)
          end
      end
  end.

(** The connections one component contributes, in push order. *)
Definition connections_of (w : World) (comp : ref) : list connection :=
  let o := obj w comp in
  match outputs_of o with
  | Some outs =>
      map (fun out_conn => mkConnection (name_of o) (name_of (obj w out_conn))) outs
  | None => []
  end ++
  if String.eqb (constructor_name o) "OutputPoint" then
    match input_of o with
    | Some i => [mkConnection (name_of (obj w i)) (name_of o)]
    | None => []
    end
  else [].

(** [Simulation.getCircuitState()] *)
Definition getCircuitState : M CircuitState :=
  do w <- gets id;
  do ins <- mapM (fun ip => do v <- getOutput ip; ret (name_of (obj w ip), v))
                 (inputPoints (sim w));
  do gs <- mapM (fun g =>
                   do v <- getOutput g;
                   match inputs_of (obj w g) with
                   | Some srcs => ret (name_of (obj w g), v,
                                     map (fun i => name_of (obj w i)) srcs)
                   | None => throw TypeError
                   end)
                (gates (sim w));
  do outs <- mapM (fun op => do v <- getValue op; ret (name_of (obj w op), v))
                  (outputPoints (sim w));
  let conns := concat (map (connections_of w) (components (sim w))) in
  match dedup_connections conns conns 0 with
  | Return kept => ret (mkCircuitState ins gs outs kept)
  | Throw e => throw e
  end.

(** * Observations, invariants and example circuits *)

(** The cached signal of a node: [value] or [outputValue]. *)
Definition cached (o : option node) : option Z :=
  match o with
  | Some (InputPoint _ v _) | Some (OutputPoint _ _ v) | Some (Gate _ _ _ v _ _) => Some v
  | None => None
  end.

(** [reads w s a]: the node [s] currently produces signal [a]. *)
Definition reads (w : World) (s : ref) (a : Z) : Prop :=
  getOutput s w = (Return a, w).

Definition is_signal (a : Z) : Prop := a = LOW \/ a = HIGH.

(** A store from a list of allocations. *)
Definition store (l : list (ref * node)) : gmap ref node := list_to_map l.

(** Two inputs at HIGH feeding an AND gate; one input at LOW feeding a NOT gate. *)
Definition and_world : World :=
  mkWorld (store [(0, InputPoint "Input1" HIGH [2]);
                  (1, InputPoint "Input2" HIGH [2]);
                  (2, Gate AndGate "TestAndGate" [0; 1] LOW [] 2%Z)])
          new_Simulation [].

Definition not_world : World :=
  mkWorld (store [(0, InputPoint "InputNot" LOW [1]);
                  (1, Gate NotGate "TestNotGate" [0] LOW [] 1%Z)])
          new_Simulation [].

(** *** The NOT→AND scenario *)

Definition InputA : ref := 0.
Definition InputB : ref := 1.
Definition Not1 : ref := 2.
Definition And1 : ref := 3.
Definition OutputX : ref := 4.

(** The five objects as their constructors leave them, and an empty Simulation. *)
Definition scenario_start : World :=
  mkWorld (store [(InputA, new_InputPoint "InputA" LOW);
                  (InputB, new_InputPoint "InputB" LOW);
                  (Not1, new_NotGate "Not1");
                  (And1, new_AndGate "And1");
                  (OutputX, new_OutputPoint "OutputX")])
          new_Simulation [].

(** Registration and the four connections, in the order of the scenario. *)
Definition scenario_setup (fuel : nat) : M unit :=
  addComponent InputA ;; addComponent InputB ;; addComponent Not1 ;;
  addComponent And1 ;; addComponent OutputX ;;
  connect fuel InputA Not1 ;;
  connect fuel Not1 And1 ;;
  connect fuel InputB And1 ;;
  connect fuel And1 OutputX ;;
  propagate.

(** The state in which [scenario_setup] stops. *)
Definition scenario_stopped : World :=
  mkWorld (store [(InputA, InputPoint "InputA" LOW [Not1]);
                  (InputB, InputPoint "InputB" LOW [And1]);
                  (Not1, Gate NotGate "Not1" [InputA] LOW [And1] 1%Z);
                  (And1, Gate AndGate "And1" [Not1; InputB] LOW [OutputX] 2%Z);
                  (OutputX, OutputPoint "OutputX" None LOW)])
          (mkSimulation [InputA; InputB; Not1; And1; OutputX]
                        [InputA; InputB] [OutputX] [])
          [].

(** The rest of the scenario, reading Not1 and OutputX after each propagate. *)
Definition scenario_readings : M (list (Z * Z)) :=
  let look := (do n <- getOutput Not1; do x <- getValue OutputX; ret (n, x)) in
  propagate ;; do r1 <- look;
  setValue InputA HIGH ;; propagate ;; do r2 <- look;
  setValue InputB HIGH ;; propagate ;; do r3 <- look;
  setValue InputA LOW ;; propagate ;; do r4 <- look;
  ret [r1; r2; r3; r4].

(** A freshly constructed AND gate and an empty Simulation. *)
Definition lone_gate_world : World :=
  mkWorld (store [(0, new_AndGate "And1")]) new_Simulation [].

(** *** Propagation passes *)

(** One propagation pass: every gate of [gates] is evaluated in list
    order, then every output point is refreshed; the result tells whether
    some gate's output differed from what it was before its evaluation. *)
Definition pass : M bool :=
  do gs <- gets (fun w => gates (sim w));
  do changed <- evaluate_gates gs false;
  update_outputs ;;
  ret changed.


(** *** Link fields and validation *)

(** The link fields of a node: [inputs], [input] and [outputs]. *)
Definition links (o : option node) : option (list ref) * option ref * option (list ref) :=
  (inputs_of o, input_of o, outputs_of o).

(** [w'] has the registry, the console and every node's link fields of [w]. *)
Definition same_structure (w w' : World) : Prop :=
  sim w' = sim w /\ console w' = console w /\ forall r, links (obj w' r) = links (obj w r).

(** The ways a [connect(source, target)] call fails validation. *)
Definition unregistered (w : World) (source target : ref) : Prop :=
  source ∉ components (sim w) \/ target ∉ components (sim w).
Definition incapable (w : World) (source target : ref) : Prop :=
  has_addOutput (obj w source) = false \/ has_addInput (obj w target) = false.

(** The no-op reading of a failing [connect], as the specification words
    it: an error is reported and no link field and no cached signal changes. *)
Definition connect_failure_is_noop : Prop :=
  forall fuel w source target,
    unregistered w source target \/ incapable w source target ->
    let w' := (connect fuel source target w).2 in
    (exists e, console w' = console w ++ [e])
    /\ (forall r, links (obj w' r) = links (obj w r))
    /\ (forall r, cached (obj w' r) = cached (obj w r)).

(** An input that was set to HIGH after its output point was last
    refreshed; both are registered. *)
Definition stale_world : World :=
  mkWorld (store [(0, InputPoint "InputA" HIGH [1]);
                  (1, OutputPoint "OutputX" (Some 0) LOW)])
          (mkSimulation [0; 1] [0] [1] [])
          [].

(** *** Runs *)

(** The run did not exhaust the call stack. *)
Definition no_overflow {A} (p : outcome A * World) : Prop :=
  p.1 <> Throw RangeError.

(** [deeper m1 m2]: wherever [m1] does not overflow, [m2] does the same as [m1]. *)
Definition deeper {A} (m1 m2 : M A) : Prop :=
  forall w, no_overflow (m1 w) -> m2 w = m1 w.

(** [stable R m]: every run of [m], normal or abrupt, ends in a world
    related by [R] to the one it started in. *)
Definition stable {A} (R : World -> World -> Prop) (m : M A) : Prop :=
  forall w, R w (m w).2.

(** *** Classes and frames *)

(** The class of an object, as far as the capability tests go. *)
Inductive tag := TInput | TOutput | TGate | TNone.

Definition tag_of (o : option node) : tag :=
  match o with
  | Some (InputPoint _ _ _) => TInput
  | Some (OutputPoint _ _ _) => TOutput
  | Some (Gate _ _ _ _ _ _) => TGate
  | None => TNone
  end.

(** [touched rs w w']: from [w] to [w'] only objects in [rs] were written,
    no object changed class, and registry and console are the same. *)
Definition touched (rs : list ref) (w w' : World) : Prop :=
  sim w' = sim w /\ console w' = console w
  /\ (forall r, tag_of (obj w' r) = tag_of (obj w r))
  /\ (forall r, r ∉ rs -> obj w' r = obj w r).

(** An output point whose slot holds an input point, and a second input point. *)
Definition replace_world : World :=
  mkWorld (store [(0, InputPoint "Old" LOW [2]);
                  (1, InputPoint "New" HIGH []);
                  (2, OutputPoint "TestOutput" (Some 0) LOW)])
          new_Simulation [].

(** *** A two-input AND circuit *)

(** Two input points feeding an AND gate, all three registered: the state
    that registration and [connect(InputA, And1)], [connect(InputB, And1)]
    produce from fresh objects. *)
Definition and_circuit_start : World :=
  mkWorld (store [(InputA, new_InputPoint "InputA" LOW);
                  (InputB, new_InputPoint "InputB" LOW);
                  (And1, new_AndGate "And1")])
          new_Simulation [].

Definition and_circuit_setup (fuel : nat) : M unit :=
  addComponent InputA ;; addComponent InputB ;; addComponent And1 ;;
  connect fuel InputA And1 ;;
  connect fuel InputB And1.

Definition and_circuit : World :=
  mkWorld (store [(InputA, InputPoint "InputA" LOW [And1]);
                  (InputB, InputPoint "InputB" LOW [And1]);
                  (And1, Gate AndGate "And1" [InputA; InputB] LOW [] 2%Z)])
          (mkSimulation [InputA; InputB; And1] [InputA; InputB] [] [])
          [].

(** *** Duplicate-free links and scripts of public operations *)

(** No [inputs] array and no [outputs] array holds a reference twice. *)
Definition no_duplicate_links (w : World) : Prop :=
  forall r,
    (forall ins, inputs_of (obj w r) = Some ins -> NoDup ins)
    /\ (forall outs, outputs_of (obj w r) = Some outs -> NoDup outs).

(** [a] feeds [b], recorded on both sides. *)
Definition linked (w : World) (a b : ref) : Prop :=
  (exists outs, outputs_of (obj w a) = Some outs /\ b ∈ outs)
  /\ ((exists ins, inputs_of (obj w b) = Some ins /\ a ∈ ins)
      \/ input_of (obj w b) = Some a).

(** The public operations of the Simulation and of the node classes. *)
Inductive operation :=
| AddComponent (component : ref)
| RemoveComponent (component : ref)
| Connect (source target : ref)
| Disconnect (source target : ref)
| Propagate
| AddOutput (this destination : ref)
| AddInput (this source : ref)
| RemoveOutput (this destination : ref)
| RemoveInput (this source : ref)
| SetValue (this : ref) (newValue : Z)
| Toggle (this : ref)
| Evaluate (this : ref)
| Update (this : ref).

Definition perform (fuel : nat) (o : operation) : M unit :=
  match o with
  | AddComponent c => addComponent c
  | RemoveComponent c => removeComponent fuel c
  | Connect a b => connect fuel a b
  | Disconnect a b => disconnect fuel a b
  | Propagate => propagate
  | AddOutput this d => addOutput fuel this d
  | AddInput this s => addInput fuel this s
  | RemoveOutput this d => removeOutput fuel this d
  | RemoveInput this s => removeInput fuel this s
  | SetValue this v => setValue this v
  | Toggle this => toggle this
  | Evaluate this => evaluate this ;; ret tt
  | Update this => update this
  end.

(** A caller that issues the operations one after the other, each at its
    own stack depth, and carries on after an exception. *)
Fixpoint run (script : list (nat * operation)) (w : World) : World :=
  match script with
  | [] => w
  | (fuel, o) :: script' => run script' (perform fuel o w).2
  end.

(** [keeps I m]: every run of [m] from a world in [I], normal or abrupt,
    ends in a world in [I]. *)
Definition keeps {A} (I : World -> Prop) (m : M A) : Prop :=
  forall w, I w -> I (m w).2.

(** A decidable check of [no_duplicate_links] on one object. *)
Definition node_duplicate_free (n : node) : bool :=
  match n with
  | InputPoint _ _ outs => bool_decide (NoDup outs)
  | OutputPoint _ _ _ => true
  | Gate _ _ ins _ outs _ => bool_decide (NoDup ins) && bool_decide (NoDup outs)
  end.

(** *** Feed-forward circuits *)

(** The signal a node shows to a reader: its cached value, LOW for an
    object without one. *)
Definition read (w : World) (r : ref) : Z := default LOW (cached (obj w r)).

(** What [evaluate] would store into gate [g] now. *)
Definition gate_value (w : World) (g : ref) : Z :=
  match obj w g with
  | Some (Gate c _ ins _ _ mx) => default LOW (evaluate_value w c ins mx)
  | _ => LOW
  end.

(** What [update] would store into output point [op] now. *)
Definition source_value (w : World) (op : ref) : Z :=
  match input_of (obj w op) with
  | Some i => read w i
  | None => LOW
  end.

(** [this.value = v] / [this.outputValue = v] on the object [r]. *)
Definition poke (r : ref) (v : Z) (w : World) : World := upd_heap (set_value r v) w.

(** An object with its cached signal blanked: name, class and links. *)
Definition wiring (o : option node) : option node := with_value 0%Z <$> o.

(** Same registry, same console, and the same objects up to cached signals. *)
Definition same_wiring (w w' : World) : Prop :=
  sim w' = sim w /\ console w' = console w
  /\ forall r, wiring (obj w' r) = wiring (obj w r).

(** A gate of a class that implements [evaluate]. *)
Definition evaluable (o : option node) : Prop :=
  match o with
  | Some (Gate c _ _ _ _ _) => c <> LogicGate
  | _ => False
  end.

(** A feed-forward circuit: the tracked gates implement [evaluate] and can
    be ranked, with fewer ranks than gates, so that a tracked gate reads
    only tracked gates of lower rank and nodes that are neither tracked
    gates nor tracked output points; and a tracked output point is an
    OutputPoint whose source is not a tracked output point. *)
Record feed_forward (w : World) (rank : ref -> nat) : Prop := {
  ff_gates : forall g, g ∈ gates (sim w) -> evaluable (obj w g);
  ff_bound : forall g, g ∈ gates (sim w) -> (rank g < length (gates (sim w)))%nat;
  ff_inputs : forall g ins s,
      g ∈ gates (sim w) -> inputs_of (obj w g) = Some ins -> s ∈ ins ->
      (s ∈ gates (sim w) /\ (rank s < rank g)%nat)
      \/ ((s ∉ gates (sim w)) /\ (s ∉ outputPoints (sim w)));
  ff_sinks : forall op, op ∈ outputPoints (sim w) ->
      tag_of (obj w op) = TOutput
      /\ forall i, input_of (obj w op) = Some i -> i ∉ outputPoints (sim w)
}.

(** The gate pass and the sink pass as plain functions on worlds. *)
Fixpoint gates_pure (gs : list ref) (w : World) : World :=
  match gs with
  | [] => w
  | g :: gs' => gates_pure gs' (poke g (gate_value w g) w)
  end.

Fixpoint gates_changed (gs : list ref) (w : World) : bool :=
  match gs with
  | [] => false
  | g :: gs' =>
      bool_decide (gate_value w g <> read w g)
      || gates_changed gs' (poke g (gate_value w g) w)
  end.

Fixpoint sinks_pure (ops : list ref) (w : World) : World :=
  match ops with
  | [] => w
  | op :: ops' => sinks_pure ops' (poke op (source_value w op) w)
  end.

(** Idempotence of [propagate] as the specification words it: for every
    circuit state, the snapshot after a second [propagate] equals the
    snapshot after the first. *)
Definition propagate_idempotent : Prop :=
  forall w,
    (getCircuitState (propagate (propagate w).2).2).1
    = (getCircuitState (propagate w).2).1.

(** A NOT gate fed by its own output, tracked beside an unconnected AND gate. *)
Definition oscillator : World :=
  mkWorld (store [(0, Gate NotGate "Not1" [0] LOW [0] 1%Z);
                  (1, Gate AndGate "And1" [] LOW [] 2%Z)])
          (mkSimulation [0; 1] [] [] [0; 1])
          [].

(** Three output points in a chain behind an input at HIGH, registered
    downstream first; no gate at all. *)
Definition sink_chain : World :=
  mkWorld (store [(0, InputPoint "InputA" HIGH [3]);
                  (1, OutputPoint "Out1" (Some 2) LOW);
                  (2, OutputPoint "Out2" (Some 3) LOW);
                  (3, OutputPoint "Out3" (Some 0) LOW)])
          (mkSimulation [0; 1; 2; 3] [0] [1; 2; 3] [])
          [].

(** The NOT→AND circuit as the scenario means it: OutputX fed by And1 and
    both gates tracked, And1 ahead of the Not1 it reads. *)
Definition not_and_circuit : World :=
  mkWorld (store [(InputA, InputPoint "InputA" LOW [Not1]);
                  (InputB, InputPoint "InputB" HIGH [And1]);
                  (Not1, Gate NotGate "Not1" [InputA] LOW [And1] 1%Z);
                  (And1, Gate AndGate "And1" [Not1; InputB] LOW [OutputX] 2%Z);
                  (OutputX, OutputPoint "OutputX" (Some And1) LOW)])
          (mkSimulation [InputA; InputB; Not1; And1; OutputX]
                        [InputA; InputB] [OutputX] [And1; Not1])
          [].

Definition not_and_rank (r : ref) : nat := if decide (r = And1) then 1 else 0.

(** A decidable check of [feed_forward]. *)
Definition feed_forward_check (w : World) (rank : ref -> nat) : bool :=
  forallb (fun g =>
    match obj w g with
    | Some (Gate c _ ins _ _ _) =>
        bool_decide (c <> LogicGate)
        && Nat.ltb (rank g) (length (gates (sim w)))
        && forallb (fun s =>
             (includes (gates (sim w)) s && Nat.ltb (rank s) (rank g))
             || (negb (includes (gates (sim w)) s)
                 && negb (includes (outputPoints (sim w)) s))) ins
    | _ => false
    end) (gates (sim w))
  && forallb (fun op =>
    match obj w op with
    | Some (OutputPoint _ (Some i) _) => negb (includes (outputPoints (sim w)) i)
    | Some (OutputPoint _ None _) => true
    | _ => false
    end) (outputPoints (sim w)).

(** Every tracked gate of rank below [k] shows what [evaluate] would store. *)
Definition settled_below (rank : ref -> nat) (k : nat) (w : World) : Prop :=
  forall g, g ∈ gates (sim w) -> (rank g < k)%nat -> read w g = gate_value w g.

(** [w'] is [w] up to cached signals, and shows the signals of [w] on the
    tracked gates of rank below [k] and on every node that is neither a
    tracked gate nor a tracked output point. *)
Definition agrees_below (rank : ref -> nat) (k : nat) (w w' : World) : Prop :=
  same_wiring w w'
  /\ (forall r, r ∉ gates (sim w) -> r ∉ outputPoints (sim w) -> read w' r = read w r)
  /\ (forall g, g ∈ gates (sim w) -> (rank g < k)%nat -> read w' g = read w g).

(** Every tracked output point shows what [update] would store. *)
Definition sinks_fresh (w : World) : Prop :=
  forall op, op ∈ outputPoints (sim w) -> read w op = source_value w op.

(** *** Capacity *)

(** No gate holds more inputs than its [maxInputs]. *)
Definition within_capacity (w : World) : Prop :=
  forall g c nm ins ov outs mx,
    obj w g = Some (Gate c nm ins ov outs mx) -> (Z.of_nat (length ins) <= mx)%Z.

(** The two fields of an object that [within_capacity] looks at. *)
Definition capacity_view (o : option node) : option (list ref * Z) :=
  match o with
  | Some (Gate _ _ ins _ _ mx) => Some (ins, mx)
  | _ => None
  end.

(** A full AND gate and a third, unconnected input, all registered. *)
Definition full_gate_world : World :=
  mkWorld (store [(InputA, InputPoint "InputA" LOW [And1]);
                  (InputB, InputPoint "InputB" LOW [And1]);
                  (And1, Gate AndGate "And1" [InputA; InputB] LOW [] 2%Z);
                  (5, InputPoint "InputC" LOW [])])
          (mkSimulation [InputA; InputB; And1; 5] [InputA; InputB; 5] [] [])
          [].

(** *** More example circuits *)

(** Three inputs, the middle one at LOW, feeding an N-input AND gate. *)
Definition nand_world : World :=
  mkWorld (store [(0, InputPoint "In0" HIGH [3]);
                  (1, InputPoint "In1" LOW [3]);
                  (2, InputPoint "In2" HIGH [3]);
                  (3, Gate NAndGate "NAnd" [0; 1; 2] LOW [] 3%Z)])
          new_Simulation [].

(** *** What a propagation may write *)

(** [signals_only rs w w']: from [w] to [w'] only objects in [rs] were
    written, only their cached signals, and no input point at all. *)
Definition signals_only (rs : list ref) (w w' : World) : Prop :=
  touched rs w w' /\ same_wiring w w'
  /\ forall r, tag_of (obj w r) = TInput -> obj w' r = obj w r.

(** Every tracked gate implements [evaluate] and every tracked output
    point is an OutputPoint. *)
Definition well_tracked (w : World) : Prop :=
  (forall g, g ∈ gates (sim w) -> evaluable (obj w g))
  /\ (forall op, op ∈ outputPoints (sim w) -> tag_of (obj w op) = TOutput).

(** A NOT gate and an AND gate feeding each other, with one output point. *)
Definition feedback_world : World :=
  mkWorld (store [(0, Gate NotGate "Not1" [1] LOW [1] 1%Z);
                  (1, Gate AndGate "And1" [0; 2] LOW [0; 3] 2%Z);
                  (2, InputPoint "In" HIGH [1]);
                  (3, OutputPoint "Out" (Some 1) LOW)])
          (mkSimulation [0; 1; 2; 3] [2] [3] [0; 1])
          [].

(** *** Removal *)

(** An object without links: no input, no output, an empty slot. *)
Definition unlinked_node (o : option node) : Prop :=
  default [] (inputs_of o) = [] /\ default [] (outputs_of o) = [] /\ input_of o = None.

(** [d] calls back when something is detached from it: a gate, or an
    output point whose slot holds a source that has [removeOutput]. *)
Definition calls_back (w : World) (d : ref) : Prop :=
  has_evaluate (obj w d) = true
  \/ exists i, input_of (obj w d) = Some i /\ has_removeOutput (obj w i) = true.

(** The first link that [removeComponent(c)] detaches calls back. *)
Definition first_link_live (w : World) (c : ref) : Prop :=
  match obj w c with
  | Some (InputPoint _ _ (d :: _)) => calls_back w d
  | Some (OutputPoint _ (Some i) _) => has_removeOutput (obj w i) = true
  | Some (Gate _ _ (s :: _) _ _ _) => has_removeOutput (obj w s) = true
  | Some (Gate _ _ [] _ (d :: _) _) => calls_back w d
  | _ => False
  end.

(** *** The registry *)

#[global] Instance tag_eq_dec : EqDecision tag.
Proof. solve_decision. Defined.

(** [w'] has the registry of [w], and every object has kept its class. *)
Definition same_classes (w w' : World) : Prop :=
  sim w' = sim w /\ forall r, tag_of (obj w' r) = tag_of (obj w r).

(** The registry agrees with the classes of the registered objects:
    [components] holds no object twice, [inputPoints] and [outputPoints]
    are the InputPoints and the OutputPoints of [components], in the same
    order, and [gates] is empty. *)
Definition classified (w : World) : Prop :=
  NoDup (components (sim w))
  /\ inputPoints (sim w)
     = filter (fun r => tag_of (obj w r) = TInput) (components (sim w))
  /\ outputPoints (sim w)
     = filter (fun r => tag_of (obj w r) = TOutput) (components (sim w))
  /\ gates (sim w) = [].

(** A decidable check of [within_capacity] on one object. *)
Definition node_within_capacity (n : node) : bool :=
  match n with
  | Gate _ _ ins _ _ mx => Z.leb (Z.of_nat (length ins)) mx
  | _ => true
  end.

(** [w'] has the slot of every output point as it is in [w]. *)
Definition same_slots (w w' : World) : Prop :=
  forall r, input_of (obj w' r) = input_of (obj w r).

(** *** Snapshots *)

#[global] Instance connection_eq_dec : EqDecision connection.
Proof. solve_decision. Defined.

(** [c] is [conn] reversed, and not [conn] itself. *)
Definition reverse_of (conn c : connection) : bool :=
  bool_decide (to c = from conn) && bool_decide (from c = to conn)
  && negb (bool_decide (c = conn)).

(** Some connection of the list has its reverse in the list. *)
Definition has_reversed (self : list connection) : bool :=
  existsb (fun conn => existsb (reverse_of conn) self) self.

(** The connections of [l] that occur neither in [seen] nor earlier in
    [l], in the order of [l]. *)
Fixpoint first_occurrences (seen l : list connection) : list connection :=
  match l with
  | [] => []
  | c :: l' =>
      let rest := first_occurrences (seen ++ [c]) l' in
      if bool_decide (c ∈ seen) then rest else c :: rest
  end.

(** The connections that [getCircuitState] collects before it filters them. *)
Definition all_connections (w : World) : list connection :=
  concat (map (connections_of w) (components (sim w))).

(** *** Circuits that show nothing *)

(** An object that shows no signal: an output point with an empty slot
    at LOW, a gate whose cached output is LOW; input points are free. *)
Definition dark_node (o : option node) : Prop :=
  match o with
  | Some (OutputPoint _ inp v) => inp = None /\ v = LOW
  | Some (Gate _ _ _ ov _ _) => ov = LOW
  | _ => True
  end.

(** No gate is tracked and no output point or gate shows a signal. *)
Definition dark (w : World) : Prop :=
  gates (sim w) = [] /\ forall r, dark_node (obj w r).

(** The operations of the Simulation and the link and input-point methods:
    all but a direct [addInput] and a direct [evaluate]. *)
Definition through_simulation (o : operation) : bool :=
  match o with
  | AddInput _ _ | Evaluate _ => false
  | _ => true
  end.

(** A decidable check of [dark_node]. *)
Definition node_dark (n : node) : bool :=
  match n with
  | OutputPoint _ inp v => bool_decide (inp = None) && Z.eqb v LOW
  | Gate _ _ _ ov _ _ => Z.eqb ov LOW
  | InputPoint _ _ _ => true
  end.

(** *** The passes of a propagation, call by call *)






(** *** One circuit, registered and cached in two ways *)

(** [w2] is the circuit of [w1]: the same objects up to cached signals,
    the same tracked gates and tracked output points, possibly listed in
    another order, and the same signals on every object that is neither a
    tracked gate nor a tracked output point. *)
Definition same_circuit (w1 w2 : World) : Prop :=
  (forall r, wiring (obj w2 r) = wiring (obj w1 r))
  /\ gates (sim w2) ≡ₚ gates (sim w1)
  /\ outputPoints (sim w2) ≡ₚ outputPoints (sim w1)
  /\ (forall r, r ∉ gates (sim w1) -> r ∉ outputPoints (sim w1) -> read w2 r = read w1 r).

(** Every tracked gate caches the value of its function on the signals it
    reads, and every tracked output point shows its source's signal. *)
Definition settled (w : World) : Prop :=
  (forall g, g ∈ gates (sim w) -> read w g = gate_value w g) /\ sinks_fresh w.

(** The circuit of [not_and_circuit] with the two gates tracked in the
    other order and other signals cached on the gates and the output. *)
Definition not_and_circuit_swapped : World :=
  mkWorld (store [(InputA, InputPoint "InputA" LOW [Not1]);
                  (InputB, InputPoint "InputB" HIGH [And1]);
                  (Not1, Gate NotGate "Not1" [InputA] LOW [And1] 1%Z);
                  (And1, Gate AndGate "And1" [Not1; InputB] HIGH [OutputX] 2%Z);
                  (OutputX, OutputPoint "OutputX" (Some And1) HIGH)])
          (mkSimulation [InputA; InputB; Not1; And1; OutputX]
                        [InputA; InputB] [OutputX] [Not1; And1])
          [].

(** The bound that the guard of [addInput] keeps: it pushes only while
    [inputs.length < maxInputs], so a gate never reaches [maxInputs + 1]
    inputs.  For an integer [maxInputs] this is [within_capacity]. *)
Definition capacity_bound (w : World) : Prop :=
  forall g c nm ins ov outs mx,
    obj w g = Some (Gate c nm ins ov outs mx) -> (Z.of_nat (length ins) < mx + 1)%Z.

(** * Properties *)

(** ** Equations of the completion monad *)

Lemma bind_modify {B} f (k : unit -> M B) w : bind (modify f) k w = k tt (f w).
Proof. reflexivity. Qed.

Lemma bind_gets {A B} (f : World -> A) (k : A -> M B) w : bind (gets f) k w = k (f w) w.
Proof. reflexivity. Qed.

Lemma bind_ret {A B} (a : A) (k : A -> M B) w : bind (ret a) k w = k a w.
Proof. reflexivity. Qed.

Lemma bind_returns {A B} (m : M A) (k : A -> M B) w a w' :
  m w = (Return a, w') -> bind m k w = k a w'.
Proof. intros E. unfold bind. rewrite E. reflexivity. Qed.

Lemma bind_throws {A B} (m : M A) (k : A -> M B) w e w' :
  m w = (Throw e, w') -> bind m k w = (Throw e, w').
Proof. intros E. unfold bind. rewrite E. reflexivity. Qed.

Lemma obj_upd_sim f w r : obj (upd_sim f w) r = obj w r.
Proof. reflexivity. Qed.

Lemma obj_write_console e w r : obj (write_console e w) r = obj w r.
Proof. reflexivity. Qed.

(** ** Gate evaluation *)

Lemma reads_cached w s a : reads w s a -> cached (obj w s) = Some a.
Proof.
  unfold reads, getOutput, bind, gets, ret, throw.
  destruct (obj w s) as [[| |]|]; simpl; congruence.
Qed.

Lemma getInputValue_reads w ins i s a :
  ins !! i = Some s -> reads w s a -> getInputValue w ins i = a.
Proof.
  intros Hi Hr. apply reads_cached in Hr. unfold getInputValue. rewrite Hi.
  destruct (obj w s) as [[| |]|]; simpl in Hr; congruence.
Qed.

Lemma evaluate_gate_value w g c n ins ov outs mx v :
  obj w g = Some (Gate c n ins ov outs mx) ->
  evaluate_value w c ins mx = Some v ->
  evaluate g w = (Return v, upd_heap (set_value g v) w)
  /\ obj (upd_heap (set_value g v) w) g = Some (Gate c n ins v outs mx).
Proof.
  intros Hg Hv. unfold evaluate, bind, gets, modify, ret. simpl.
  rewrite Hg, Hv. split; [reflexivity|].
  unfold obj in *. simpl. unfold set_value. rewrite lookup_alter_eq, Hg. reflexivity.
Qed.

(** C5: evaluating a 2-input AND gate whose connected inputs read [a] and
    [b] caches HIGH exactly when both are HIGH and LOW otherwise; with
    fewer than two connected inputs it caches LOW whatever the connected
    input reads. *)
Theorem and_gate_evaluate (w : World) (g : ref) n ins ov outs :
  obj w g = Some (Gate AndGate n ins ov outs 2%Z) ->
  exists v,
    evaluate g w = (Return v, upd_heap (set_value g v) w)
    /\ obj (upd_heap (set_value g v) w) g = Some (Gate AndGate n ins v outs 2%Z)
    /\ (forall s1 s2 a b,
           ins = [s1; s2] -> reads w s1 a -> reads w s2 b ->
           is_signal a -> is_signal b ->
           (v = HIGH <-> a = HIGH /\ b = HIGH)
           /\ (v = LOW <-> ~ (a = HIGH /\ b = HIGH)))
    /\ ((length ins < 2)%nat -> v = LOW).
Proof.
  intros Hg.
  destruct (evaluate_value w AndGate ins 2%Z) as [v|] eqn:Hv;
    [|simpl in Hv; destruct (Z.ltb _ _); discriminate].
  exists v. destruct (evaluate_gate_value _ _ _ _ _ _ _ _ _ Hg Hv) as [He Ho].
  split; [exact He|]. split; [exact Ho|]. split.
  - intros s1 s2 a b -> Ha Hb Sa Sb. simpl in Hv.
    rewrite (getInputValue_reads w [s1; s2] 0 s1 a eq_refl Ha) in Hv.
    rewrite (getInputValue_reads w [s1; s2] 1 s2 b eq_refl Hb) in Hv.
    injection Hv as <-. unfold is_signal, HIGH, LOW in *.
    destruct Sa as [-> | ->], Sb as [-> | ->]; simpl; split; split;
      intros; try split; try discriminate; try reflexivity; try lia; try tauto.
    all: try (intros [? ?]; discriminate).
  - intros Hlen. simpl in Hv.
    assert (Z.ltb (Z.of_nat (length ins)) 2 = true) as E by (apply Z.ltb_lt; lia).
    rewrite E in Hv. congruence.
Qed.

Lemma and_gate_evaluate_witness :
  exists v,
    evaluate 2 and_world = (Return v, upd_heap (set_value 2 v) and_world)
    /\ obj (upd_heap (set_value 2 v) and_world) 2
       = Some (Gate AndGate "TestAndGate" [0; 1] v [] 2%Z)
    /\ (forall s1 s2 a b,
           [0; 1] = [s1; s2] -> reads and_world s1 a -> reads and_world s2 b ->
           is_signal a -> is_signal b ->
           (v = HIGH <-> a = HIGH /\ b = HIGH)
           /\ (v = LOW <-> ~ (a = HIGH /\ b = HIGH)))
    /\ ((length [0; 1] < 2)%nat -> v = LOW).
Proof.
  apply (and_gate_evaluate and_world 2 "TestAndGate" [0; 1] LOW []).
  reflexivity.
Defined.

(** C6: evaluating a NOT gate whose connected input reads [a] caches HIGH
    exactly when [a] is LOW and LOW exactly when [a] is HIGH; with no
    connected input it caches LOW. *)
Theorem not_gate_evaluate (w : World) (g : ref) n ins ov outs :
  obj w g = Some (Gate NotGate n ins ov outs 1%Z) ->
  exists v,
    evaluate g w = (Return v, upd_heap (set_value g v) w)
    /\ obj (upd_heap (set_value g v) w) g = Some (Gate NotGate n ins v outs 1%Z)
    /\ (forall s a,
           ins = [s] -> reads w s a -> is_signal a ->
           (v = HIGH <-> a = LOW) /\ (v = LOW <-> a = HIGH))
    /\ (ins = [] -> v = LOW).
Proof.
  intros Hg.
  destruct (evaluate_value w NotGate ins 1%Z) as [v|] eqn:Hv;
    [|simpl in Hv; destruct (Z.ltb _ _); discriminate].
  exists v. destruct (evaluate_gate_value _ _ _ _ _ _ _ _ _ Hg Hv) as [He Ho].
  split; [exact He|]. split; [exact Ho|]. split.
  - intros s a -> Ha Sa. simpl in Hv.
    rewrite (getInputValue_reads w [s] 0 s a eq_refl Ha) in Hv.
    injection Hv as <-. unfold is_signal, HIGH, LOW in *.
    destruct Sa as [-> | ->]; simpl; split; split; intros; congruence.
  - intros ->. simpl in Hv. congruence.
Qed.

Lemma not_gate_evaluate_witness :
  exists v,
    evaluate 1 not_world = (Return v, upd_heap (set_value 1 v) not_world)
    /\ obj (upd_heap (set_value 1 v) not_world) 1
       = Some (Gate NotGate "TestNotGate" [0] v [] 1%Z)
    /\ (forall s a,
           [0] = [s] -> reads not_world s a -> is_signal a ->
           (v = HIGH <-> a = LOW) /\ (v = LOW <-> a = HIGH))
    /\ ([0] = [] -> v = LOW).
Proof.
  apply (not_gate_evaluate not_world 1 "TestNotGate" [0] LOW []).
  reflexivity.
Defined.

(** ** Call-stack depth

    A run that did not exhaust the call stack is unchanged by a deeper
    stack. *)

Lemma deeper_refl {A} (m : M A) : deeper m m.
Proof. intros w _. reflexivity. Qed.

Lemma deeper_bind {A B} (m1 m2 : M A) (k1 k2 : A -> M B) :
  deeper m1 m2 -> (forall a, deeper (k1 a) (k2 a)) ->
  deeper (bind m1 k1) (bind m2 k2).
Proof.
  intros Hm Hk w. unfold bind. specialize (Hm w).
  destruct (m1 w) as [[a|e] w'] eqn:E.
  - rewrite Hm by (unfold no_overflow; simpl; discriminate). apply Hk.
  - intros Hno. rewrite Hm; [reflexivity|].
    intros Heq. apply Hno. simpl in *. congruence.
Qed.

Lemma deeper_forEach {A} (l : list A) (f1 f2 : A -> M unit) :
  (forall x, deeper (f1 x) (f2 x)) -> deeper (forEach l f1) (forEach l f2).
Proof.
  intros Hf. induction l as [|x l IH]; simpl.
  - apply deeper_refl.
  - apply deeper_bind; [apply Hf|intros _; exact IH].
Qed.

Ltac deeper_step :=
  match goal with
  | |- deeper (bind _ _) (bind _ _) => apply deeper_bind; [|intros ?]
  | |- deeper (forEach _ _) (forEach _ _) => apply deeper_forEach; intros ?
  | |- deeper ?m ?m => apply deeper_refl
  | |- deeper (match ?x with _ => _ end) (match ?x with _ => _ end) => destruct x
  | |- deeper (if ?x then _ else _) (if ?x then _ else _) => destruct x
  end.

(** Unfolding equations of the four linking methods. *)

Lemma removeOutput_S n this x :
  removeOutput (S n) this x =
  (do o <- gets (fun w => obj w this);
   match outputs_of o with
   | Some outs =>
       modify (upd_heap (set_outputs this (without x outs))) ;;
       do d <- gets (fun w => obj w x);
       if has_removeInput d then removeInput n x this else ret tt
   | None => throw TypeError
   end).
Proof. reflexivity. Qed.

Lemma removeInput_S n this x :
  removeInput (S n) this x =
  (do o <- gets (fun w => obj w this);
   match o with
   | Some (Gate _ _ ins _ _ _) =>
       modify (upd_heap (set_inputs this (without x ins))) ;;
       do s <- gets (fun w => obj w x);
       if has_removeOutput s then removeOutput n x this else ret tt
   | Some (OutputPoint _ inp _) =>
       match inp with
       | Some i =>
           do io <- gets (fun w => obj w i);
           if has_removeOutput io then removeOutput n i this else ret tt
       | None => ret tt
       end ;;
       modify (upd_heap (set_input this None)) ;;
       modify (upd_heap (set_value this LOW))
   | _ => throw TypeError
   end).
Proof. reflexivity. Qed.

Lemma addOutput_S n this x :
  addOutput (S n) this x =
  (do o <- gets (fun w => obj w this);
   match outputs_of o with
   | Some outs =>
       if includes outs x then ret tt
       else
         modify (upd_heap (set_outputs this (outs ++ [x]))) ;;
         do d <- gets (fun w => obj w x);
         if has_addInput d then
           match inputs_of d with
           | Some ins => if includes ins this then ret tt else addInput n x this
           | None => throw TypeError
           end
         else ret tt
   | None => throw TypeError
   end).
Proof. reflexivity. Qed.

Lemma addInput_S n this x :
  addInput (S n) this x =
  (do o <- gets (fun w => obj w this);
   match o with
   | Some (Gate _ nm ins _ _ mx) =>
       if Z.ltb (Z.of_nat (length ins)) mx then
         if includes ins x then ret tt
         else
           modify (upd_heap (set_inputs this (ins ++ [x]))) ;;
           do s <- gets (fun w => obj w x);
           if has_addOutput s then addOutput n x this else ret tt
       else modify (write_console (MaxInputsReached nm mx))
   | Some (OutputPoint nm inp _) =>
       match inp with
       | Some old =>
           if bool_decide (old <> x) then
             do oldo <- gets (fun w => obj w old);
             modify (write_console (ReplacingConnection nm (name_of oldo))) ;;
             if has_removeOutput oldo then removeOutput n old this else ret tt
           else ret tt
       | None => ret tt
       end ;;
       modify (upd_heap (set_input this (Some x))) ;;
       do s <- gets (fun w => obj w x);
       (if has_addOutput s then
          match outputs_of s with
          | Some outs => if includes outs this then ret tt else addOutput n x this
          | None => throw TypeError
          end
        else ret tt) ;;
       update this
   | _ => throw TypeError
   end).
Proof. reflexivity. Qed.

Lemma remove_deeper (n : nat) :
  (forall this d, deeper (removeOutput n this d) (removeOutput (S n) this d))
  /\ (forall this s, deeper (removeInput n this s) (removeInput (S n) this s)).
Proof.
  induction n as [|n [IHo IHi]].
  - split; intros ? ? w H; exfalso; apply H; reflexivity.
  - split; intros this x.
    + rewrite (removeOutput_S n), (removeOutput_S (S n)).
      repeat deeper_step. apply IHi.
    + rewrite (removeInput_S n), (removeInput_S (S n)).
      repeat deeper_step; apply IHo.
Qed.

Lemma add_deeper (n : nat) :
  (forall this d, deeper (addOutput n this d) (addOutput (S n) this d))
  /\ (forall this s, deeper (addInput n this s) (addInput (S n) this s)).
Proof.
  induction n as [|n [IHo IHi]].
  - split; intros ? ? w H; exfalso; apply H; reflexivity.
  - split; intros this x.
    + rewrite (addOutput_S n), (addOutput_S (S n)).
      repeat deeper_step. apply IHi.
    + rewrite (addInput_S n), (addInput_S (S n)).
      repeat deeper_step; first [apply IHo | apply remove_deeper].
Qed.

Lemma deeper_le {A} (f : nat -> M A) :
  (forall n, deeper (f n) (f (S n))) ->
  forall n m, (n <= m)%nat -> deeper (f n) (f m).
Proof.
  intros Hs n m Hle. induction Hle as [|m Hle IH].
  - apply deeper_refl.
  - intros w Hno. rewrite <- (IH w Hno). apply Hs. rewrite (IH w Hno). exact Hno.
Qed.

Lemma removeComponent_deeper n c : deeper (removeComponent n c) (removeComponent (S n) c).
Proof.
  unfold removeComponent.
  repeat deeper_step; first [apply remove_deeper | apply add_deeper].
Qed.

Lemma connect_deeper n a b : deeper (connect n a b) (connect (S n) a b).
Proof. unfold connect. repeat deeper_step. apply add_deeper. Qed.

Lemma disconnect_deeper n a b : deeper (disconnect n a b) (disconnect (S n) a b).
Proof. unfold disconnect. repeat deeper_step. apply remove_deeper. Qed.

(** A run of [connect] that does not exhaust the stack is the same at every
    larger depth. *)
Lemma connect_any_depth n a b w p :
  connect n a b w = p -> p.1 <> Throw RangeError ->
  forall m, (n <= m)%nat -> connect m a b w = p.
Proof.
  intros <- Hno m Hle.
  apply (deeper_le (fun k => connect k a b) (fun k => connect_deeper k a b) n m Hle w Hno).
Qed.

(** ** Registration *)

Lemma includes_false (l : list ref) (x : ref) : includes l x = false <-> x ∉ l.
Proof. unfold includes. rewrite bool_decide_eq_false. reflexivity. Qed.

Lemma includes_true (l : list ref) (x : ref) : includes l x = true <-> x ∈ l.
Proof. unfold includes. rewrite bool_decide_eq_true. reflexivity. Qed.

(** [addComponent] never writes [this.gates]. *)
Lemma addComponent_gates w component :
  gates (sim (addComponent component w).2) = gates (sim w).
Proof.
  unfold addComponent, bind, gets, modify, ret. simpl.
  destruct (includes _ _); [reflexivity|].
  destruct (obj w component) as [[| |[]]|]; reflexivity.
Qed.

(** The two classes [addComponent] does classify. *)
Lemma addComponent_classifies_io w component :
  component ∉ components (sim w) ->
  (forall n v outs, obj w component = Some (InputPoint n v outs) ->
     addComponent component w =
     (Return tt, upd_sim (fun s => set_inputPoints (inputPoints s ++ [component])
                                     (set_components (components s ++ [component]) s)) w))
  /\ (forall n i v, obj w component = Some (OutputPoint n i v) ->
     addComponent component w =
     (Return tt, upd_sim (fun s => set_outputPoints (outputPoints s ++ [component])
                                     (set_components (components s ++ [component]) s)) w)).
Proof.
  intros Hnot%includes_false.
  split; intros * Ho; unfold addComponent, bind, gets, modify, ret; simpl;
    rewrite Hnot, Ho; reflexivity.
Qed.

(** C2 (as the code behaves): a gate that is not yet registered is
    inserted into [components], but it is not put into the [gates] subset,
    although it has an [evaluate] method. *)
Theorem addComponent_gate_untracked (w : World) (component : ref) c n ins ov outs mx :
  obj w component = Some (Gate c n ins ov outs mx) ->
  component ∉ components (sim w) ->
  has_evaluate (obj w component) = true
  /\ addComponent component w =
     (Return tt, upd_sim (fun s => set_components (components s ++ [component]) s) w)
  /\ component ∈ components (sim (addComponent component w).2)
  /\ gates (sim (addComponent component w).2) = gates (sim w).
Proof.
  intros Ho Hnot%includes_false.
  assert (addComponent component w =
          (Return tt, upd_sim (fun s => set_components (components s ++ [component]) s) w)) as E.
  { unfold addComponent, bind, gets, modify, ret. simpl. rewrite Hnot, Ho.
    destruct c; reflexivity. }
  rewrite Ho. split; [reflexivity|]. split; [exact E|]. rewrite E. simpl. split.
  - apply elem_of_app. right. apply list_elem_of_singleton. reflexivity.
  - reflexivity.
Qed.

Lemma addComponent_gate_untracked_witness :
  has_evaluate (obj lone_gate_world 0) = true
  /\ addComponent 0 lone_gate_world =
     (Return tt, upd_sim (fun s => set_components (components s ++ [0]) s) lone_gate_world)
  /\ 0 ∈ components (sim (addComponent 0 lone_gate_world).2)
  /\ gates (sim (addComponent 0 lone_gate_world).2) = gates (sim lone_gate_world).
Proof.
  apply (addComponent_gate_untracked lone_gate_world 0 AndGate "And1" [] LOW [] 2%Z).
  - reflexivity.
  - simpl. apply not_elem_of_nil.
Defined.

(** ** The NOT→AND scenario *)

Lemma scenario_setup_deeper n : deeper (scenario_setup n) (scenario_setup (S n)).
Proof. unfold scenario_setup. repeat deeper_step; apply connect_deeper. Qed.

(** With OutputX wired to And1 and both gates tracked, as the scenario
    means it, InputA=LOW and InputB=HIGH do drive OutputX to HIGH. *)
Lemma not_and_circuit_reads_high :
  (propagate ;; do n <- getOutput Not1; do x <- getValue OutputX; ret (n, x))
    not_and_circuit
  = (Return (HIGH, HIGH), (propagate not_and_circuit).2).
Proof. vm_compute. reflexivity. Qed.

(** C1 (as the code behaves): at every stack depth of at least 3 the
    scenario's setup stops with a TypeError in [connect(And1, OutputX)],
    leaving OutputX without a source and no gate in [gates]; carried on
    from that state, the four readings of (Not1, OutputX) are all
    (LOW, LOW). *)
Theorem not_and_scenario (fuel : nat) :
  (3 <= fuel)%nat ->
  scenario_setup fuel scenario_start = (Throw TypeError, scenario_stopped)
  /\ (scenario_readings scenario_stopped).1
     = Return [(LOW, LOW); (LOW, LOW); (LOW, LOW); (LOW, LOW)].
Proof.
  intros Hfuel. split.
  - assert (scenario_setup 3 scenario_start = (Throw TypeError, scenario_stopped)) as E
        by (vm_compute; reflexivity).
    rewrite <- E.
    apply (deeper_le scenario_setup scenario_setup_deeper 3 fuel Hfuel).
    rewrite E. unfold no_overflow. simpl. discriminate.
  - vm_compute. reflexivity.
Qed.

Lemma not_and_scenario_witness :
  scenario_setup 5 scenario_start = (Throw TypeError, scenario_stopped)
  /\ (scenario_readings scenario_stopped).1
     = Return [(LOW, LOW); (LOW, LOW); (LOW, LOW); (LOW, LOW)].
Proof. apply (not_and_scenario 5). lia. Defined.

(** ** The propagation loop *)

Lemma propagate_loop_S n i w :
  propagate_loop (S n) i w =
  (do changed <- pass;
   if negb changed && Nat.ltb 0 i then ret tt else propagate_loop n (S i)) w.
Proof.
  simpl. unfold pass, bind, gets, ret.
  destruct (evaluate_gates _ _ _) as [[c|e] w1]; [|reflexivity].
  destruct (update_outputs w1) as [[[]|e] w2]; reflexivity.
Qed.

(** A gate pass reports a change exactly when the flag was already set or
    some gate's output differs after its own evaluation. *)
Lemma evaluate_gates_flag gs : forall c w c' w',
  evaluate_gates gs c w = (Return c', w') ->
  c' = true <->
  (c = true \/
   exists i g wi old new,
     gs !! i = Some g
     /\ (evaluate_gates (take i gs) c w).2 = wi
     /\ cached (obj wi g) = Some old
     /\ cached (obj (evaluate g wi).2 g) = Some new
     /\ new <> old).
Proof.
  induction gs as [|g gs IH]; intros c w c' w' H.
  - simpl in H. unfold ret in H. injection H as <- <-. split; [tauto|].
    intros [?|(i & g & ? & ? & ? & Hi & _)]; [assumption|]. rewrite lookup_nil in Hi. discriminate.
  - simpl in H. unfold bind at 1 in H.
    destruct (evaluate_gate g c w) as [[c1|e] w1] eqn:Eg; [|discriminate].
    specialize (IH c1 w1 c' w' H). rewrite IH. clear IH H.
    unfold evaluate_gate, bind, ret in Eg.
    destruct (getOutput g w) as [[old|e] w0] eqn:Eo; [|discriminate].
    assert (w0 = w /\ cached (obj w g) = Some old) as [-> Hold].
    { unfold getOutput, bind, gets, ret, throw in Eo.
      destruct (obj w g) as [[| |]|]; simpl in *; inversion Eo; auto. }
    destruct (evaluate g w) as [[v|e] w2] eqn:Ee; [|discriminate].
    destruct (getOutput g w2) as [[new|e] w3] eqn:En; [|discriminate].
    assert (w3 = w2 /\ cached (obj w2 g) = Some new) as [-> Hnew].
    { unfold getOutput, bind, gets, ret, throw in En.
      destruct (obj w2 g) as [[| |]|]; simpl in *; inversion En; auto. }
    injection Eg as <- <-.
    split.
    + intros [Hc|(i & g' & wi & o & n & Hi & Hw & Ho & Hn & Hne)].
      * destruct (bool_decide (new <> old)) eqn:Ed.
        -- apply bool_decide_eq_true in Ed. destruct c; [left; reflexivity|].
           right. exists O, g, w, old, new. simpl. rewrite Ee. simpl. auto.
        -- left. exact Hc.
      * right. exists (S i), g', wi, o, n. simpl. unfold bind at 1.
        unfold evaluate_gate, bind, ret. rewrite Eo, Ee, En. auto.
    + intros [Hc|(i & g' & wi & o & n & Hi & Hw & Ho & Hn & Hne)].
      * left. rewrite Hc. destruct (bool_decide _); reflexivity.
      * destruct i as [|i].
        -- simpl in Hi. injection Hi as <-. simpl in Hw. unfold ret in Hw. simpl in Hw.
           subst wi. rewrite Ee in Hn. simpl in Hn.
           assert (n = new) by congruence. assert (o = old) by congruence. subst.
           left. rewrite bool_decide_eq_true_2 by assumption. reflexivity.
        -- right. exists i, g', wi, o, n. simpl in Hi, Hw. unfold bind at 1 in Hw.
           unfold evaluate_gate, bind, ret in Hw. rewrite Eo, Ee, En in Hw. auto.
Qed.


(** ** What [propagate] leaves alone *)

Section Stable.
Context (R : World -> World -> Prop).
Context (R_refl : forall w, R w w).
Context (R_trans : forall a b c, R a b -> R b c -> R a c).

Lemma stable_ret {A} (a : A) : stable R (ret a).
Proof. intros w. apply R_refl. Qed.

Lemma stable_throw {A} e : stable R (@throw A e).
Proof. intros w. apply R_refl. Qed.

Lemma stable_gets {A} (f : World -> A) : stable R (gets f).
Proof. intros w. apply R_refl. Qed.

Lemma stable_bind {A B} (m : M A) (k : A -> M B) :
  stable R m -> (forall a, stable R (k a)) -> stable R (bind m k).
Proof.
  intros Hm Hk w. unfold bind. specialize (Hm w).
  destruct (m w) as [[a|e] w1]; simpl in *; [|exact Hm].
  eapply R_trans; [exact Hm|apply Hk].
Qed.

Lemma stable_forEach {A} (l : list A) (f : A -> M unit) :
  (forall x, stable R (f x)) -> stable R (forEach l f).
Proof.
  intros Hf. induction l as [|x l IH]; simpl.
  - apply stable_ret.
  - apply stable_bind; [apply Hf|intros _; exact IH].
Qed.
End Stable.

Lemma same_structure_refl w : same_structure w w.
Proof. repeat split. Qed.

Lemma same_structure_trans a b c :
  same_structure a b -> same_structure b c -> same_structure a c.
Proof.
  intros (S1 & C1 & L1) (S2 & C2 & L2).
  split; [congruence|]. split; [congruence|].
  intros r. rewrite L2. apply L1.
Qed.

Lemma obj_alter w f r r' :
  obj (upd_heap (alter f r) w) r' = if decide (r = r') then f <$> obj w r' else obj w r'.
Proof.
  unfold obj, upd_heap. simpl. destruct (decide (r = r')) as [<-|Hne].
  - apply lookup_alter_eq.
  - apply lookup_alter_ne. exact Hne.
Qed.

Lemma obj_set_value w r v r' :
  links (obj (upd_heap (set_value r v) w) r') = links (obj w r').
Proof.
  unfold set_value. rewrite obj_alter. destruct (decide (r = r')); [|reflexivity].
  destruct (obj w r') as [[| |]|]; reflexivity.
Qed.

Lemma set_value_same_structure r v :
  stable same_structure (modify (upd_heap (set_value r v))).
Proof. intros w. repeat split. intros r'. apply obj_set_value. Qed.

Ltac stable_with refl trans leaf :=
  repeat match goal with
  | |- stable _ (bind _ _) => apply (stable_bind _ trans); [|intros ?]
  | |- stable _ (forEach _ _) => apply (stable_forEach _ refl trans); intros ?
  | |- stable _ (ret _) => apply (stable_ret _ refl)
  | |- stable _ (throw _) => apply (stable_throw _ refl)
  | |- stable _ (gets _) => apply (stable_gets _ refl)
  | |- stable _ (match ?x with _ => _ end) => destruct x
  | |- stable _ (if ?x then _ else _) => destruct x
  | |- _ => leaf
  end.

Ltac stable_step :=
  stable_with same_structure_refl same_structure_trans
              ltac:(apply set_value_same_structure).

Lemma update_same_structure op : stable same_structure (update op).
Proof. unfold update. stable_step. Qed.

Lemma evaluate_same_structure g : stable same_structure (evaluate g).
Proof. unfold evaluate. stable_step. Qed.

Lemma getOutput_same_structure g : stable same_structure (getOutput g).
Proof. unfold getOutput. stable_step. Qed.

Lemma evaluate_gates_same_structure gs : forall c,
  stable same_structure (evaluate_gates gs c).
Proof.
  induction gs as [|g gs IH]; intros c; simpl.
  - stable_step.
  - unfold evaluate_gate. stable_step;
      first [apply getOutput_same_structure | apply evaluate_same_structure | apply IH].
Qed.

Lemma update_outputs_same_structure : stable same_structure update_outputs.
Proof. unfold update_outputs. stable_step. apply update_same_structure. Qed.

Lemma propagate_loop_same_structure n : forall i,
  stable same_structure (propagate_loop n i).
Proof.
  induction n as [|n IH]; intros i; simpl.
  - stable_step.
  - stable_step;
      first [apply evaluate_gates_same_structure
            |apply update_outputs_same_structure
            |apply IH].
Qed.

(** [propagate] changes no link field, nothing in the registry and
    nothing on the console, however it ends. *)
Lemma propagate_same_structure : stable same_structure propagate.
Proof.
  unfold propagate. stable_step;
    first [apply propagate_loop_same_structure|apply update_outputs_same_structure].
Qed.

(** ** Failing [connect] calls *)

(** The claim as worded fails: on [stale_world], [connect(OutputX, InputA)]
    is refused for want of [addOutput] on the source, and the cached value
    of OutputX goes from LOW to HIGH. *)
Lemma connect_failure_not_noop : ~ connect_failure_is_noop.
Proof.
  intros H.
  destruct (H O stale_world 1 0) as (_ & _ & Hc).
  - right. left. reflexivity.
  - specialize (Hc 1). vm_compute in Hc. discriminate.
Qed.

(** C3, amended: a [connect] call that fails validation writes one error
    to the console and changes neither the registry nor any link field.
    With an unregistered endpoint it returns at once and the store is
    untouched; with both endpoints registered and a capability missing it
    goes on to run [propagate], so cached signals are the ones [propagate]
    computes. *)
Theorem connect_failure (fuel : nat) (w : World) (source target : ref) :
  unregistered w source target \/ incapable w source target ->
  let w' := (connect fuel source target w).2 in
  (exists e, console w' = console w ++ [e])
  /\ sim w' = sim w
  /\ (forall r, links (obj w' r) = links (obj w r))
  /\ (unregistered w source target ->
      connect fuel source target w = (Return tt, write_console ConnectNotAdded w))
  /\ (~ unregistered w source target ->
      connect fuel source target w = propagate (write_console ConnectInvalid w)).
Proof.
  intros Hfail.
  assert (forall e, let w1 := (propagate (write_console e w)).2 in
            (exists e', console w1 = console w ++ [e'])
            /\ sim w1 = sim w /\ (forall r, links (obj w1 r) = links (obj w r))) as Hprop.
  { intros e. destruct (propagate_same_structure (write_console e w)) as (S1 & C1 & L1).
    simpl. split; [exists e; exact C1|]. split; [exact S1|exact L1]. }
  destruct (decide (source ∈ components (sim w))) as [Hs|Hs];
    [destruct (decide (target ∈ components (sim w))) as [Ht|Ht]|].
  - (* both registered: a capability is missing *)
    assert (~ unregistered w source target) as Hreg by (intros [?|?]; contradiction).
    destruct Hfail as [?|Hcap]; [contradiction|].
    assert (connect fuel source target w = propagate (write_console ConnectInvalid w)) as E.
    { unfold connect, bind at 1, gets. simpl.
      apply includes_true in Hs. apply includes_true in Ht. rewrite Hs, Ht. simpl.
      assert (has_addOutput (obj w source) && has_addInput (obj w target) = false) as ->
          by (destruct Hcap as [-> | ->]; [reflexivity|apply andb_false_r]).
      reflexivity. }
    simpl. rewrite E. destruct (Hprop ConnectInvalid) as (H1 & H2 & H3).
    split; [exact H1|]. split; [exact H2|]. split; [exact H3|].
    split; [intros; contradiction|intros; reflexivity].
  - assert (connect fuel source target w = (Return tt, write_console ConnectNotAdded w)) as E.
    { unfold connect, bind, gets. simpl. apply includes_false in Ht. rewrite Ht.
      rewrite orb_true_r. reflexivity. }
    simpl. rewrite E. simpl. split; [eexists; reflexivity|].
    split; [reflexivity|]. split; [reflexivity|]. split; [reflexivity|].
    intros Hn. exfalso. apply Hn. right. exact Ht.
  - assert (connect fuel source target w = (Return tt, write_console ConnectNotAdded w)) as E.
    { unfold connect, bind, gets. simpl. apply includes_false in Hs. rewrite Hs.
      reflexivity. }
    simpl. rewrite E. simpl. split; [eexists; reflexivity|].
    split; [reflexivity|]. split; [reflexivity|]. split; [reflexivity|].
    intros Hn. exfalso. apply Hn. left. exact Hs.
Qed.

Lemma connect_failure_witness :
  let w' := (connect 3 1 0 stale_world).2 in
  (exists e, console w' = console stale_world ++ [e])
  /\ sim w' = sim stale_world
  /\ (forall r, links (obj w' r) = links (obj stale_world r))
  /\ (unregistered stale_world 1 0 ->
      connect 3 1 0 stale_world = (Return tt, write_console ConnectNotAdded stale_world))
  /\ (~ unregistered stale_world 1 0 ->
      connect 3 1 0 stale_world = propagate (write_console ConnectInvalid stale_world)).
Proof.
  apply (connect_failure 3 stale_world 1 0).
  right. left. reflexivity.
Defined.

(** ** Unlinking never returns

    [removeOutput] calls [removeInput] on the destination, and
    [removeInput] calls [removeOutput] on the source, with no test that
    would stop the exchange. *)

Lemma tag_with_outputs l o : tag_of (with_outputs l <$> o) = tag_of o.
Proof. destruct o as [[| |]|]; reflexivity. Qed.
Lemma tag_with_inputs l o : tag_of (with_inputs l <$> o) = tag_of o.
Proof. destruct o as [[| |]|]; reflexivity. Qed.
Lemma tag_with_input i o : tag_of (with_input i <$> o) = tag_of o.
Proof. destruct o as [[| |]|]; reflexivity. Qed.
Lemma tag_with_value v o : tag_of (with_value v <$> o) = tag_of o.
Proof. destruct o as [[| |]|]; reflexivity. Qed.

Lemma has_removeOutput_tag o : has_removeOutput o = true <-> tag_of o = TInput \/ tag_of o = TGate.
Proof. destruct o as [[| |]|]; simpl; intuition discriminate. Qed.
Lemma has_removeInput_tag o : has_removeInput o = true <-> tag_of o = TOutput \/ tag_of o = TGate.
Proof. destruct o as [[| |]|]; simpl; intuition discriminate. Qed.
Lemma has_evaluate_tag o : has_evaluate o = true <-> tag_of o = TGate.
Proof. destruct o as [[| |]|]; simpl; intuition discriminate. Qed.

Lemma touched_refl rs w : touched rs w w.
Proof. repeat split. Qed.

Lemma touched_trans rs a b c : touched rs a b -> touched rs b c -> touched rs a c.
Proof.
  intros (S1 & C1 & T1 & F1) (S2 & C2 & T2 & F2).
  split; [congruence|]. split; [congruence|]. split.
  - intros r. rewrite T2. apply T1.
  - intros r Hr. rewrite F2 by assumption. apply F1. assumption.
Qed.

Lemma touched_alter rs w f r :
  r ∈ rs -> (forall o, tag_of (f <$> o) = tag_of o) ->
  touched rs w (upd_heap (alter f r) w).
Proof.
  intros Hr Hf. split; [reflexivity|]. split; [reflexivity|]. split.
  - intros r'. rewrite obj_alter. destruct (decide (r = r')); [apply Hf|reflexivity].
  - intros r' Hr'. rewrite obj_alter. destruct (decide (r = r')) as [<-|]; [contradiction|reflexivity].
Qed.

(** A gate and a source that has [removeOutput]: neither
    [source.removeOutput(gate)] nor [gate.removeInput(source)] returns, at
    any stack depth, and they write to no object but these two. *)
Lemma gate_unlink_overflows (n : nat) : forall w g s,
  has_evaluate (obj w g) = true -> has_removeOutput (obj w s) = true ->
  (exists w', removeOutput n s g w = (Throw RangeError, w') /\ touched [g; s] w w')
  /\ (exists w', removeInput n g s w = (Throw RangeError, w') /\ touched [g; s] w w').
Proof.
  induction n as [|n IH]; intros w g s Hg Hs.
  - split; exists w; (split; [reflexivity|apply touched_refl]).
  - split.
    + rewrite removeOutput_S. unfold bind at 1, gets.
      destruct (outputs_of (obj w s)) as [outs|] eqn:Eo;
        [|destruct (obj w s) as [[| |]|]; discriminate].
      unfold bind at 1, modify. unfold bind at 1, gets.
      set (w1 := upd_heap (set_outputs s (without g outs)) w).
      assert (touched [g; s] w w1) as T1.
      { apply touched_alter; [repeat constructor|apply tag_with_outputs]. }
      assert (has_evaluate (obj w1 g) = true) as Hg1.
      { apply has_evaluate_tag. destruct T1 as (_ & _ & T & _). rewrite T.
        apply has_evaluate_tag. exact Hg. }
      assert (has_removeOutput (obj w1 s) = true) as Hs1.
      { apply has_removeOutput_tag. destruct T1 as (_ & _ & T & _). rewrite T.
        apply has_removeOutput_tag. exact Hs. }
      assert (has_removeInput (obj w1 g) = true) as ->.
      { apply has_removeInput_tag. right. apply has_evaluate_tag. exact Hg1. }
      pose proof (IH w1 g s Hg1 Hs1) as [_ (w' & E & T2)].
      exists w'. split; [exact E|]. eapply touched_trans; eassumption.
    + rewrite removeInput_S. unfold bind at 1, gets.
      destruct (obj w g) as [[| |c nm ins ov outs mx]|] eqn:Eg; try discriminate.
      unfold bind at 1, modify. unfold bind at 1, gets.
      set (w1 := upd_heap (set_inputs g (without s ins)) w).
      assert (touched [g; s] w w1) as T1.
      { apply touched_alter; [repeat constructor|apply tag_with_inputs]. }
      assert (has_evaluate (obj w1 g) = true) as Hg1.
      { apply has_evaluate_tag. destruct T1 as (_ & _ & T & _). rewrite T, Eg. reflexivity. }
      assert (has_removeOutput (obj w1 s) = true) as Hs1.
      { apply has_removeOutput_tag. destruct T1 as (_ & _ & T & _). rewrite T.
        apply has_removeOutput_tag. exact Hs. }
      rewrite Hs1.
      pose proof (IH w1 g s Hg1 Hs1) as [(w' & E & T2) _].
      exists w'. split; [exact E|]. eapply touched_trans; eassumption.
Qed.

(** An output point whose slot holds a source that has [removeOutput]:
    neither [source.removeOutput(op)] nor [op.removeInput()] returns, at
    any stack depth; they write to no object but the source, and the slot
    is never cleared. *)
Lemma output_unlink_overflows (n : nat) : forall w op i,
  input_of (obj w op) = Some i -> has_removeOutput (obj w i) = true ->
  (exists w', removeOutput n i op w = (Throw RangeError, w') /\ touched [i] w w')
  /\ (forall x, exists w', removeInput n op x w = (Throw RangeError, w') /\ touched [i] w w').
Proof.
  induction n as [|n IH]; intros w op i Hop Hi.
  - split; [|intros x]; exists w; (split; [reflexivity|apply touched_refl]).
  - assert (op <> i) as Hne.
    { intros ->. destruct (obj w i) as [[| |]|]; discriminate. }
    split.
    + rewrite removeOutput_S. unfold bind at 1, gets.
      destruct (outputs_of (obj w i)) as [outs|] eqn:Eo;
        [|destruct (obj w i) as [[| |]|]; discriminate].
      unfold bind at 1, modify. unfold bind at 1, gets.
      set (w1 := upd_heap (set_outputs i (without op outs)) w).
      assert (touched [i] w w1) as T1.
      { apply touched_alter; [repeat constructor|apply tag_with_outputs]. }
      assert (obj w1 op = obj w op) as Eop.
      { destruct T1 as (_ & _ & _ & F). apply F.
        intros Hin. apply list_elem_of_singleton in Hin. contradiction. }
      assert (has_removeOutput (obj w1 i) = true) as Hi1.
      { apply has_removeOutput_tag. destruct T1 as (_ & _ & T & _). rewrite T.
        apply has_removeOutput_tag. exact Hi. }
      assert (has_removeInput (obj w1 op) = true) as ->.
      { rewrite Eop. destruct (obj w op) as [[| |]|]; try discriminate. reflexivity. }
      assert (input_of (obj w1 op) = Some i) as Hop1 by (rewrite Eop; exact Hop).
      pose proof (IH w1 op i Hop1 Hi1) as [_ Hx]. pose proof (Hx i) as (w' & E & T2).
      exists w'. split; [exact E|]. eapply touched_trans; eassumption.
    + intros x. rewrite removeInput_S. unfold bind at 1, gets.
      destruct (obj w op) as [[|nm inp v|]|] eqn:Eg; try discriminate.
      simpl in Hop. subst inp.
      unfold bind at 1. unfold bind at 1, gets. rewrite Hi.
      destruct (IH w op i) as [(w' & E & T2) _]; [rewrite Eg; reflexivity|exact Hi|].
      rewrite E. exists w'. split; [reflexivity|exact T2].
Qed.

(** ** Capacity conflicts *)

(** A gate at capacity refuses a further input: an error is written and
    nothing else changes. *)
Lemma gate_addInput_at_capacity n w g c nm ins ov outs mx s :
  obj w g = Some (Gate c nm ins ov outs mx) ->
  (mx <= Z.of_nat (length ins))%Z ->
  addInput (S n) g s w = (Return tt, write_console (MaxInputsReached nm mx) w).
Proof.
  intros Hg Hfull. rewrite addInput_S. unfold bind, gets. rewrite Hg.
  assert (Z.ltb (Z.of_nat (length ins)) mx = false) as -> by (apply Z.ltb_ge; exact Hfull).
  reflexivity.
Qed.

(** C7 (as the code behaves): when an output point's slot holds a source
    that has [removeOutput] (an input point or a gate), [addInput] with a
    different source writes the warning and then never returns: at every
    stack depth it ends in a RangeError, and the slot still holds the old
    source. *)
Theorem output_replace_overflows (fuel : nat) (w : World) (op : ref) nm old v (source : ref) :
  obj w op = Some (OutputPoint nm (Some old) v) ->
  old <> source ->
  has_removeOutput (obj w old) = true ->
  exists w',
    addInput fuel op source w = (Throw RangeError, w')
    /\ input_of (obj w' op) = Some old
    /\ ((0 < fuel)%nat ->
        console w' = console w ++ [ReplacingConnection nm (name_of (obj w old))]).
Proof.
  intros Hop Hne Hold. destruct fuel as [|n].
  - exists w. split; [reflexivity|]. split; [rewrite Hop; reflexivity|lia].
  - rewrite addInput_S. unfold bind at 1, gets. rewrite Hop.
    unfold bind at 1. rewrite bool_decide_eq_true_2 by exact Hne.
    unfold bind at 1, gets. unfold bind at 1, modify. rewrite Hold.
    set (w1 := write_console (ReplacingConnection nm (name_of (obj w old))) w).
    destruct (output_unlink_overflows n w1 op old) as [(w' & E & T) _].
    { unfold w1, obj. simpl. fold (obj w op). rewrite Hop. reflexivity. }
    { exact Hold. }
    rewrite E. exists w'. split; [reflexivity|].
    destruct T as (_ & C & _ & F). split.
    + rewrite F.
      * unfold w1, obj. simpl. fold (obj w op). rewrite Hop. reflexivity.
      * intros Hin. apply list_elem_of_singleton in Hin. subst old.
        rewrite Hop in Hold. discriminate.
    + intros _. rewrite C. reflexivity.
Qed.

Lemma output_replace_overflows_witness :
  exists w',
    addInput 1000 2 1 replace_world = (Throw RangeError, w')
    /\ input_of (obj w' 2) = Some 0
    /\ ((0 < 1000)%nat ->
        console w' = console replace_world
                     ++ [ReplacingConnection "TestOutput" (name_of (obj replace_world 0))]).
Proof.
  apply (output_replace_overflows 1000 replace_world 2 "TestOutput" 0 LOW 1).
  - reflexivity.
  - discriminate.
  - reflexivity.
Defined.

(** ** Removal *)

Lemma and_circuit_setup_deeper n : deeper (and_circuit_setup n) (and_circuit_setup (S n)).
Proof. unfold and_circuit_setup. repeat deeper_step; apply connect_deeper. Qed.

(** [and_circuit] is what the public operations build, at any stack depth
    of at least 3, without any exception. *)
Lemma and_circuit_built fuel :
  (3 <= fuel)%nat -> and_circuit_setup fuel and_circuit_start = (Return tt, and_circuit).
Proof.
  intros Hfuel.
  assert (and_circuit_setup 3 and_circuit_start = (Return tt, and_circuit)) as E
      by (vm_compute; reflexivity).
  rewrite <- E.
  apply (deeper_le and_circuit_setup and_circuit_setup_deeper 3 fuel Hfuel).
  rewrite E. unfold no_overflow. simpl. discriminate.
Qed.

(** Removing a gate that has an input with [removeOutput] never returns:
    at every stack depth the call ends in a RangeError while detaching the
    first input, having written only to the gate and to that input. *)
Lemma removeComponent_gate_overflows fuel w g c nm s rest ov outs mx :
  obj w g = Some (Gate c nm (s :: rest) ov outs mx) ->
  has_removeOutput (obj w s) = true ->
  exists w',
    removeComponent fuel g w = (Throw RangeError, w')
    /\ components (sim w') = without g (components (sim w))
    /\ (forall r, r ∉ [g; s] -> obj w' r = obj w r).
Proof.
  intros Hg Hs. unfold removeComponent.
  rewrite bind_modify, bind_gets, obj_upd_sim, Hg.
  assert (String.eqb (constructor_name (Some (Gate c nm (s :: rest) ov outs mx)))
                     "InputPoint" = false) as -> by (destruct c; reflexivity).
  assert (String.eqb (constructor_name (Some (Gate c nm (s :: rest) ov outs mx)))
                     "OutputPoint" = false) as -> by (destruct c; reflexivity).
  cbn [has_evaluate]. rewrite bind_modify.
  cbn [inputs_of default from_option forEach].
  match goal with |- context [bind _ _ ?w] => set (w2 := w) end.
  destruct (gate_unlink_overflows fuel w2 g s) as [(w' & E & T) _].
  { unfold w2. rewrite !obj_upd_sim, Hg. reflexivity. }
  { exact Hs. }
  exists w'. split.
  - apply bind_throws, bind_throws. rewrite bind_gets.
    assert (has_removeOutput (obj w2 s) = true) as -> by exact Hs. exact E.
  - destruct T as (Sm & _ & _ & F). split.
    + rewrite Sm. reflexivity.
    + intros r Hr. rewrite F by exact Hr. reflexivity.
Qed.

(** C8 (as the code behaves): on [and_circuit], [removeComponent(And1)]
    ends in a RangeError at every stack depth; And1 is then out of
    [components], yet the registered InputB still lists And1 among its
    outputs.  And on the state the NOT→AND setup stops in,
    [removeComponent(OutputX)] returns normally while the registered And1
    still lists OutputX among its outputs. *)
Theorem remove_leaves_dangling (fuel : nat) :
  (exists w',
      removeComponent fuel And1 and_circuit = (Throw RangeError, w')
      /\ (And1 ∉ components (sim w'))
      /\ InputB ∈ components (sim w')
      /\ outputs_of (obj w' InputB) = Some [And1])
  /\ (exists w',
      removeComponent fuel OutputX scenario_stopped = (Return tt, w')
      /\ (OutputX ∉ components (sim w'))
      /\ And1 ∈ components (sim w')
      /\ outputs_of (obj w' And1) = Some [OutputX]).
Proof.
  split.
  - destruct (removeComponent_gate_overflows fuel and_circuit And1 AndGate "And1"
                InputA [InputB] LOW [] 2%Z eq_refl eq_refl) as (w' & E & Hc & F).
    exists w'. split; [exact E|]. rewrite Hc, F.
    + split; [vm_compute; intros H; repeat (inversion H as [|? ? ? H']; clear H; rename H' into H)|].
      split; [vm_compute; repeat constructor|reflexivity].
    + vm_compute. intros H.
      repeat (inversion H as [|? ? ? H']; clear H; rename H' into H).
  - eexists. split; [vm_compute; reflexivity|].
    split; [vm_compute; intros H; repeat (inversion H as [|? ? ? H']; clear H; rename H' into H)|].
    split; [vm_compute; repeat constructor|vm_compute; reflexivity].
Qed.

(** ** Links stay free of duplicates *)

Section Keeps.
Context (I : World -> Prop).

Lemma keeps_ret {A} (a : A) : keeps I (ret a).
Proof. intros w Hw. exact Hw. Qed.

Lemma keeps_throw {A} e : keeps I (@throw A e).
Proof. intros w Hw. exact Hw. Qed.

Lemma keeps_gets {A} (f : World -> A) : keeps I (gets f).
Proof. intros w Hw. exact Hw. Qed.

Lemma keeps_bind {A B} (m : M A) (k : A -> M B) :
  keeps I m -> (forall a, keeps I (k a)) -> keeps I (bind m k).
Proof.
  intros Hm Hk w Hw. unfold bind. specialize (Hm w Hw).
  destruct (m w) as [[a|e] w1]; simpl in *; [|exact Hm].
  apply Hk. exact Hm.
Qed.

Lemma keeps_forEach {A} (l : list A) (f : A -> M unit) :
  (forall x, keeps I (f x)) -> keeps I (forEach l f).
Proof.
  intros Hf. induction l as [|x l IH]; simpl.
  - apply keeps_ret.
  - apply keeps_bind; [apply Hf|intros _; exact IH].
Qed.
End Keeps.

Lemma nodup_without x (l : list ref) : NoDup l -> NoDup (without x l).
Proof. apply NoDup_filter. Qed.

Lemma nodup_push x (l : list ref) : NoDup l -> includes l x = false -> NoDup (l ++ [x]).
Proof.
  intros Hl Hx%includes_false. apply NoDup_app. split; [exact Hl|]. split.
  - intros y Hy Hin. apply list_elem_of_singleton in Hin. subst. contradiction.
  - apply NoDup_singleton.
Qed.

Lemma nodup_inputs w r ins :
  no_duplicate_links w -> inputs_of (obj w r) = Some ins -> NoDup ins.
Proof. intros Hw. apply (Hw r). Qed.

Lemma nodup_outputs w r outs :
  no_duplicate_links w -> outputs_of (obj w r) = Some outs -> NoDup outs.
Proof. intros Hw. apply (Hw r). Qed.

Lemma nodup_set_outputs w r l :
  no_duplicate_links w -> NoDup l -> no_duplicate_links (upd_heap (set_outputs r l) w).
Proof.
  intros Hw Hl r'. unfold set_outputs. rewrite obj_alter.
  destruct (decide (r = r')) as [<-|]; [|apply Hw].
  destruct (Hw r) as [Hi Ho]. destruct (obj w r) as [[| |]|]; simpl in *; split;
    intros ? Heq;
    first [discriminate
          |injection Heq as <-;
           first [exact Hl | apply Hi; reflexivity | apply Ho; reflexivity]].
Qed.

Lemma nodup_set_inputs w r l :
  no_duplicate_links w -> NoDup l -> no_duplicate_links (upd_heap (set_inputs r l) w).
Proof.
  intros Hw Hl r'. unfold set_inputs. rewrite obj_alter.
  destruct (decide (r = r')) as [<-|]; [|apply Hw].
  destruct (Hw r) as [Hi Ho]. destruct (obj w r) as [[| |]|]; simpl in *; split;
    intros ? Heq;
    first [discriminate
          |injection Heq as <-;
           first [exact Hl | apply Hi; reflexivity | apply Ho; reflexivity]].
Qed.

Lemma nodup_same_arrays w w' :
  (forall r, inputs_of (obj w' r) = inputs_of (obj w r)
             /\ outputs_of (obj w' r) = outputs_of (obj w r)) ->
  no_duplicate_links w -> no_duplicate_links w'.
Proof. intros Hl Hw r. destruct (Hl r) as [-> ->]. apply Hw. Qed.

Lemma nodup_same_links w w' :
  (forall r, links (obj w' r) = links (obj w r)) ->
  no_duplicate_links w -> no_duplicate_links w'.
Proof.
  intros Hl. apply nodup_same_arrays. intros r. specialize (Hl r).
  unfold links in Hl. injection Hl as -> _ ->. split; reflexivity.
Qed.

Lemma nodup_set_input r i : keeps no_duplicate_links (modify (upd_heap (set_input r i))).
Proof.
  intros w. apply nodup_same_arrays. intros r'. simpl. unfold set_input.
  rewrite obj_alter. destruct (decide (r = r')); [|split; reflexivity].
  destruct (obj w r') as [[| |]|]; split; reflexivity.
Qed.

Lemma nodup_set_value r v : keeps no_duplicate_links (modify (upd_heap (set_value r v))).
Proof. intros w. apply nodup_same_links. intros r'. apply obj_set_value. Qed.

Lemma nodup_write_console e : keeps no_duplicate_links (modify (write_console e)).
Proof. intros w Hw. exact Hw. Qed.

Lemma nodup_upd_sim f : keeps no_duplicate_links (modify (upd_sim f)).
Proof. intros w Hw. exact Hw. Qed.

Ltac keeps_with leaf :=
  repeat match goal with
  | |- keeps _ (bind _ _) => apply keeps_bind; [|intros ?]
  | |- keeps _ (forEach _ _) => apply keeps_forEach; intros ?
  | |- keeps _ (ret _) => apply keeps_ret
  | |- keeps _ (throw _) => apply keeps_throw
  | |- keeps _ (gets _) => apply keeps_gets
  | |- keeps _ (match ?x with _ => _ end) => destruct x
  | |- keeps _ (if ?x then _ else _) => destruct x
  | |- _ => leaf
  end.

Ltac nodup_leaf :=
  match goal with
  | |- keeps _ (modify (upd_heap (set_value _ _))) => apply nodup_set_value
  | |- keeps _ (modify (upd_heap (set_input _ _))) => apply nodup_set_input
  | |- keeps _ (modify (write_console _)) => apply nodup_write_console
  | |- keeps _ (modify (upd_sim _)) => apply nodup_upd_sim
  | |- keeps _ (modify (upd_heap (set_outputs _ []))) =>
      intros ? ?; apply nodup_set_outputs; [assumption|apply NoDup_nil_2]
  | |- keeps _ (modify (upd_heap (set_inputs _ []))) =>
      intros ? ?; apply nodup_set_inputs; [assumption|apply NoDup_nil_2]
  end.

Ltac keeps_step := keeps_with ltac:(idtac; nodup_leaf).

Lemma update_keeps_nodup op : keeps no_duplicate_links (update op).
Proof. unfold update. keeps_step. Qed.

Lemma propagate_keeps_nodup : keeps no_duplicate_links propagate.
Proof.
  intros w. apply nodup_same_links.
  destruct (propagate_same_structure w) as (_ & _ & L). exact L.
Qed.

Lemma remove_keeps_nodup (n : nat) :
  (forall this d, keeps no_duplicate_links (removeOutput n this d))
  /\ (forall this s, keeps no_duplicate_links (removeInput n this s)).
Proof.
  induction n as [|n [IHo IHi]].
  - split; intros; apply keeps_throw.
  - split; intros this x w Hw.
    + rewrite removeOutput_S, bind_gets.
      destruct (outputs_of (obj w this)) as [outs|] eqn:Eo; [|exact Hw].
      rewrite bind_modify, bind_gets.
      assert (no_duplicate_links (upd_heap (set_outputs this (without x outs)) w)) as H1.
      { apply nodup_set_outputs; [exact Hw|].
        apply nodup_without. eapply nodup_outputs; eassumption. }
      destruct (has_removeInput _); [apply IHi|]; exact H1.
    + rewrite removeInput_S, bind_gets.
      destruct (obj w this) as [[|nm inp v|c nm ins ov outs mx]|] eqn:Eo; try exact Hw.
      * clear Eo. revert w Hw.
        change (keeps no_duplicate_links
                  (match inp with
                   | Some i =>
                       do io <- gets (fun w => obj w i);
                       if has_removeOutput io then removeOutput n i this else ret tt
                   | None => ret tt
                   end ;;
                   modify (upd_heap (set_input this None)) ;;
                   modify (upd_heap (set_value this LOW)))) in |- *.
        keeps_step. apply IHo.
      * rewrite bind_modify, bind_gets.
        assert (no_duplicate_links (upd_heap (set_inputs this (without x ins)) w)) as H1.
        { apply nodup_set_inputs; [exact Hw|].
          apply nodup_without. apply (nodup_inputs w this); [exact Hw|].
          rewrite Eo. reflexivity. }
        destruct (has_removeOutput _); [apply IHo|]; exact H1.
Qed.

Lemma keeps_at {A} (I : World -> Prop) (m : M A) w : keeps I m -> I w -> I (m w).2.
Proof. intros Hm. apply Hm. Qed.

Lemma add_keeps_nodup (n : nat) :
  (forall this d, keeps no_duplicate_links (addOutput n this d))
  /\ (forall this s, keeps no_duplicate_links (addInput n this s)).
Proof.
  induction n as [|n [IHo IHi]].
  - split; intros; apply keeps_throw.
  - split; intros this x w Hw.
    + rewrite addOutput_S, bind_gets.
      destruct (outputs_of (obj w this)) as [outs|] eqn:Eo; [|exact Hw].
      destruct (includes outs x) eqn:Ei; [exact Hw|].
      rewrite bind_modify, bind_gets.
      assert (no_duplicate_links (upd_heap (set_outputs this (outs ++ [x])) w)) as H1.
      { apply nodup_set_outputs; [exact Hw|].
        apply nodup_push; [|exact Ei]. eapply nodup_outputs; eassumption. }
      destruct (has_addInput _); [|exact H1].
      destruct (inputs_of _) as [ins|]; [|exact H1].
      destruct (includes ins this); [exact H1|apply IHi; exact H1].
    + rewrite addInput_S, bind_gets.
      destruct (obj w this) as [[|nm inp v|c nm ins ov outs mx]|] eqn:Eo; try exact Hw.
      * apply keeps_at; [|exact Hw]. keeps_step;
          first [apply remove_keeps_nodup | apply IHo | apply update_keeps_nodup].
      * destruct (Z.ltb _ _); [|exact Hw].
        destruct (includes ins x) eqn:Ei; [exact Hw|].
        rewrite bind_modify, bind_gets.
        assert (no_duplicate_links (upd_heap (set_inputs this (ins ++ [x])) w)) as H1.
        { apply nodup_set_inputs; [exact Hw|].
          apply nodup_push; [|exact Ei]. apply (nodup_inputs w this); [exact Hw|].
          rewrite Eo. reflexivity. }
        destruct (has_addOutput _); [apply IHo|]; exact H1.
Qed.

(** Every public operation, at every stack depth and however it ends,
    leaves the links free of duplicates. *)
Lemma perform_keeps_nodup fuel o : keeps no_duplicate_links (perform fuel o).
Proof.
  destruct o; simpl.
  - unfold addComponent. keeps_step.
  - unfold removeComponent. keeps_step; apply remove_keeps_nodup.
  - unfold connect. keeps_step;
      first [apply add_keeps_nodup | apply propagate_keeps_nodup].
  - unfold disconnect. keeps_step;
      first [apply remove_keeps_nodup | apply propagate_keeps_nodup].
  - apply propagate_keeps_nodup.
  - apply add_keeps_nodup.
  - apply add_keeps_nodup.
  - apply remove_keeps_nodup.
  - apply remove_keeps_nodup.
  - unfold setValue. keeps_step.
  - unfold toggle. keeps_step.
  - unfold evaluate. keeps_step.
  - apply update_keeps_nodup.
Qed.

Lemma run_keeps_nodup script : forall w,
  no_duplicate_links w -> no_duplicate_links (run script w).
Proof.
  induction script as [|[fuel o] script IH]; intros w Hw; simpl.
  - exact Hw.
  - apply IH. apply perform_keeps_nodup. exact Hw.
Qed.

(** Linking what is already linked changes no link field. *)
Lemma connect_linked fuel w a b :
  linked w a b -> forall r, links (obj (connect fuel a b w).2 r) = links (obj w r).
Proof.
  intros [(outs & Ho & Hb) _] r. unfold connect. rewrite bind_gets.
  unfold id.
  destruct (negb (includes (components (sim w)) a) || negb (includes (components (sim w)) b)).
  { reflexivity. }
  assert (has_addOutput (obj w a) = true) as ->
      by (destruct (obj w a) as [[| |]|]; try discriminate; reflexivity).
  destruct (has_addInput (obj w b)); simpl.
  - destruct fuel as [|n].
    + reflexivity.
    + erewrite bind_returns.
      * destruct (propagate_same_structure w) as (_ & _ & L). apply L.
      * rewrite addOutput_S, bind_gets, Ho.
        apply includes_true in Hb. rewrite Hb. reflexivity.
  - rewrite bind_modify.
    destruct (propagate_same_structure (write_console ConnectInvalid w)) as (_ & _ & L).
    rewrite L. reflexivity.
Qed.

Lemma store_duplicate_free (l : list (ref * node)) s c :
  forallb (fun p => node_duplicate_free p.2) l = true ->
  no_duplicate_links (mkWorld (store l) s c).
Proof.
  intros Hl r. unfold obj, store. simpl.
  induction l as [|[r0 n0] l IH]; simpl in *.
  - rewrite lookup_empty. split; intros ? ?; discriminate.
  - apply andb_true_iff in Hl as [Hn Hl].
    destruct (decide (r0 = r)) as [<-|Hne].
    + rewrite lookup_insert_eq. clear IH.
      destruct n0; simpl in *; split; intros ? Heq; try discriminate;
        injection Heq as <-.
      * apply bool_decide_eq_true in Hn. exact Hn.
      * apply andb_true_iff in Hn as [Hn _]. apply bool_decide_eq_true in Hn. exact Hn.
      * apply andb_true_iff in Hn as [_ Hn]. apply bool_decide_eq_true in Hn. exact Hn.
    + rewrite lookup_insert_ne by exact Hne. apply IH. exact Hl.
Qed.

(** On registered endpoints that are already linked, [connect] adds
    nothing and is just the propagation that follows. *)
Lemma connect_linked_propagates fuel w a b :
  linked w a b ->
  a ∈ components (sim w) -> b ∈ components (sim w) -> (1 <= fuel)%nat ->
  connect fuel a b w = propagate w.
Proof.
  intros [(outs & Ho & Hb) Hback] Ha%includes_true Hc%includes_true Hfuel.
  unfold connect. rewrite bind_gets. unfold id. rewrite Ha, Hc. simpl.
  assert (has_addOutput (obj w a) = true) as ->
      by (destruct (obj w a) as [[| |]|]; try discriminate; reflexivity).
  assert (has_addInput (obj w b) = true) as ->.
  { destruct Hback as [(ins & Hi & _)|Hi];
      destruct (obj w b) as [[| |]|]; try discriminate; reflexivity. }
  simpl. destruct fuel as [|n]; [lia|].
  erewrite bind_returns; [reflexivity|].
  rewrite addOutput_S, bind_gets, Ho.
  apply includes_true in Hb. rewrite Hb. reflexivity.
Qed.

(** C10: from a state whose [inputs] and [outputs] arrays hold no
    duplicate, no script of public operations, at whatever stack depths
    and whether or not some of them throw, yields a duplicate; and
    [connect(a, b)] on a pair that is already linked leaves every node's
    link fields as they were: on registered endpoints it does nothing but
    propagate. *)
Theorem links_stay_duplicate_free (w : World) :
  no_duplicate_links w ->
  (forall script, no_duplicate_links (run script w))
  /\ (forall fuel a b, linked w a b ->
        (forall r, links (obj (connect fuel a b w).2 r) = links (obj w r))
        /\ (a ∈ components (sim w) -> b ∈ components (sim w) -> (1 <= fuel)%nat ->
            connect fuel a b w = propagate w)).
Proof.
  intros Hw. split.
  - intros script. apply run_keeps_nodup. exact Hw.
  - intros fuel a b Hl. split.
    + apply connect_linked. exact Hl.
    + apply connect_linked_propagates. exact Hl.
Qed.

Lemma links_stay_duplicate_free_witness :
  (forall script, no_duplicate_links (run script and_circuit))
  /\ (forall fuel a b, linked and_circuit a b ->
        (forall r, links (obj (connect fuel a b and_circuit).2 r) = links (obj and_circuit r))
        /\ (a ∈ components (sim and_circuit) -> b ∈ components (sim and_circuit) ->
            (1 <= fuel)%nat -> connect fuel a b and_circuit = propagate and_circuit)).
Proof.
  apply (links_stay_duplicate_free and_circuit).
  apply store_duplicate_free. vm_compute. reflexivity.
Defined.

(** ** Propagating twice *)

(** The claim as worded fails on a circuit with feedback: on [oscillator]
    the NOT gate is evaluated three times by each [propagate], so the two
    snapshots show it at HIGH and then at LOW. *)
Lemma propagate_not_idempotent : ~ propagate_idempotent.
Proof.
  intros H. specialize (H oscillator). vm_compute in H. discriminate.
Qed.

(** It also fails without any gate, on a chain of output points: two
    refresh rounds per [propagate] do not reach the end of a chain of three. *)
Lemma sink_chain_not_idempotent :
  (getCircuitState (propagate (propagate sink_chain).2).2).1
  <> (getCircuitState (propagate sink_chain).2).1.
Proof. vm_compute. discriminate. Qed.

(** *** Worlds up to cached signals *)

Lemma same_wiring_refl w : same_wiring w w.
Proof. repeat split. Qed.

Lemma same_wiring_trans a b c : same_wiring a b -> same_wiring b c -> same_wiring a c.
Proof.
  intros (S1 & C1 & W1) (S2 & C2 & W2).
  split; [congruence|]. split; [congruence|]. intros r. rewrite W2. apply W1.
Qed.

Lemma same_wiring_sym a b : same_wiring a b -> same_wiring b a.
Proof. intros (S1 & C1 & W1). split; [auto|]. split; [auto|]. intros r. symmetry. apply W1. Qed.

Lemma wiring_inputs o : inputs_of (wiring o) = inputs_of o.
Proof. destruct o as [[| |]|]; reflexivity. Qed.
Lemma wiring_input o : input_of (wiring o) = input_of o.
Proof. destruct o as [[| |]|]; reflexivity. Qed.
Lemma wiring_tag o : tag_of (wiring o) = tag_of o.
Proof. destruct o as [[| |]|]; reflexivity. Qed.
Lemma wiring_evaluable o : evaluable (wiring o) <-> evaluable o.
Proof. destruct o as [[| |]|]; reflexivity. Qed.

Lemma same_wiring_inputs w w' r : same_wiring w w' -> inputs_of (obj w' r) = inputs_of (obj w r).
Proof. intros (_ & _ & W). rewrite <- wiring_inputs, W. apply wiring_inputs. Qed.
Lemma same_wiring_input w w' r : same_wiring w w' -> input_of (obj w' r) = input_of (obj w r).
Proof. intros (_ & _ & W). rewrite <- wiring_input, W. apply wiring_input. Qed.
Lemma same_wiring_tag w w' r : same_wiring w w' -> tag_of (obj w' r) = tag_of (obj w r).
Proof. intros (_ & _ & W). rewrite <- wiring_tag, W. apply wiring_tag. Qed.
Lemma same_wiring_evaluable w w' r : same_wiring w w' -> evaluable (obj w' r) <-> evaluable (obj w r).
Proof. intros (_ & _ & W). rewrite <- wiring_evaluable, W. apply wiring_evaluable. Qed.

Lemma feed_forward_same_wiring w w' rank :
  same_wiring w w' -> feed_forward w rank -> feed_forward w' rank.
Proof.
  intros Hw [G B I K]. pose proof Hw as (Sm & _ & _). split; rewrite Sm.
  - intros g Hg. apply (same_wiring_evaluable w w' g Hw). auto.
  - exact B.
  - intros g ins s Hg Hi. rewrite (same_wiring_inputs w w' g Hw) in Hi. eauto.
  - intros op Hop. destruct (K op Hop) as [T Hsrc]. split.
    + rewrite (same_wiring_tag w w' op Hw). exact T.
    + intros i Hi. rewrite (same_wiring_input w w' op Hw) in Hi. auto.
Qed.

Lemma obj_poke w r v r' :
  obj (poke r v w) r' = if decide (r = r') then with_value v <$> obj w r' else obj w r'.
Proof. apply obj_alter. Qed.

Lemma poke_same_wiring r v w : same_wiring w (poke r v w).
Proof.
  split; [reflexivity|]. split; [reflexivity|]. intros r'. rewrite obj_poke.
  destruct (decide (r = r')); [|reflexivity].
  destruct (obj w r') as [[| |]|]; reflexivity.
Qed.

Lemma read_poke_ne r v w r' : r <> r' -> read (poke r v w) r' = read w r'.
Proof.
  intros Hne. unfold read. rewrite obj_poke.
  destruct (decide (r = r')); [contradiction|reflexivity].
Qed.

Lemma read_poke_eq r v w : tag_of (obj w r) <> TNone -> read (poke r v w) r = v.
Proof.
  intros Ht. unfold read. rewrite obj_poke.
  destruct (decide (r = r)); [|contradiction].
  destruct (obj w r) as [[| |]|]; simpl; try reflexivity. contradiction.
Qed.

(** Storing the signal that is already there changes nothing. *)
Lemma poke_id r v w : tag_of (obj w r) <> TNone -> read w r = v -> poke r v w = w.
Proof.
  intros Ht Hv. unfold poke, upd_heap, set_value. destruct w as [h sm c]. simpl.
  f_equal. unfold read, obj in *. simpl in *.
  destruct (h !! r) as [n|] eqn:E; [|contradiction].
  apply map_eq. intros r'. destruct (decide (r = r')) as [<-|Hne].
  - rewrite lookup_alter_eq, E. simpl. f_equal.
    destruct n; simpl in *; subst; reflexivity.
  - rewrite lookup_alter_ne by exact Hne. reflexivity.
Qed.

(** *** Evaluation and refresh as functions of the signals read *)

Lemma getInputValue_read w ins i :
  getInputValue w ins i = match ins !! i with Some s => read w s | None => LOW end.
Proof.
  unfold getInputValue, read. destruct (ins !! i) as [s|]; [|reflexivity].
  destruct (obj w s) as [[| |]|]; reflexivity.
Qed.

Lemma getInputValue_ext w1 w2 ins :
  (forall s, s ∈ ins -> read w1 s = read w2 s) ->
  forall i, getInputValue w1 ins i = getInputValue w2 ins i.
Proof.
  intros H i. rewrite !getInputValue_read.
  destruct (ins !! i) as [s|] eqn:E; [|reflexivity].
  apply H. eapply list_elem_of_lookup_2. exact E.
Qed.

Lemma nand_loop_ext w1 w2 ins :
  (forall s, s ∈ ins -> read w1 s = read w2 s) ->
  forall k i, nand_loop w1 ins i k = nand_loop w2 ins i k.
Proof.
  intros H k. induction k as [|k IH]; intros i; simpl; [reflexivity|].
  rewrite (getInputValue_ext w1 w2 ins H i), IH. reflexivity.
Qed.

Lemma evaluate_value_ext w1 w2 c ins mx :
  (forall s, s ∈ ins -> read w1 s = read w2 s) ->
  evaluate_value w1 c ins mx = evaluate_value w2 c ins mx.
Proof.
  intros H. destruct c; simpl; try reflexivity.
  - rewrite !(getInputValue_ext w1 w2 ins H). reflexivity.
  - rewrite !(getInputValue_ext w1 w2 ins H). reflexivity.
  - rewrite (nand_loop_ext w1 w2 ins H). reflexivity.
Qed.

Lemma gate_value_ext w1 w2 g :
  same_wiring w1 w2 ->
  (forall ins s, inputs_of (obj w1 g) = Some ins -> s ∈ ins -> read w1 s = read w2 s) ->
  gate_value w1 g = gate_value w2 g.
Proof.
  intros (_ & _ & W) H. specialize (W g). unfold gate_value.
  destruct (obj w1 g) as [[| |c nm ins ov outs mx]|], (obj w2 g) as [[| |c' nm' ins' ov' outs' mx']|];
    simpl in W; try discriminate; try reflexivity.
  injection W as -> -> -> -> ->.
  rewrite (evaluate_value_ext w1 w2 c ins mx); [reflexivity|].
  intros s Hs. apply (H ins s eq_refl Hs).
Qed.

Lemma source_value_ext w1 w2 op :
  same_wiring w1 w2 ->
  (forall i, input_of (obj w1 op) = Some i -> read w1 i = read w2 i) ->
  source_value w1 op = source_value w2 op.
Proof.
  intros Hw H. unfold source_value. rewrite (same_wiring_input w1 w2 op Hw).
  destruct (input_of (obj w1 op)) as [i|]; [|reflexivity]. apply H. reflexivity.
Qed.

Lemma evaluable_tag o : evaluable o -> tag_of o = TGate.
Proof. destruct o as [[| |]|]; simpl; intros H; try contradiction; reflexivity. Qed.

Lemma getOutput_ok r w : tag_of (obj w r) <> TNone -> getOutput r w = (Return (read w r), w).
Proof.
  intros Ht. unfold getOutput, read. rewrite bind_gets.
  destruct (obj w r) as [[| |]|]; try reflexivity. contradiction.
Qed.

Lemma evaluate_ok g w :
  evaluable (obj w g) ->
  evaluate g w = (Return (gate_value w g), poke g (gate_value w g) w).
Proof.
  intros He. unfold evaluate, gate_value. rewrite bind_gets. unfold id.
  destruct (obj w g) as [[| |c nm ins ov outs mx]|]; try contradiction.
  simpl in He.
  destruct (evaluate_value w c ins mx) as [v|] eqn:Ev.
  - reflexivity.
  - destruct c; simpl in Ev; try contradiction;
      repeat match type of Ev with
             | (if ?b then _ else _) = None => destruct b
             end; discriminate.
Qed.

Lemma evaluate_gate_ok g c w :
  evaluable (obj w g) ->
  evaluate_gate g c w =
  (Return (bool_decide (gate_value w g <> read w g) || c), poke g (gate_value w g) w).
Proof.
  intros He. pose proof (evaluable_tag _ He) as Ht. unfold evaluate_gate.
  erewrite bind_returns; [|apply getOutput_ok; rewrite Ht; discriminate].
  erewrite bind_returns; [|apply evaluate_ok; exact He].
  erewrite bind_returns.
  2:{ apply getOutput_ok. rewrite (same_wiring_tag w _ g (poke_same_wiring _ _ _)), Ht.
      discriminate. }
  rewrite read_poke_eq by (rewrite Ht; discriminate).
  unfold ret. destruct (bool_decide _); reflexivity.
Qed.

Lemma evaluate_gates_ok gs : forall c w,
  (forall g, g ∈ gs -> evaluable (obj w g)) ->
  evaluate_gates gs c w = (Return (c || gates_changed gs w), gates_pure gs w).
Proof.
  induction gs as [|g gs IH]; intros c w He; simpl.
  - rewrite orb_false_r. reflexivity.
  - erewrite bind_returns; [|apply evaluate_gate_ok; apply He; left].
    rewrite IH.
    + f_equal. f_equal. destruct (bool_decide _), c; reflexivity.
    + intros g' Hg'. apply (same_wiring_evaluable w _ g' (poke_same_wiring _ _ _)).
      apply He. right. exact Hg'.
Qed.

Lemma update_ok op w :
  tag_of (obj w op) = TOutput ->
  update op w = (Return tt, poke op (source_value w op) w).
Proof.
  intros Ht. unfold update, source_value, read. rewrite bind_gets. unfold id.
  destruct (obj w op) as [[|nm [i|] v|]|]; try discriminate; simpl; [|reflexivity].
  destruct (obj w i) as [[| |]|]; reflexivity.
Qed.

Lemma forEach_update_ok ops : forall w,
  (forall op, op ∈ ops -> tag_of (obj w op) = TOutput) ->
  forEach ops update w = (Return tt, sinks_pure ops w).
Proof.
  induction ops as [|op ops IH]; intros w Ht; simpl; [reflexivity|].
  erewrite bind_returns; [|apply update_ok; apply Ht; left].
  apply IH. intros op' Hop'.
  rewrite (same_wiring_tag w _ op' (poke_same_wiring _ _ _)). apply Ht. right. exact Hop'.
Qed.

Lemma gates_pure_same_wiring gs : forall w, same_wiring w (gates_pure gs w).
Proof.
  induction gs as [|g gs IH]; intros w; simpl; [apply same_wiring_refl|].
  eapply same_wiring_trans; [apply poke_same_wiring|apply IH].
Qed.

Lemma sinks_pure_same_wiring ops : forall w, same_wiring w (sinks_pure ops w).
Proof.
  induction ops as [|op ops IH]; intros w; simpl; [apply same_wiring_refl|].
  eapply same_wiring_trans; [apply poke_same_wiring|apply IH].
Qed.

Lemma gates_pure_snoc gs g w :
  gates_pure (gs ++ [g]) w =
  poke g (gate_value (gates_pure gs w) g) (gates_pure gs w).
Proof.
  revert w. induction gs as [|g' gs IH]; intros w; simpl; [reflexivity|apply IH].
Qed.

Lemma sinks_pure_snoc ops op w :
  sinks_pure (ops ++ [op]) w =
  poke op (source_value (sinks_pure ops w) op) (sinks_pure ops w).
Proof.
  revert w. induction ops as [|op' ops IH]; intros w; simpl; [reflexivity|apply IH].
Qed.

(** *** One rank per pass *)

Section FeedForward.
Variable rank : ref -> nat.

Lemma gate_value_agrees k w w' g :
  feed_forward w rank -> agrees_below rank k w w' ->
  g ∈ gates (sim w) -> (rank g <= k)%nat ->
  gate_value w' g = gate_value w g.
Proof.
  intros F (Hw & Hother & Hlow) Hg Hk. symmetry. apply gate_value_ext; [exact Hw|].
  intros ins s Hins Hs. symmetry.
  destruct (ff_inputs w rank F g ins s Hg Hins Hs) as [[Hsg Hlt]|[Hn1 Hn2]].
  - apply Hlow; [exact Hsg|lia].
  - apply Hother; assumption.
Qed.

Lemma gate_allocated w w' g :
  feed_forward w rank -> same_wiring w w' -> g ∈ gates (sim w) ->
  tag_of (obj w' g) <> TNone.
Proof.
  intros F Hw Hg. rewrite (same_wiring_tag w w' g Hw).
  rewrite (evaluable_tag _ (ff_gates w rank F g Hg)). discriminate.
Qed.

Lemma gates_not_sinks w g :
  feed_forward w rank -> g ∈ gates (sim w) -> g ∉ outputPoints (sim w).
Proof.
  intros F Hg Hop. pose proof (evaluable_tag _ (ff_gates w rank F g Hg)) as T1.
  destruct (ff_sinks w rank F g Hop) as [T2 _]. congruence.
Qed.

(** The gate pass, gate by gate: nothing outside the evaluated gates is
    written, gates settled before the pass keep their signal, and an
    evaluated gate of the next rank ends with the value it has in [w]. *)
Lemma gates_pure_inv k w :
  feed_forward w rank -> settled_below rank k w ->
  forall gs, (forall g, g ∈ gs -> g ∈ gates (sim w)) ->
    (forall r, r ∉ gs -> read (gates_pure gs w) r = read w r)
    /\ (forall g, g ∈ gates (sim w) -> (rank g < k)%nat ->
           read (gates_pure gs w) g = read w g)
    /\ (forall g, g ∈ gs -> rank g = k -> read (gates_pure gs w) g = gate_value w g).
Proof.
  intros F Hset gs. induction gs as [|g gs IH] using rev_ind; intros Hsub.
  - simpl. split; [reflexivity|]. split; [reflexivity|].
    intros g Hg. apply elem_of_nil in Hg. contradiction.
  - rewrite gates_pure_snoc. set (w' := gates_pure gs w).
    assert (forall g0, g0 ∈ gs -> g0 ∈ gates (sim w)) as Hsub'.
    { intros g0 H0. apply Hsub. apply elem_of_app. left. exact H0. }
    assert (g ∈ gates (sim w)) as Hg.
    { apply Hsub. apply elem_of_app. right. apply list_elem_of_singleton. reflexivity. }
    destruct (IH Hsub') as (I1 & I2 & I3). fold w' in I1, I2, I3.
    assert (same_wiring w w') as Hw by apply gates_pure_same_wiring.
    assert (agrees_below rank k w w') as Hag.
    { split; [exact Hw|]. split; [|exact I2].
      intros r Hr _. apply I1. intros Hin. apply Hr. apply Hsub'. exact Hin. }
    pose proof (gate_allocated w w' g F Hw Hg) as Hal.
    split; [|split].
    + intros r Hr. rewrite read_poke_ne.
      * apply I1. intros Hin. apply Hr. apply elem_of_app. left. exact Hin.
      * intros ->. apply Hr. apply elem_of_app. right. apply list_elem_of_singleton. reflexivity.
    + intros g' Hg' Hlt. destruct (decide (g = g')) as [<-|Hne].
      * rewrite read_poke_eq by exact Hal.
        rewrite (gate_value_agrees k w w' g F Hag Hg) by lia.
        symmetry. apply Hset; assumption.
      * rewrite read_poke_ne by exact Hne. apply I2; assumption.
    + intros g' Hg' Hk. destruct (decide (g = g')) as [<-|Hne].
      * rewrite read_poke_eq by exact Hal.
        apply (gate_value_agrees k w w' g F Hag Hg). lia.
      * rewrite read_poke_ne by exact Hne. apply I3; [|exact Hk].
        apply elem_of_app in Hg' as [Hin|Hin]; [exact Hin|].
        apply list_elem_of_singleton in Hin. congruence.
Qed.

(** A full gate pass settles one more rank. *)
Lemma gates_pass_settles k w :
  feed_forward w rank -> settled_below rank k w ->
  settled_below rank (S k) (gates_pure (gates (sim w)) w)
  /\ agrees_below rank k w (gates_pure (gates (sim w)) w).
Proof.
  intros F Hset.
  destruct (gates_pure_inv k w F Hset (gates (sim w)) (fun g H => H)) as (I1 & I2 & I3).
  set (w' := gates_pure (gates (sim w)) w) in *.
  assert (same_wiring w w') as Hw by apply gates_pure_same_wiring.
  assert (agrees_below rank k w w') as Hag.
  { split; [exact Hw|]. split; [|exact I2]. intros r Hr _. apply I1. exact Hr. }
  split; [|exact Hag].
  intros g Hg Hlt. destruct Hw as (Sm & _). rewrite Sm in Hg.
  rewrite (gate_value_agrees k w w' g F Hag Hg) by lia.
  destruct (decide (rank g < k)%nat) as [Hlow|Hhigh].
  - rewrite I2 by assumption. apply Hset; assumption.
  - apply I3; [exact Hg|lia].
Qed.

(** The sink pass, sink by sink. *)
Lemma sinks_pure_inv w :
  feed_forward w rank ->
  forall ops, (forall op, op ∈ ops -> op ∈ outputPoints (sim w)) ->
    (forall r, r ∉ ops -> read (sinks_pure ops w) r = read w r)
    /\ (forall op, op ∈ ops -> read (sinks_pure ops w) op = source_value w op).
Proof.
  intros F ops. induction ops as [|op ops IH] using rev_ind; intros Hsub.
  - simpl. split; [reflexivity|]. intros op Hop. apply elem_of_nil in Hop. contradiction.
  - rewrite sinks_pure_snoc. set (w' := sinks_pure ops w).
    assert (forall o, o ∈ ops -> o ∈ outputPoints (sim w)) as Hsub'.
    { intros o H0. apply Hsub. apply elem_of_app. left. exact H0. }
    assert (op ∈ outputPoints (sim w)) as Hop.
    { apply Hsub. apply elem_of_app. right. apply list_elem_of_singleton. reflexivity. }
    destruct (IH Hsub') as (I1 & I2). fold w' in I1, I2.
    assert (same_wiring w w') as Hw by apply sinks_pure_same_wiring.
    destruct (ff_sinks w rank F op Hop) as [Tag Hsrc].
    assert (tag_of (obj w' op) <> TNone) as Hal.
    { rewrite (same_wiring_tag w w' op Hw), Tag. discriminate. }
    assert (source_value w' op = source_value w op) as Hsv.
    { symmetry. apply source_value_ext; [exact Hw|].
      intros i Hi. symmetry. apply I1. intros Hin. apply (Hsrc i Hi). apply Hsub'. exact Hin. }
    split.
    + intros r Hr. rewrite read_poke_ne.
      * apply I1. intros Hin. apply Hr. apply elem_of_app. left. exact Hin.
      * intros ->. apply Hr. apply elem_of_app. right. apply list_elem_of_singleton. reflexivity.
    + intros op' Hop'. destruct (decide (op = op')) as [<-|Hne].
      * rewrite read_poke_eq by exact Hal. exact Hsv.
      * rewrite read_poke_ne by exact Hne. apply I2.
        apply elem_of_app in Hop' as [Hin|Hin]; [exact Hin|].
        apply list_elem_of_singleton in Hin. congruence.
Qed.

(** The sink pass leaves every settled gate settled, and every tracked
    output point fresh. *)
Lemma sinks_pass w :
  feed_forward w rank ->
  let w' := sinks_pure (outputPoints (sim w)) w in
  (forall k, agrees_below rank k w w')
  /\ (forall k, settled_below rank k w -> settled_below rank k w')
  /\ sinks_fresh w'.
Proof.
  intros F w'.
  destruct (sinks_pure_inv w F (outputPoints (sim w)) (fun o H => H)) as (I1 & I2).
  fold w' in I1, I2.
  assert (same_wiring w w') as Hw by apply sinks_pure_same_wiring.
  assert (forall k, agrees_below rank k w w') as Hag.
  { intros k. split; [exact Hw|]. split.
    - intros r _ Hr. apply I1. exact Hr.
    - intros g Hg _. apply I1. apply (gates_not_sinks w g F Hg). }
  split; [exact Hag|]. split.
  - intros k Hset g Hg Hlt. destruct Hw as (Sm & _). rewrite Sm in Hg.
    rewrite (gate_value_agrees k w w' g F (Hag k) Hg) by lia.
    destruct (Hag k) as (_ & _ & Hlow). rewrite Hlow by assumption. apply Hset; assumption.
  - intros op Hop. destruct Hw as (Sm & Hw'). rewrite Sm in Hop.
    rewrite I2 by exact Hop.
    apply source_value_ext; [split; [exact Sm|exact Hw']|].
    intros i Hi. symmetry. apply I1. destruct (ff_sinks w rank F op Hop) as [_ Hsrc].
    apply Hsrc. exact Hi.
Qed.

End FeedForward.

(** *** Quiet passes *)

Lemma gates_settled_quiet gs w :
  (forall g, g ∈ gs -> tag_of (obj w g) <> TNone) ->
  (forall g, g ∈ gs -> read w g = gate_value w g) ->
  gates_changed gs w = false /\ gates_pure gs w = w.
Proof.
  induction gs as [|g gs IH]; intros Hal Hset; simpl; [split; reflexivity|].
  assert (poke g (gate_value w g) w = w) as ->.
  { apply poke_id; [apply Hal; left|apply Hset; left]. }
  rewrite bool_decide_eq_false_2.
  - apply IH; intros g' Hg'; [apply Hal|apply Hset]; right; exact Hg'.
  - intros Hne. apply Hne. symmetry. apply Hset. left.
Qed.

Lemma gates_quiet_settled gs w :
  (forall g, g ∈ gs -> tag_of (obj w g) <> TNone) ->
  gates_changed gs w = false ->
  forall g, g ∈ gs -> read w g = gate_value w g.
Proof.
  induction gs as [|g gs IH]; intros Hal Hq g' Hg'.
  - apply elem_of_nil in Hg'. contradiction.
  - simpl in Hq. apply orb_false_iff in Hq as [Hd Hq].
    apply bool_decide_eq_false in Hd.
    assert (read w g = gate_value w g) as Hg.
    { destruct (decide (gate_value w g = read w g)) as [E|E]; [auto|contradiction]. }
    rewrite poke_id in Hq; [|apply Hal; left|exact Hg].
    apply elem_of_cons in Hg' as [->|Hin]; [exact Hg|].
    apply IH; [|exact Hq|exact Hin]. intros g0 H0. apply Hal. right. exact H0.
Qed.

Lemma sinks_fresh_quiet ops w :
  (forall op, op ∈ ops -> tag_of (obj w op) <> TNone) ->
  (forall op, op ∈ ops -> read w op = source_value w op) ->
  sinks_pure ops w = w.
Proof.
  induction ops as [|op ops IH]; intros Hal Hf; simpl; [reflexivity|].
  rewrite poke_id; [|apply Hal; left|apply Hf; left].
  apply IH; intros o Ho; [apply Hal|apply Hf]; right; exact Ho.
Qed.

Section Settling.
Variable rank : ref -> nat.

Lemma update_outputs_ok w :
  feed_forward w rank ->
  update_outputs w = (Return tt, sinks_pure (outputPoints (sim w)) w).
Proof.
  intros F. unfold update_outputs. rewrite bind_gets. apply forEach_update_ok.
  intros op Hop. apply (ff_sinks w rank F op Hop).
Qed.

Lemma pass_ok w :
  feed_forward w rank ->
  pass w = (Return (gates_changed (gates (sim w)) w),
            sinks_pure (outputPoints (sim w)) (gates_pure (gates (sim w)) w)).
Proof.
  intros F. unfold pass. rewrite bind_gets.
  erewrite bind_returns; [|apply evaluate_gates_ok; apply (ff_gates w rank F)].
  pose proof (gates_pure_same_wiring (gates (sim w)) w) as Hw.
  erewrite bind_returns.
  2:{ apply update_outputs_ok. apply (feed_forward_same_wiring w _ rank Hw F). }
  destruct Hw as (-> & _). reflexivity.
Qed.

Lemma settled_below_le k k' w :
  (k' <= k)%nat -> settled_below rank k w -> settled_below rank k' w.
Proof. intros Hle H g Hg Hlt. apply H; [exact Hg|lia]. Qed.

Lemma settled_all k w :
  feed_forward w rank -> (length (gates (sim w)) <= k)%nat ->
  settled_below rank k w -> forall k', settled_below rank k' w.
Proof.
  intros F Hk H k' g Hg _. apply H; [exact Hg|].
  pose proof (ff_bound w rank F g Hg). lia.
Qed.

(** The loop of [propagate] returns normally with every tracked gate settled. *)
Lemma loop_settles remaining : forall i w,
  feed_forward w rank -> settled_below rank i w ->
  (i + remaining = length (gates (sim w)) + 1)%nat -> (0 < remaining)%nat ->
  exists w',
    propagate_loop remaining i w = (Return tt, w')
    /\ same_wiring w w'
    /\ settled_below rank (length (gates (sim w))) w'.
Proof.
  induction remaining as [|r IH]; intros i w F Hset Hsum Hpos; [lia|].
  rewrite propagate_loop_S.
  erewrite bind_returns; [|apply pass_ok; exact F].
  set (w1 := gates_pure (gates (sim w)) w).
  set (w2 := sinks_pure (outputPoints (sim w)) w1).
  assert (same_wiring w w1) as Hw1 by apply gates_pure_same_wiring.
  pose proof (feed_forward_same_wiring w w1 rank Hw1 F) as F1.
  assert (sim w1 = sim w) as Sm1 by apply Hw1.
  assert (w2 = sinks_pure (outputPoints (sim w1)) w1) as E2 by (rewrite Sm1; reflexivity).
  assert (same_wiring w1 w2) as Hw12 by apply sinks_pure_same_wiring.
  assert (same_wiring w w2) as Hw2 by (eapply same_wiring_trans; eassumption).
  pose proof (feed_forward_same_wiring w w2 rank Hw2 F) as F2.
  assert (sim w2 = sim w) as Sm2 by apply Hw2.
  destruct (sinks_pass rank w1 F1) as (_ & Hkeep & _). rewrite <- E2 in Hkeep.
  destruct (gates_pass_settles rank i w F Hset) as [Hnext _]. fold w1 in Hnext.
  destruct (negb (gates_changed (gates (sim w)) w) && Nat.ltb 0 i) eqn:Ex.
  - exists w2. split; [reflexivity|]. split; [exact Hw2|].
    apply andb_true_iff in Ex as [Hc _]. apply negb_true_iff in Hc.
    assert (forall g, g ∈ gates (sim w) -> tag_of (obj w g) <> TNone) as Hal.
    { intros g Hg. apply (gate_allocated rank w w g F (same_wiring_refl w) Hg). }
    pose proof (gates_quiet_settled _ w Hal Hc) as Hall.
    destruct (gates_settled_quiet _ w Hal Hall) as [_ Eid].
    apply Hkeep. unfold w1. rewrite Eid. intros g Hg _. apply Hall. exact Hg.
  - destruct r as [|r].
    + exists w2. split; [reflexivity|]. split; [exact Hw2|].
      apply (settled_below_le (S i)); [lia|]. apply Hkeep. exact Hnext.
    + destruct (IH (S i) w2 F2) as (w' & E & Hw' & Hs').
      * apply Hkeep. exact Hnext.
      * rewrite Sm2. lia.
      * lia.
      * exists w'. split; [exact E|]. split.
        -- eapply same_wiring_trans; eassumption.
        -- rewrite Sm2 in Hs'. exact Hs'.
Qed.

(** In a world whose tracked gates are all settled and whose tracked
    output points are all fresh, [propagate] returns without a change. *)
Lemma propagate_quiet w :
  feed_forward w rank ->
  settled_below rank (length (gates (sim w))) w -> sinks_fresh w ->
  propagate w = (Return tt, w).
Proof.
  intros F Hset Hfresh.
  assert (forall g, g ∈ gates (sim w) -> tag_of (obj w g) <> TNone) as Hal.
  { intros g Hg. apply (gate_allocated rank w w g F (same_wiring_refl w) Hg). }
  assert (forall g, g ∈ gates (sim w) -> read w g = gate_value w g) as Hall.
  { intros g Hg. apply Hset; [exact Hg|]. apply (ff_bound w rank F g Hg). }
  destruct (gates_settled_quiet _ w Hal Hall) as [Hq Eid].
  assert (sinks_pure (outputPoints (sim w)) w = w) as Esk.
  { apply sinks_fresh_quiet; [|exact Hfresh].
    intros op Hop. destruct (ff_sinks w rank F op Hop) as [T _]. rewrite T. discriminate. }
  assert (pass w = (Return false, w)) as Hpass.
  { rewrite (pass_ok w F), Hq, Eid, Esk. reflexivity. }
  assert (update_outputs w = (Return tt, w)) as Hup.
  { rewrite (update_outputs_ok w F), Esk. reflexivity. }
  unfold propagate. rewrite bind_gets, Nat.add_1_r.
  erewrite bind_returns; [exact Hup|].
  rewrite propagate_loop_S. erewrite bind_returns; [|exact Hpass]. simpl.
  destruct (length (gates (sim w))) as [|n]; [reflexivity|].
  rewrite propagate_loop_S. erewrite bind_returns; [|exact Hpass]. reflexivity.
Qed.

End Settling.

Lemma feed_forward_check_sound w rank :
  feed_forward_check w rank = true -> feed_forward w rank.
Proof.
  unfold feed_forward_check. intros H. apply andb_true_iff in H as [Hg Ho].
  rewrite forallb_forall in Hg. rewrite forallb_forall in Ho.
  assert (forall g, g ∈ gates (sim w) ->
            exists c nm ins ov outs mx,
              obj w g = Some (Gate c nm ins ov outs mx)
              /\ c <> LogicGate
              /\ (rank g < length (gates (sim w)))%nat
              /\ forall s, s ∈ ins ->
                   (s ∈ gates (sim w) /\ (rank s < rank g)%nat)
                   \/ ((s ∉ gates (sim w)) /\ (s ∉ outputPoints (sim w)))) as HG.
  { intros g Hin. apply list_elem_of_In in Hin. specialize (Hg g Hin).
    destruct (obj w g) as [[| |c nm ins ov outs mx]|]; try discriminate.
    apply andb_true_iff in Hg as [Hg Hins]. apply andb_true_iff in Hg as [Hc Hr].
    exists c, nm, ins, ov, outs, mx. split; [reflexivity|].
    split; [apply bool_decide_eq_true in Hc; exact Hc|].
    split; [apply Nat.ltb_lt; exact Hr|].
    rewrite forallb_forall in Hins. intros s Hs. apply list_elem_of_In in Hs.
    specialize (Hins s Hs). apply orb_true_iff in Hins as [Ha|Hb].
    - left. apply andb_true_iff in Ha as [Ha1 Ha2].
      split; [apply includes_true; exact Ha1|apply Nat.ltb_lt; exact Ha2].
    - right. apply andb_true_iff in Hb as [Hb1 Hb2].
      apply negb_true_iff in Hb1, Hb2.
      split; apply includes_false; assumption. }
  split.
  - intros g Hin. destruct (HG g Hin) as (c & nm & ins & ov & outs & mx & E & Hc & _).
    rewrite E. exact Hc.
  - intros g Hin. destruct (HG g Hin) as (c & nm & ins & ov & outs & mx & _ & _ & Hr & _).
    exact Hr.
  - intros g ins s Hin Hins Hs.
    destruct (HG g Hin) as (c & nm & ins' & ov & outs & mx & E & _ & _ & Hi).
    rewrite E in Hins. injection Hins as <-. apply Hi. exact Hs.
  - intros op Hin. apply list_elem_of_In in Hin. specialize (Ho op Hin).
    destruct (obj w op) as [[|nm [i|] v|]|]; try discriminate; simpl.
    + split; [reflexivity|]. intros i' [= <-]. apply includes_false.
      apply negb_true_iff in Ho. exact Ho.
    + split; [reflexivity|]. intros i' Hi. discriminate.
Qed.

(** C9, amended: on a feed-forward circuit [propagate] returns normally,
    and a second [propagate] right after it returns normally without
    changing anything, so the snapshot after the second call is the
    snapshot after the first. *)
Theorem propagate_twice (w : World) (rank : ref -> nat) :
  feed_forward w rank ->
  exists w1,
    propagate w = (Return tt, w1)
    /\ propagate w1 = (Return tt, w1)
    /\ (getCircuitState (propagate (propagate w).2).2).1
       = (getCircuitState (propagate w).2).1.
Proof.
  intros F.
  destruct (loop_settles rank (length (gates (sim w)) + 1) 0 w F) as (wl & El & Hwl & Hsl).
  - intros g _ Hlt. lia.
  - lia.
  - lia.
  - pose proof (feed_forward_same_wiring w wl rank Hwl F) as Fl.
    assert (sim wl = sim w) as Sml by apply Hwl.
    set (w1 := sinks_pure (outputPoints (sim wl)) wl).
    assert (same_wiring wl w1) as Hw1 by apply sinks_pure_same_wiring.
    pose proof (feed_forward_same_wiring wl w1 rank Hw1 Fl) as F1.
    assert (sim w1 = sim wl) as Sm1 by apply Hw1.
    destruct (sinks_pass rank wl Fl) as (_ & Hkeep & Hfresh). fold w1 in Hkeep, Hfresh.
    assert (propagate w = (Return tt, w1)) as E1.
    { unfold propagate. rewrite bind_gets.
      erewrite bind_returns; [|exact El]. apply (update_outputs_ok rank wl Fl). }
    assert (propagate w1 = (Return tt, w1)) as E2.
    { apply (propagate_quiet rank w1 F1); [|exact Hfresh].
      rewrite Sm1, Sml. apply Hkeep. exact Hsl. }
    exists w1. split; [exact E1|]. split; [exact E2|].
    rewrite E1. simpl. rewrite E2. reflexivity.
Qed.

Lemma propagate_twice_witness :
  exists w1,
    propagate not_and_circuit = (Return tt, w1)
    /\ propagate w1 = (Return tt, w1)
    /\ (getCircuitState (propagate (propagate not_and_circuit).2).2).1
       = (getCircuitState (propagate not_and_circuit).2).1.
Proof.
  apply (propagate_twice not_and_circuit not_and_rank).
  apply feed_forward_check_sound. vm_compute. reflexivity.
Defined.

(** ** Gates stay within capacity *)

Lemma capacity_same_view w w' :
  (forall r, capacity_view (obj w' r) = capacity_view (obj w r)) ->
  within_capacity w -> within_capacity w'.
Proof.
  intros Hv Hw g c nm ins ov outs mx Hg. specialize (Hv g). rewrite Hg in Hv.
  destruct (obj w g) as [[| |c' nm' ins' ov' outs' mx']|] eqn:E; try discriminate.
  simpl in Hv. injection Hv as <- <-. eapply Hw. exact E.
Qed.

Lemma capacity_alter f r :
  (forall o, capacity_view (f <$> o) = capacity_view o) ->
  keeps within_capacity (modify (upd_heap (alter f r))).
Proof.
  intros Hf w. apply capacity_same_view. intros r'. simpl. rewrite obj_alter.
  destruct (decide (r = r')); [apply Hf|reflexivity].
Qed.

Lemma capacity_set_outputs r l : keeps within_capacity (modify (upd_heap (set_outputs r l))).
Proof. apply capacity_alter. intros [[| |]|]; reflexivity. Qed.
Lemma capacity_set_input r i : keeps within_capacity (modify (upd_heap (set_input r i))).
Proof. apply capacity_alter. intros [[| |]|]; reflexivity. Qed.
Lemma capacity_set_value r v : keeps within_capacity (modify (upd_heap (set_value r v))).
Proof. apply capacity_alter. intros [[| |]|]; reflexivity. Qed.
Lemma capacity_write_console e : keeps within_capacity (modify (write_console e)).
Proof. intros w Hw. exact Hw. Qed.
Lemma capacity_upd_sim f : keeps within_capacity (modify (upd_sim f)).
Proof. intros w Hw. exact Hw. Qed.

(** Writing an [inputs] array that is no longer than the one it replaces,
    or that still fits under [maxInputs]. *)
Lemma capacity_set_inputs w r l :
  within_capacity w ->
  (forall c nm ins ov outs mx,
      obj w r = Some (Gate c nm ins ov outs mx) -> (Z.of_nat (length l) <= mx)%Z) ->
  within_capacity (upd_heap (set_inputs r l) w).
Proof.
  intros Hw Hl g c nm ins ov outs mx. unfold set_inputs. rewrite obj_alter.
  destruct (decide (r = g)) as [<-|]; [|apply Hw].
  destruct (obj w r) as [[| |c' nm' ins' ov' outs' mx']|] eqn:E; simpl; try discriminate.
  intros [= <- <- <- <- <- <-]. eapply Hl. reflexivity.
Qed.

Ltac capacity_leaf :=
  match goal with
  | |- keeps _ (modify (upd_heap (set_value _ _))) => apply capacity_set_value
  | |- keeps _ (modify (upd_heap (set_input _ _))) => apply capacity_set_input
  | |- keeps _ (modify (upd_heap (set_outputs _ _))) => apply capacity_set_outputs
  | |- keeps _ (modify (write_console _)) => apply capacity_write_console
  | |- keeps _ (modify (upd_sim _)) => apply capacity_upd_sim
  | |- keeps _ (modify (upd_heap (set_inputs _ []))) =>
      let w := fresh "w" in let Hw := fresh "Hw" in
      intros w Hw; apply capacity_set_inputs; [exact Hw|];
      intros ? ? ? ? ? ? E; specialize (Hw _ _ _ _ _ _ _ E); simpl; lia
  end.

Ltac keeps_capacity := keeps_with ltac:(idtac; capacity_leaf).

Lemma update_keeps_capacity op : keeps within_capacity (update op).
Proof. unfold update. keeps_capacity. Qed.

(** [propagate] writes cached signals only. *)
Lemma propagate_same_wiring : stable same_wiring propagate.
Proof.
  assert (forall r v, stable same_wiring (modify (upd_heap (set_value r v)))) as Hleaf.
  { intros r v w. apply poke_same_wiring. }
  assert (forall op, stable same_wiring (update op)) as Hupd.
  { intros op. unfold update.
    stable_with same_wiring_refl same_wiring_trans ltac:(apply Hleaf). }
  assert (stable same_wiring update_outputs) as Hups.
  { unfold update_outputs.
    stable_with same_wiring_refl same_wiring_trans ltac:(apply Hupd). }
  assert (forall gs c, stable same_wiring (evaluate_gates gs c)) as Hgs.
  { intros gs. induction gs as [|g gs IH]; intros c; simpl.
    - stable_with same_wiring_refl same_wiring_trans ltac:(fail).
    - unfold evaluate_gate, evaluate, getOutput.
      stable_with same_wiring_refl same_wiring_trans
                  ltac:(first [apply Hleaf | apply IH]). }
  assert (forall n i, stable same_wiring (propagate_loop n i)) as Hloop.
  { intros n. induction n as [|n IH]; intros i; simpl.
    - stable_with same_wiring_refl same_wiring_trans ltac:(fail).
    - stable_with same_wiring_refl same_wiring_trans
                  ltac:(first [apply Hgs | apply Hups | apply IH]). }
  unfold propagate.
  stable_with same_wiring_refl same_wiring_trans ltac:(first [apply Hloop | apply Hups]).
Qed.

Lemma propagate_keeps_capacity : keeps within_capacity propagate.
Proof.
  intros w. apply capacity_same_view. intros r.
  destruct (propagate_same_wiring w) as (_ & _ & W). specialize (W r).
  assert (forall o, capacity_view (wiring o) = capacity_view o) as Hv
      by (intros [[| |]|]; reflexivity).
  rewrite <- Hv, W. apply Hv.
Qed.

Lemma length_without x (l : list ref) : (length (without x l) <= length l)%nat.
Proof. apply length_filter. Qed.

Lemma remove_keeps_capacity (n : nat) :
  (forall this d, keeps within_capacity (removeOutput n this d))
  /\ (forall this s, keeps within_capacity (removeInput n this s)).
Proof.
  induction n as [|n [IHo IHi]].
  - split; intros; apply keeps_throw.
  - split; intros this x.
    + rewrite removeOutput_S. keeps_capacity. apply IHi.
    + intros w Hw. rewrite removeInput_S, bind_gets.
      destruct (obj w this) as [[|nm inp v|c nm ins ov outs mx]|] eqn:Eo; try exact Hw.
      * apply keeps_at; [|exact Hw]. keeps_capacity. apply IHo.
      * rewrite bind_modify, bind_gets.
        assert (within_capacity (upd_heap (set_inputs this (without x ins)) w)) as H1.
        { apply capacity_set_inputs; [exact Hw|].
          intros c' nm' ins' ov' outs' mx' E. rewrite Eo in E. injection E as <- <- <- <- <- <-.
          pose proof (Hw _ _ _ _ _ _ _ Eo). pose proof (length_without x ins). lia. }
        destruct (has_removeOutput _); [apply IHo|]; exact H1.
Qed.

Lemma add_keeps_capacity (n : nat) :
  (forall this d, keeps within_capacity (addOutput n this d))
  /\ (forall this s, keeps within_capacity (addInput n this s)).
Proof.
  induction n as [|n [IHo IHi]].
  - split; intros; apply keeps_throw.
  - split; intros this x.
    + rewrite addOutput_S. keeps_capacity. apply IHi.
    + intros w Hw. rewrite addInput_S, bind_gets.
      destruct (obj w this) as [[|nm inp v|c nm ins ov outs mx]|] eqn:Eo; try exact Hw.
      * apply keeps_at; [|exact Hw]. keeps_capacity;
          first [apply remove_keeps_capacity | apply IHo | apply update_keeps_capacity].
      * destruct (Z.ltb (Z.of_nat (length ins)) mx) eqn:El; [|exact Hw].
        destruct (includes ins x); [exact Hw|].
        rewrite bind_modify, bind_gets.
        assert (within_capacity (upd_heap (set_inputs this (ins ++ [x])) w)) as H1.
        { apply capacity_set_inputs; [exact Hw|].
          intros c' nm' ins' ov' outs' mx' E. rewrite Eo in E. injection E as <- <- <- <- <- <-.
          apply Z.ltb_lt in El. rewrite length_app. simpl. lia. }
        destruct (has_addOutput _); [apply IHo|]; exact H1.
Qed.

(** Every public operation, at every stack depth and however it ends,
    leaves every gate within its capacity. *)
Lemma perform_keeps_capacity fuel o : keeps within_capacity (perform fuel o).
Proof.
  destruct o; simpl.
  - unfold addComponent. keeps_capacity.
  - unfold removeComponent. keeps_capacity; apply remove_keeps_capacity.
  - unfold connect. keeps_capacity;
      first [apply add_keeps_capacity | apply propagate_keeps_capacity].
  - unfold disconnect. keeps_capacity;
      first [apply remove_keeps_capacity | apply propagate_keeps_capacity].
  - apply propagate_keeps_capacity.
  - apply add_keeps_capacity.
  - apply add_keeps_capacity.
  - apply remove_keeps_capacity.
  - apply remove_keeps_capacity.
  - unfold setValue. keeps_capacity.
  - unfold toggle. keeps_capacity.
  - unfold evaluate. keeps_capacity.
  - apply update_keeps_capacity.
Qed.

Lemma run_keeps_capacity script : forall w,
  within_capacity w -> within_capacity (run script w).
Proof.
  induction script as [|[fuel o] script IH]; intros w Hw; simpl.
  - exact Hw.
  - apply IH. apply perform_keeps_capacity. exact Hw.
Qed.

(** Through the Simulation, a source connected to a full gate is refused by
    the gate, with the error on the console, but has by then recorded the
    gate among its own outputs. *)
Lemma connect_to_full_gate fuel :
  (2 <= fuel)%nat ->
  exists w',
    connect fuel 5 And1 full_gate_world = (Return tt, w')
    /\ console w' = [MaxInputsReached "And1" 2%Z]
    /\ inputs_of (obj w' And1) = Some [InputA; InputB]
    /\ outputs_of (obj w' 5) = Some [And1].
Proof.
  intros Hfuel. eexists. split.
  - apply (connect_any_depth 2); [vm_compute; reflexivity|discriminate|exact Hfuel].
  - vm_compute. repeat split.
Qed.

(** * Further properties of the code *)

(** ** Input points *)

(** [setValue] followed by [getOutput]: a signal is stored and read back;
    any other number leaves the stored value, and its read, as they were
    and puts one error on the console.  Links are not touched either way. *)
Theorem setValue_getOutput (w : World) (this : ref) n old outs (newValue : Z) :
  obj w this = Some (InputPoint n old outs) ->
  (is_signal newValue ->
     (setValue this newValue ;; getOutput this) w
     = (Return newValue, poke this newValue w)
     /\ obj (poke this newValue w) this = Some (InputPoint n newValue outs))
  /\ (~ is_signal newValue ->
     (setValue this newValue ;; getOutput this) w
     = (Return old, write_console (InvalidValue n) w)).
Proof.
  intros Ho.
  assert (obj (poke this newValue w) this = Some (InputPoint n newValue outs)) as Hp.
  { rewrite obj_poke. destruct (decide (this = this)); [|contradiction]. rewrite Ho. reflexivity. }
  split.
  - intros Hs. split; [|exact Hp].
    erewrite bind_returns.
    + unfold getOutput. rewrite bind_gets, Hp. reflexivity.
    + unfold setValue. rewrite bind_gets, Ho.
      assert (Z.eqb newValue HIGH || Z.eqb newValue LOW = true) as ->
          by (destruct Hs as [-> | ->]; reflexivity).
      reflexivity.
  - intros Hs.
    erewrite bind_returns.
    + unfold getOutput. rewrite bind_gets, obj_write_console, Ho. reflexivity.
    + unfold setValue. rewrite bind_gets, Ho.
      assert (Z.eqb newValue HIGH || Z.eqb newValue LOW = false) as ->.
      { apply orb_false_iff. split; apply Z.eqb_neq; intros ->; apply Hs;
          [right|left]; reflexivity. }
      reflexivity.
Qed.

Lemma setValue_getOutput_witness :
  (is_signal 2 ->
     (setValue 1 2 ;; getOutput 1) nand_world = (Return 2%Z, poke 1 2 nand_world)
     /\ obj (poke 1 2 nand_world) 1 = Some (InputPoint "In1" 2 [3]))
  /\ (~ is_signal 2 ->
     (setValue 1 2 ;; getOutput 1) nand_world
     = (Return LOW, write_console (InvalidValue "In1") nand_world)).
Proof. apply (setValue_getOutput nand_world 1 "In1" LOW [3] 2). reflexivity. Defined.

(** [toggle] always leaves a signal behind.  Toggling twice gives the
    world back when the stored value was a signal; from any other number
    the two toggles end at LOW. *)
Theorem toggle_twice (w : World) (this : ref) n v outs :
  obj w this = Some (InputPoint n v outs) ->
  exists w1 w2,
    toggle this w = (Return tt, w1) /\ is_signal (read w1 this)
    /\ toggle this w1 = (Return tt, w2)
    /\ (is_signal v -> w2 = w)
    /\ (~ is_signal v -> read w2 this = LOW).
Proof.
  intros Ho.
  assert (forall u x, obj u this = Some (InputPoint n x outs) ->
            toggle this u = (Return tt, poke this (if Z.eqb x HIGH then LOW else HIGH) u)
            /\ obj (poke this (if Z.eqb x HIGH then LOW else HIGH) u) this
               = Some (InputPoint n (if Z.eqb x HIGH then LOW else HIGH) outs)) as Ht.
  { intros u x Hu. split.
    - unfold toggle. rewrite bind_gets, Hu. reflexivity.
    - rewrite obj_poke. destruct (decide (this = this)); [|contradiction].
      rewrite Hu. reflexivity. }
  destruct (Ht w v Ho) as [E1 O1].
  destruct (Ht _ _ O1) as [E2 O2].
  eexists _, _. split; [exact E1|]. split.
  { unfold read. rewrite O1. simpl. destruct (Z.eqb v HIGH); [left|right]; reflexivity. }
  split; [exact E2|]. split.
  - intros Hs.
    assert ((if Z.eqb (if Z.eqb v HIGH then LOW else HIGH) HIGH then LOW else HIGH) = v) as Ev
        by (destruct Hs as [-> | ->]; reflexivity).
    rewrite Ev.
    assert (same_wiring w (poke this (if Z.eqb v HIGH then LOW else HIGH) w)) as _
        by apply poke_same_wiring.
    transitivity (poke this v w).
    + unfold poke, upd_heap, set_value. simpl. f_equal.
      apply map_eq. intros r. destruct (decide (this = r)) as [<-|Hne].
      * rewrite !lookup_alter_eq. unfold obj in Ho. rewrite Ho. reflexivity.
      * rewrite !lookup_alter_ne by exact Hne. reflexivity.
    + apply poke_id.
      * rewrite Ho. discriminate.
      * unfold read. rewrite Ho. reflexivity.
  - intros Hs. unfold read. rewrite O2. simpl.
    destruct (Z.eqb v HIGH) eqn:E.
    + exfalso. apply Hs. right. apply Z.eqb_eq. exact E.
    + reflexivity.
Qed.

Lemma toggle_twice_witness :
  exists w1 w2,
    toggle 1 nand_world = (Return tt, w1) /\ is_signal (read w1 1)
    /\ toggle 1 w1 = (Return tt, w2)
    /\ (is_signal LOW -> w2 = nand_world)
    /\ (~ is_signal LOW -> read w2 1 = LOW).
Proof. apply (toggle_twice nand_world 1 "In1" LOW [3]). reflexivity. Defined.

(** ** Gates *)

Lemma nand_loop_drop w ins : forall k i,
  (i + k = length ins)%nat ->
  nand_loop w ins i k
  = if forallb (fun s => negb (Z.eqb (read w s) LOW)) (drop i ins) then HIGH else LOW.
Proof.
  induction k as [|k IH]; intros i Hik; simpl.
  - rewrite drop_ge by lia. reflexivity.
  - destruct (lookup_lt_is_Some_2 ins i ltac:(lia)) as [s Hs].
    rewrite (drop_S _ _ _ Hs). simpl. rewrite getInputValue_read, Hs.
    destruct (Z.eqb (read w s) LOW); simpl; [reflexivity|].
    apply IH. lia.
Qed.

(** [NAndGate.evaluate] computes a conjunction over the inputs that are
    connected, whatever [maxInputs] is: with no input it caches LOW, and
    otherwise it caches HIGH exactly when no connected input reads LOW,
    and LOW exactly when some connected input reads LOW. *)
Theorem nand_gate_evaluate (w : World) (g : ref) n ins ov outs mx :
  obj w g = Some (Gate NAndGate n ins ov outs mx) ->
  exists v,
    evaluate g w = (Return v, poke g v w)
    /\ obj (poke g v w) g = Some (Gate NAndGate n ins v outs mx)
    /\ (ins = [] -> v = LOW)
    /\ (ins <> [] ->
        (v = HIGH <-> forall s, s ∈ ins -> read w s <> LOW)
        /\ (v = LOW <-> exists s, s ∈ ins /\ read w s = LOW)).
Proof.
  intros Hg.
  destruct (evaluate_value w NAndGate ins mx) as [v|] eqn:Hv;
    [|simpl in Hv; destruct (Nat.eqb _ _); discriminate].
  exists v. destruct (evaluate_gate_value _ _ _ _ _ _ _ _ _ Hg Hv) as [He Ho].
  split; [exact He|]. split; [exact Ho|]. split.
  - intros ->. simpl in Hv. congruence.
  - intros Hne.
    assert (Nat.eqb (length ins) 0 = false) as El
        by (destruct ins; [contradiction|reflexivity]).
    unfold evaluate_value in Hv. rewrite El in Hv.
    rewrite (nand_loop_drop w ins (length ins) 0 eq_refl), drop_0 in Hv.
    injection Hv as <-.
    destruct (forallb (fun s => negb (Z.eqb (read w s) LOW)) ins) eqn:Ef.
    + rewrite forallb_forall in Ef. split; split; try discriminate; try reflexivity.
      * intros _ s Hs%list_elem_of_In. specialize (Ef s Hs).
        apply negb_true_iff, Z.eqb_neq in Ef. exact Ef.
      * intros (s & Hs%list_elem_of_In & Hl). specialize (Ef s Hs).
        apply negb_true_iff, Z.eqb_neq in Ef. contradiction.
    + assert (exists s, s ∈ ins /\ read w s = LOW) as Hex.
      { apply not_true_iff_false in Ef. rewrite forallb_forall in Ef.
        destruct (decide (Exists (fun s => read w s = LOW) ins)) as [Hx|Hx].
        - apply Exists_exists in Hx. exact Hx.
        - exfalso. apply Ef. intros s Hs%list_elem_of_In.
          apply negb_true_iff, Z.eqb_neq. intros Hl. apply Hx.
          apply Exists_exists. exists s. split; assumption. }
      split; split; try discriminate; try reflexivity.
      * intros Hall. destruct Hex as (s & Hs & Hl). exfalso. apply (Hall s Hs Hl).
      * intros _. exact Hex.
Qed.

Lemma nand_gate_evaluate_witness :
  exists v,
    evaluate 3 nand_world = (Return v, poke 3 v nand_world)
    /\ obj (poke 3 v nand_world) 3 = Some (Gate NAndGate "NAnd" [0; 1; 2] v [] 3%Z)
    /\ ([0; 1; 2] = [] -> v = LOW)
    /\ ([0; 1; 2] <> [] ->
        (v = HIGH <-> forall s, s ∈ [0; 1; 2] -> read nand_world s <> LOW)
        /\ (v = LOW <-> exists s, s ∈ [0; 1; 2] /\ read nand_world s = LOW)).
Proof. apply (nand_gate_evaluate nand_world 3 "NAnd" [0; 1; 2] LOW []). reflexivity. Defined.

Lemma touched_poke rs r v w : r ∈ rs -> touched rs w (poke r v w).
Proof. intros Hr. apply touched_alter; [exact Hr|apply tag_with_value]. Qed.

Lemma touched_mono rs rs' w w' :
  (forall r, r ∈ rs -> r ∈ rs') -> touched rs w w' -> touched rs' w w'.
Proof.
  intros Hsub (S1 & C1 & T1 & F1). split; [exact S1|]. split; [exact C1|].
  split; [exact T1|]. intros r Hr. apply F1. intros Hin. apply Hr, Hsub, Hin.
Qed.

(** Whatever it does, [evaluate] writes nothing but the cached output of
    its own gate.  On the base class it throws and writes nothing; on an
    object that is no gate it is not a function. *)
Theorem evaluate_frame (w : World) (g : ref) :
  touched [g] w (evaluate g w).2
  /\ same_wiring w (evaluate g w).2
  /\ (forall n ins ov outs mx,
        obj w g = Some (Gate LogicGate n ins ov outs mx) ->
        evaluate g w = (Throw NotImplemented, w))
  /\ (has_evaluate (obj w g) = false -> evaluate g w = (Throw TypeError, w)).
Proof.
  unfold evaluate. rewrite bind_gets. unfold id.
  destruct (obj w g) as [[| |c n ins ov outs mx]|] eqn:Eg;
    try (split; [apply touched_refl|]; split; [apply same_wiring_refl|];
         split; [intros; discriminate|reflexivity]).
  destruct (evaluate_value w c ins mx) as [v|] eqn:Ev.
  - rewrite bind_modify. simpl. split; [apply touched_poke; left|].
    split; [apply poke_same_wiring|]. split; [|discriminate].
    intros n' ins' ov' outs' mx' [= -> _ _ _ _ _]. simpl in Ev. discriminate.
  - split; [apply touched_refl|]. split; [apply same_wiring_refl|].
    split; [reflexivity|discriminate].
Qed.

Lemma poke_poke r v v' w : poke r v (poke r v' w) = poke r v w.
Proof.
  unfold poke, upd_heap, set_value. simpl. f_equal.
  apply map_eq. intros r'. destruct (decide (r = r')) as [<-|Hne].
  - rewrite !lookup_alter_eq. destruct (heap w !! r) as [[| |]|]; reflexivity.
  - rewrite !lookup_alter_ne by exact Hne. reflexivity.
Qed.

(** A gate that does not read its own output is evaluated once and for
    all: a second [evaluate] right after the first returns the same value
    and leaves the world of the first. *)
Theorem evaluate_twice (w : World) (g : ref) c n ins ov outs mx :
  obj w g = Some (Gate c n ins ov outs mx) ->
  c <> LogicGate ->
  g ∉ ins ->
  exists v w1,
    evaluate g w = (Return v, w1) /\ evaluate g w1 = (Return v, w1).
Proof.
  intros Hg Hc Hself.
  assert (evaluable (obj w g)) as He by (rewrite Hg; exact Hc).
  exists (gate_value w g), (poke g (gate_value w g) w).
  split; [apply evaluate_ok; exact He|].
  set (w1 := poke g (gate_value w g) w).
  assert (same_wiring w w1) as Hw by apply poke_same_wiring.
  assert (gate_value w1 g = gate_value w g) as Ev.
  { symmetry. apply gate_value_ext; [exact Hw|].
    intros ins' s Hi Hs. rewrite Hg in Hi. injection Hi as <-.
    symmetry. apply read_poke_ne. intros ->. contradiction. }
  rewrite evaluate_ok by (apply (same_wiring_evaluable w w1 g Hw); exact He).
  rewrite Ev. unfold w1. rewrite poke_poke. reflexivity.
Qed.

Lemma evaluate_twice_witness :
  exists v w1,
    evaluate 3 nand_world = (Return v, w1) /\ evaluate 3 w1 = (Return v, w1).
Proof.
  apply (evaluate_twice nand_world 3 NAndGate "NAnd" [0; 1; 2] LOW [] 3%Z).
  - reflexivity.
  - discriminate.
  - intros H. repeat (inversion H as [|? ? ? H']; clear H; rename H' into H).
Defined.

(** ** Propagation *)

Lemma signals_only_refl rs w : signals_only rs w w.
Proof. split; [apply touched_refl|]. split; [apply same_wiring_refl|reflexivity]. Qed.

Lemma signals_only_trans rs a b c :
  signals_only rs a b -> signals_only rs b c -> signals_only rs a c.
Proof.
  intros (T1 & W1 & I1) (T2 & W2 & I2).
  split; [eapply touched_trans; eassumption|].
  split; [eapply same_wiring_trans; eassumption|].
  intros r Hr. rewrite I2; [apply I1; exact Hr|].
  rewrite (same_wiring_tag a b r W1). exact Hr.
Qed.

Lemma signals_only_mono rs rs' w w' :
  (forall r, r ∈ rs -> r ∈ rs') -> signals_only rs w w' -> signals_only rs' w w'.
Proof.
  intros Hsub (T & W & I). split; [eapply touched_mono; eassumption|]. split; assumption.
Qed.

Lemma signals_only_bind rs {A B} (m : M A) (k : A -> M B) w :
  signals_only rs w (m w).2 ->
  (forall a w1, m w = (Return a, w1) -> signals_only rs w1 (k a w1).2) ->
  signals_only rs w (bind m k w).2.
Proof.
  intros Hm Hk. unfold bind. destruct (m w) as [[a|e] w1] eqn:E; simpl in *; [|exact Hm].
  eapply signals_only_trans; [exact Hm|]. apply Hk. reflexivity.
Qed.

Lemma signals_only_poke r v w :
  tag_of (obj w r) <> TInput -> signals_only [r] w (poke r v w).
Proof.
  intros Ht. split; [apply touched_poke; left|]. split; [apply poke_same_wiring|].
  intros r' Hr'. rewrite obj_poke. destruct (decide (r = r')) as [<-|]; [|reflexivity].
  contradiction.
Qed.

Lemma getOutput_world r w : (getOutput r w).2 = w.
Proof.
  unfold getOutput. rewrite bind_gets. destruct (obj w r) as [[| |]|]; reflexivity.
Qed.

Lemma evaluate_signals_only g w : signals_only [g] w (evaluate g w).2.
Proof.
  unfold evaluate. rewrite bind_gets. unfold id.
  destruct (obj w g) as [[| |c n ins ov outs mx]|] eqn:Eg; try apply signals_only_refl.
  destruct (evaluate_value w c ins mx) as [v|]; [|apply signals_only_refl].
  rewrite bind_modify. simpl. apply signals_only_poke. rewrite Eg. discriminate.
Qed.

Lemma update_signals_only op w : signals_only [op] w (update op w).2.
Proof.
  unfold update. rewrite bind_gets. unfold id.
  destruct (obj w op) as [[|n inp v|]|] eqn:Eo; try apply signals_only_refl.
  assert (forall x, signals_only [op] w (modify (upd_heap (set_value op x)) w).2) as Hp.
  { intros x. apply signals_only_poke. rewrite Eo. discriminate. }
  destruct inp as [s|]; [|apply Hp].
  destruct (obj w s) as [[| |]|]; apply Hp.
Qed.

Lemma evaluate_gate_signals_only g c w : signals_only [g] w (evaluate_gate g c w).2.
Proof.
  unfold evaluate_gate.
  apply signals_only_bind; [rewrite getOutput_world; apply signals_only_refl|].
  intros old w1 _. apply signals_only_bind; [apply evaluate_signals_only|].
  intros v w2 _. apply signals_only_bind; [rewrite getOutput_world; apply signals_only_refl|].
  intros new w3 _. apply signals_only_refl.
Qed.

Lemma evaluate_gates_signals_only gs : forall c w,
  signals_only gs w (evaluate_gates gs c w).2.
Proof.
  induction gs as [|g gs IH]; intros c w; simpl; [apply signals_only_refl|].
  apply signals_only_bind.
  - eapply signals_only_mono; [|apply evaluate_gate_signals_only].
    intros r Hr%list_elem_of_singleton. subst. left.
  - intros c' w1 _. eapply signals_only_mono; [|apply IH]. intros r Hr. right. exact Hr.
Qed.

Lemma forEach_update_signals_only ops : forall w,
  signals_only ops w (forEach ops update w).2.
Proof.
  induction ops as [|op ops IH]; intros w; simpl; [apply signals_only_refl|].
  apply signals_only_bind.
  - eapply signals_only_mono; [|apply update_signals_only].
    intros r Hr%list_elem_of_singleton. subst. left.
  - intros u w1 _. eapply signals_only_mono; [|apply IH]. intros r Hr. right. exact Hr.
Qed.

Lemma update_outputs_signals_only w :
  signals_only (gates (sim w) ++ outputPoints (sim w)) w (update_outputs w).2.
Proof.
  unfold update_outputs. rewrite bind_gets.
  eapply signals_only_mono; [|apply forEach_update_signals_only].
  intros r Hr. apply elem_of_app. right. exact Hr.
Qed.

Lemma pass_signals_only w :
  signals_only (gates (sim w) ++ outputPoints (sim w)) w (pass w).2.
Proof.
  unfold pass. rewrite bind_gets.
  apply signals_only_bind.
  - eapply signals_only_mono; [|apply evaluate_gates_signals_only].
    intros r Hr. apply elem_of_app. left. exact Hr.
  - intros c w1 E.
    assert (sim w1 = sim w) as Sm.
    { pose proof (evaluate_gates_signals_only (gates (sim w)) false w) as (T & _).
      rewrite E in T. apply T. }
    apply signals_only_bind.
    + rewrite <- Sm. apply update_outputs_signals_only.
    + intros u w2 _. apply signals_only_refl.
Qed.

Lemma propagate_loop_signals_only n : forall i w,
  signals_only (gates (sim w) ++ outputPoints (sim w)) w (propagate_loop n i w).2.
Proof.
  induction n as [|n IH]; intros i w; [apply signals_only_refl|].
  rewrite propagate_loop_S. apply signals_only_bind; [apply pass_signals_only|].
  intros c w1 E.
  assert (sim w1 = sim w) as Sm.
  { pose proof (pass_signals_only w) as (T & _). rewrite E in T. apply T. }
  destruct (negb c && Nat.ltb 0 i); [apply signals_only_refl|].
  rewrite <- Sm. apply IH.
Qed.

Lemma propagate_signals_only w :
  signals_only (gates (sim w) ++ outputPoints (sim w)) w (propagate w).2.
Proof.
  unfold propagate. rewrite bind_gets.
  apply signals_only_bind; [apply propagate_loop_signals_only|].
  intros u w1 E.
  assert (sim w1 = sim w) as Sm.
  { pose proof (propagate_loop_signals_only (length (gates (sim w)) + 1) 0 w) as (T & _).
    rewrite E in T. apply T. }
  rewrite <- Sm. apply update_outputs_signals_only.
Qed.

(** However it ends, [propagate] leaves the registry and the console as
    they were, writes to no object other than a tracked gate or a tracked
    output point, never to an input point, and changes nothing but cached
    signals: names, classes, capacities and links stay. *)
Theorem propagate_frame (w : World) :
  let w' := (propagate w).2 in
  sim w' = sim w /\ console w' = console w
  /\ (forall r, r ∉ gates (sim w) -> r ∉ outputPoints (sim w) -> obj w' r = obj w r)
  /\ (forall r, tag_of (obj w r) = TInput -> obj w' r = obj w r)
  /\ (forall r, wiring (obj w' r) = wiring (obj w r)).
Proof.
  destruct (propagate_signals_only w) as ((Sm & Cn & _ & F) & (_ & _ & W) & I).
  simpl. split; [exact Sm|]. split; [exact Cn|]. split; [|split; [exact I|exact W]].
  intros r H1 H2. apply F. intros Hin. apply elem_of_app in Hin as [?|?]; contradiction.
Qed.

Lemma well_tracked_same_wiring w w' :
  same_wiring w w' -> well_tracked w -> well_tracked w'.
Proof.
  intros Hw [G O]. pose proof Hw as (Sm & _). split; rewrite Sm.
  - intros g Hg. apply (same_wiring_evaluable w w' g Hw). auto.
  - intros op Hop. rewrite (same_wiring_tag w w' op Hw). auto.
Qed.

Lemma update_outputs_returns w :
  well_tracked w ->
  update_outputs w = (Return tt, sinks_pure (outputPoints (sim w)) w).
Proof.
  intros [_ O]. unfold update_outputs. rewrite bind_gets. apply forEach_update_ok. exact O.
Qed.

Lemma pass_returns w :
  well_tracked w ->
  exists c w1, pass w = (Return c, w1) /\ same_wiring w w1.
Proof.
  intros WT. pose proof WT as [G O]. unfold pass. rewrite bind_gets.
  erewrite bind_returns; [|apply evaluate_gates_ok; exact G].
  pose proof (gates_pure_same_wiring (gates (sim w)) w) as Hw.
  erewrite bind_returns;
    [|apply update_outputs_returns; apply (well_tracked_same_wiring w _ Hw WT)].
  eexists _, _. split; [reflexivity|].
  eapply same_wiring_trans; [exact Hw|apply sinks_pure_same_wiring].
Qed.

Lemma propagate_loop_returns n : forall i w,
  well_tracked w ->
  exists w1, propagate_loop n i w = (Return tt, w1) /\ same_wiring w w1.
Proof.
  induction n as [|n IH]; intros i w WT.
  - exists w. split; [reflexivity|apply same_wiring_refl].
  - rewrite propagate_loop_S. destruct (pass_returns w WT) as (c & w1 & E & Hw).
    erewrite bind_returns; [|exact E].
    destruct (negb c && Nat.ltb 0 i).
    + exists w1. split; [reflexivity|exact Hw].
    + destruct (IH (S i) w1 (well_tracked_same_wiring w w1 Hw WT)) as (w2 & E2 & Hw2).
      exists w2. split; [exact E2|]. eapply same_wiring_trans; eassumption.
Qed.

(** *** The passes, call by call *)






(** [propagate] returns normally on every circuit whose tracked gates
    implement [evaluate] and whose tracked output points are OutputPoints,
    feedback or not; and it throws at once, before writing anything, when
    the first tracked gate is of the base class. *)
Theorem propagate_returns (w : World) :
  (well_tracked w -> exists w', propagate w = (Return tt, w'))
  /\ (forall g rest n ins ov outs mx,
        gates (sim w) = g :: rest ->
        obj w g = Some (Gate LogicGate n ins ov outs mx) ->
        propagate w = (Throw NotImplemented, w)).
Proof.
  split.
  - intros WT. unfold propagate. rewrite bind_gets.
    destruct (propagate_loop_returns (length (gates (sim w)) + 1) 0 w WT) as (w1 & E & Hw).
    erewrite bind_returns; [|exact E].
    rewrite (update_outputs_returns w1 (well_tracked_same_wiring w w1 Hw WT)).
    eexists. reflexivity.
  - intros g rest n ins ov outs mx Hg Ho.
    unfold propagate. rewrite bind_gets, Nat.add_1_r.
    apply bind_throws. rewrite propagate_loop_S. apply bind_throws.
    unfold pass. rewrite bind_gets, Hg. apply bind_throws. simpl.
    apply bind_throws. unfold evaluate_gate.
    erewrite bind_returns; [|apply getOutput_ok; rewrite Ho; discriminate].
    apply bind_throws. unfold evaluate. rewrite bind_gets. unfold id. rewrite Ho. reflexivity.
Qed.

Lemma propagate_returns_witness :
  (well_tracked feedback_world -> exists w', propagate feedback_world = (Return tt, w'))
  /\ (forall g rest n ins ov outs mx,
        gates (sim feedback_world) = g :: rest ->
        obj feedback_world g = Some (Gate LogicGate n ins ov outs mx) ->
        propagate feedback_world = (Throw NotImplemented, feedback_world)).
Proof. apply (propagate_returns feedback_world). Defined.

(** Two worlds with the same wiring that show the same signal everywhere
    are the same world. *)
Lemma world_ext w w' :
  same_wiring w w' -> (forall r, read w' r = read w r) -> w' = w.
Proof.
  intros (Sm & Cn & W) Hr. destruct w as [h s c], w' as [h' s' c']. simpl in *.
  subst. f_equal. apply map_eq. intros r. specialize (W r). specialize (Hr r).
  unfold read, wiring, cached, obj in *. simpl in *.
  destruct (h' !! r) as [[| |]|], (h !! r) as [[| |]|]; cbn in *;
    try discriminate; try reflexivity;
    injection W; intros; subst; reflexivity.
Qed.

(** The settling of a feed-forward circuit, for the theorems below. *)
Lemma propagate_settled (w : World) (rank : ref -> nat) :
  feed_forward w rank ->
  exists w1,
    propagate w = (Return tt, w1)
    /\ same_wiring w w1
    /\ (forall g, g ∈ gates (sim w) -> read w1 g = gate_value w1 g)
    /\ (forall op, op ∈ outputPoints (sim w) -> read w1 op = source_value w1 op)
    /\ (forall r, r ∉ gates (sim w) -> r ∉ outputPoints (sim w) -> obj w1 r = obj w r).
Proof.
  intros F.
  destruct (loop_settles rank (length (gates (sim w)) + 1) 0 w F) as (wl & El & Hwl & Hsl);
    [intros g _ Hlt; lia|lia|lia|].
  pose proof (feed_forward_same_wiring w wl rank Hwl F) as Fl.
  assert (sim wl = sim w) as Sml by apply Hwl.
  set (w1 := sinks_pure (outputPoints (sim wl)) wl).
  assert (same_wiring wl w1) as Hw1 by apply sinks_pure_same_wiring.
  assert (sim w1 = sim wl) as Sm1 by apply Hw1.
  destruct (sinks_pass rank wl Fl) as (_ & Hkeep & Hfresh). fold w1 in Hkeep, Hfresh.
  assert (propagate w = (Return tt, w1)) as E1.
  { unfold propagate. rewrite bind_gets.
    erewrite bind_returns; [|exact El]. apply (update_outputs_ok rank wl Fl). }
  exists w1. split; [exact E1|].
  split; [eapply same_wiring_trans; eassumption|]. split; [|split].
  - intros g Hg. apply (Hkeep _ Hsl).
    + rewrite Sm1, Sml. exact Hg.
    + apply (ff_bound w rank F g Hg).
  - intros op Hop. apply Hfresh. rewrite Sm1, Sml. exact Hop.
  - intros r H1 H2. pose proof (propagate_signals_only w) as ((_ & _ & _ & Fr) & _).
    rewrite E1 in Fr. apply Fr. intros Hin.
    apply elem_of_app in Hin as [?|?]; contradiction.
Qed.



(** Two settled worlds with the same registry and the same wiring that
    agree outside the tracked gates and output points are equal. *)
Lemma settled_same_registry (w1 w2 : World) (rank : ref -> nat) :
  feed_forward w1 rank ->
  same_wiring w1 w2 ->
  (forall r, r ∉ gates (sim w1) -> r ∉ outputPoints (sim w1) -> read w2 r = read w1 r) ->
  (forall g, g ∈ gates (sim w1) -> read w1 g = gate_value w1 g) ->
  (forall g, g ∈ gates (sim w1) -> read w2 g = gate_value w2 g) ->
  sinks_fresh w1 -> sinks_fresh w2 ->
  w2 = w1.
Proof.
  intros F Hw Hout S1 S2 F1 F2.
  assert (forall k g, g ∈ gates (sim w1) -> (rank g < k)%nat -> read w2 g = read w1 g) as Hg.
  { induction k as [|k IH]; intros g Hin Hlt; [lia|].
    rewrite S1, S2 by exact Hin. symmetry. apply gate_value_ext; [exact Hw|].
    intros ins s Hins Hs. symmetry.
    destruct (ff_inputs w1 rank F g ins s Hin Hins Hs) as [[Hsg Hr]|[Hn1 Hn2]].
    - apply IH; [exact Hsg|lia].
    - apply Hout; assumption. }
  assert (forall g, g ∈ gates (sim w1) -> read w2 g = read w1 g) as Hgates.
  { intros g Hin. apply (Hg (S (rank g))); [exact Hin|lia]. }
  apply (world_ext w1 w2 Hw). intros r.
  destruct (decide (r ∈ outputPoints (sim w1))) as [Hop|Hnop].
  - rewrite F1 by exact Hop.
    assert (sim w2 = sim w1) as Sm by apply Hw.
    rewrite F2 by (rewrite Sm; exact Hop).
    symmetry. apply source_value_ext; [exact Hw|].
    intros i Hi. symmetry. destruct (ff_sinks w1 rank F r Hop) as [_ Hsrc].
    specialize (Hsrc i Hi).
    destruct (decide (i ∈ gates (sim w1))) as [Hig|Hig]; [apply Hgates; exact Hig|].
    apply Hout; assumption.
  - destruct (decide (r ∈ gates (sim w1))) as [Hig|Hig]; [apply Hgates; exact Hig|].
    apply Hout; assumption.
Qed.

(** What a gate would store depends on the objects only. *)
Lemma gate_value_heap w w' g : heap w = heap w' -> gate_value w g = gate_value w' g.
Proof.
  intros E. unfold gate_value, obj. rewrite E.
  destruct (heap w' !! g) as [[| |c nm ins ov outs mx]|]; try reflexivity.
  rewrite (evaluate_value_ext w w' c ins mx); [reflexivity|].
  intros s _. unfold read, obj. rewrite E. reflexivity.
Qed.

(** Under another registry and console a world shows the same signals. *)
Lemma same_circuit_rebase w1 w2 :
  same_circuit w1 w2 ->
  same_wiring w1 (mkWorld (heap w2) (sim w1) (console w1)).
Proof.
  intros (W & _). split; [reflexivity|]. split; [reflexivity|]. exact W.
Qed.

Lemma same_circuit_feed_forward w1 w2 rank :
  same_circuit w1 w2 -> feed_forward w1 rank -> feed_forward w2 rank.
Proof.
  intros C F. pose proof C as (W & Pg & Po & _).
  pose proof (feed_forward_same_wiring _ _ rank (same_circuit_rebase w1 w2 C) F) as [G B I K].
  cbn [sim] in G, B, I, K.
  change (obj (mkWorld (heap w2) (sim w1) (console w1))) with (obj w2) in G, I, K.
  split.
  - intros g Hg. apply G. rewrite <- Pg. exact Hg.
  - intros g Hg. rewrite Pg. apply B. rewrite <- Pg. exact Hg.
  - intros g ins s Hg Hi Hs. rewrite Pg in Hg.
    destruct (I g ins s Hg Hi Hs) as [[H1 H2]|[H1 H2]].
    + left. split; [rewrite Pg; exact H1|exact H2].
    + right. split; [rewrite Pg; exact H1|rewrite Po; exact H2].
  - intros op Hop. rewrite Po in Hop. destruct (K op Hop) as [T Hsrc].
    split; [exact T|]. intros i Hi. rewrite Po. apply Hsrc. exact Hi.
Qed.

(** Two settled worlds of one feed-forward circuit hold the same objects. *)
Lemma settled_same_heap w1 w2 rank :
  feed_forward w1 rank -> same_circuit w1 w2 -> settled w1 -> settled w2 ->
  heap w2 = heap w1.
Proof.
  intros F C [S1 F1] [S2 F2]. pose proof C as (W & Pg & Po & Hout).
  assert (mkWorld (heap w2) (sim w1) (console w1) = w1) as E.
  { apply (settled_same_registry _ _ rank F (same_circuit_rebase w1 w2 C)).
    - exact Hout.
    - exact S1.
    - intros g Hg. cbn [sim] in Hg.
      rewrite (gate_value_heap (mkWorld (heap w2) (sim w1) (console w1)) w2 g eq_refl).
      apply (S2 g). rewrite Pg. exact Hg.
    - exact F1.
    - intros op Hop. cbn [sim] in Hop. change (read w2 op = source_value w2 op).
      apply (F2 op). rewrite Po. exact Hop. }
  apply (f_equal heap) in E. exact E.
Qed.

(** On a feed-forward circuit the settled state is unique, and
    [propagate] reaches it from every registration order and from every
    cached signal.  Take two worlds of one circuit: the same objects up
    to cached signals, the same tracked gates and tracked output points
    listed in any two orders, and the same signals on all other objects.
    If both are settled, they hold the same objects; and in any case
    [propagate] returns normally on both and leaves the same objects
    behind. *)
Theorem settled_unique (w1 w2 : World) (rank : ref -> nat) :
  feed_forward w1 rank ->
  same_circuit w1 w2 ->
  (settled w1 -> settled w2 -> heap w2 = heap w1)
  /\ exists u1 u2,
       propagate w1 = (Return tt, u1)
       /\ propagate w2 = (Return tt, u2)
       /\ settled u1 /\ settled u2
       /\ heap u2 = heap u1.
Proof.
  intros F C. split; [apply (settled_same_heap w1 w2 rank F C)|].
  pose proof C as (W & Pg & Po & Hout).
  pose proof (same_circuit_feed_forward w1 w2 rank C F) as F2.
  destruct (propagate_settled w1 rank F) as (u1 & E1 & Hw1 & G1 & O1 & Fr1).
  destruct (propagate_settled w2 rank F2) as (u2 & E2 & Hw2 & G2 & O2 & Fr2).
  assert (sim u1 = sim w1) as Sm1 by apply Hw1.
  assert (sim u2 = sim w2) as Sm2 by apply Hw2.
  assert (settled u1) as St1.
  { split; [rewrite Sm1; exact G1|]. intros op Hop. rewrite Sm1 in Hop. apply O1. exact Hop. }
  assert (settled u2) as St2.
  { split; [rewrite Sm2; exact G2|]. intros op Hop. rewrite Sm2 in Hop. apply O2. exact Hop. }
  exists u1, u2. split; [exact E1|]. split; [exact E2|]. split; [exact St1|]. split; [exact St2|].
  apply (settled_same_heap u1 u2 rank).
  - apply (feed_forward_same_wiring w1 u1 rank Hw1 F).
  - split; [|split; [|split]].
    + intros r. destruct Hw1 as (_ & _ & W1). destruct Hw2 as (_ & _ & W2).
      rewrite W2, W, W1. reflexivity.
    + rewrite Sm1, Sm2. exact Pg.
    + rewrite Sm1, Sm2. exact Po.
    + rewrite Sm1. intros r Hg Ho. unfold read.
      rewrite (Fr1 r Hg Ho), Fr2.
      * apply (Hout r Hg Ho).
      * rewrite Pg. exact Hg.
      * rewrite Po. exact Ho.
  - exact St1.
  - exact St2.
Qed.

Lemma settled_unique_witness :
  (settled not_and_circuit -> settled not_and_circuit_swapped ->
   heap not_and_circuit_swapped = heap not_and_circuit)
  /\ exists u1 u2,
       propagate not_and_circuit = (Return tt, u1)
       /\ propagate not_and_circuit_swapped = (Return tt, u2)
       /\ settled u1 /\ settled u2
       /\ heap u2 = heap u1.
Proof.
  apply (settled_unique not_and_circuit not_and_circuit_swapped not_and_rank).
  - apply feed_forward_check_sound. vm_compute. reflexivity.
  - split; [|split; [|split]].
    + intros r. unfold wiring, obj. rewrite <- !lookup_fmap. f_equal.
    + apply perm_swap.
    + reflexivity.
    + intros r Hg Ho. unfold read, obj.
      assert (forall k, k <> Not1 -> k <> And1 -> k <> OutputX ->
                heap not_and_circuit_swapped !! k = heap not_and_circuit !! k) as Hk.
      { intros k H1 H2 H3. unfold not_and_circuit_swapped, not_and_circuit, store. simpl.
        destruct (decide (k = InputA)) as [->|Ha]; [rewrite !lookup_insert_eq; reflexivity|].
        rewrite !(lookup_insert_ne _ InputA k) by congruence.
        destruct (decide (k = InputB)) as [->|Hb]; [rewrite !lookup_insert_eq; reflexivity|].
        rewrite !(lookup_insert_ne _ InputB k) by congruence.
        rewrite !(lookup_insert_ne _ Not1 k) by congruence.
        rewrite !(lookup_insert_ne _ And1 k) by congruence.
        rewrite !(lookup_insert_ne _ OutputX k) by congruence.
        reflexivity. }
      rewrite Hk; [reflexivity| | |].
      * intros ->. apply Hg. vm_compute. repeat constructor.
      * intros ->. apply Hg. vm_compute. repeat constructor.
      * intros ->. apply Ho. vm_compute. repeat constructor.
Defined.

(** ** Linking a source and a gate *)

Lemma without_absent x (l : list ref) : x ∉ l -> without x l = l.
Proof.
  intros Hx. unfold without. induction l as [|y l IH]; [reflexivity|].
  rewrite filter_cons. destruct (decide (y <> x)) as [|Heq].
  - f_equal. apply IH. intros Hin. apply Hx. right. exact Hin.
  - exfalso. apply Hx. destruct (decide (y = x)) as [->|]; [left|contradiction].
Qed.

Lemma without_push x (l : list ref) : x ∉ l -> without x (l ++ [x]) = l.
Proof.
  intros Hx. unfold without. rewrite filter_app. fold (without x l).
  rewrite (without_absent x l Hx), filter_cons.
  destruct (decide (x <> x)); [contradiction|]. rewrite filter_nil. apply app_nil_r.
Qed.

Lemma not_elem_of_without x (l : list ref) : x ∉ without x l.
Proof. unfold without. intros H. apply list_elem_of_filter in H as [H _]. contradiction. Qed.

Lemma heap_alter_swap (f g : node -> node) a b (h : gmap ref node) :
  (forall n, f (g n) = g (f n)) -> alter f a (alter g b h) = alter g b (alter f a h).
Proof.
  intros Hc. apply map_eq. intros r.
  destruct (decide (a = r)) as [<-|Ha], (decide (b = a)) as [->|Hb];
    rewrite ?lookup_alter_eq, ?lookup_alter_ne, ?lookup_alter_eq by congruence.
  - destruct (h !! a); simpl; [rewrite Hc|]; reflexivity.
  - reflexivity.
  - reflexivity.
  - destruct (decide (b = r)) as [<-|Hbr].
    + rewrite !lookup_alter_eq, lookup_alter_ne by congruence. reflexivity.
    + rewrite !lookup_alter_ne by congruence. reflexivity.
Qed.

Lemma obj_set_outputs w r l r' :
  obj (upd_heap (set_outputs r l) w) r'
  = if decide (r = r') then with_outputs l <$> obj w r' else obj w r'.
Proof. apply obj_alter. Qed.

Lemma obj_set_inputs w r l r' :
  obj (upd_heap (set_inputs r l) w) r'
  = if decide (r = r') then with_inputs l <$> obj w r' else obj w r'.
Proof. apply obj_alter. Qed.

(** The gate [g] of [w] after [this.outputs = l] on [s]: the same gate,
    with [l] for outputs when [s] is [g] itself. *)
Lemma gate_after_set_outputs w s l g c n ins ov gouts mx :
  obj w g = Some (Gate c n ins ov gouts mx) ->
  exists gouts', obj (upd_heap (set_outputs s l) w) g = Some (Gate c n ins ov gouts' mx).
Proof.
  intros Hg. rewrite obj_set_outputs. destruct (decide (s = g)); rewrite Hg; eexists; reflexivity.
Qed.

Lemma outputs_after_set_inputs w g l s :
  outputs_of (obj (upd_heap (set_inputs g l) w) s) = outputs_of (obj w s).
Proof.
  rewrite obj_set_inputs. destruct (decide (g = s)); [|reflexivity].
  destruct (obj w s) as [[| |]|]; reflexivity.
Qed.

Lemma outputs_after_set_outputs w s l :
  outputs_of (obj w s) <> None ->
  outputs_of (obj (upd_heap (set_outputs s l) w) s) = Some l.
Proof.
  intros H. rewrite obj_set_outputs. destruct (decide (s = s)); [|contradiction].
  destruct (obj w s) as [[| |]|]; simpl in *; try reflexivity; contradiction.
Qed.

(** Linking an unlinked source to a gate that has room gives the same
    world whether it is started from the source ([source.addOutput(gate)])
    or from the gate ([gate.addInput(source)]): both return normally at
    any stack depth of at least 3, and the link is recorded on both sides. *)
Theorem link_either_way (fuel : nat) (w : World) (s g : ref) outs c n ins ov gouts mx :
  outputs_of (obj w s) = Some outs ->
  obj w g = Some (Gate c n ins ov gouts mx) ->
  g ∉ outs -> s ∉ ins -> (Z.of_nat (length ins) < mx)%Z ->
  (3 <= fuel)%nat ->
  let w' := upd_heap (set_inputs g (ins ++ [s])) (upd_heap (set_outputs s (outs ++ [g])) w) in
  addOutput fuel s g w = (Return tt, w')
  /\ addInput fuel g s w = (Return tt, w')
  /\ outputs_of (obj w' s) = Some (outs ++ [g])
  /\ inputs_of (obj w' g) = Some (ins ++ [s]).
Proof.
  intros Ho Hg Hgo Hsi Hroom Hfuel w'.
  destruct fuel as [|[|[|k]]]; try lia.
  apply includes_false in Hgo. apply includes_false in Hsi.
  apply Z.ltb_lt in Hroom.
  assert (has_addOutput (obj w s) = true) as Hcap
      by (destruct (obj w s) as [[| |]|]; try discriminate; reflexivity).
  assert (outputs_of (obj w' s) = Some (outs ++ [g])) as Ho'.
  { unfold w'. rewrite outputs_after_set_inputs. apply outputs_after_set_outputs.
    rewrite Ho. discriminate. }
  assert (inputs_of (obj w' g) = Some (ins ++ [s])) as Hi'.
  { unfold w'. destruct (gate_after_set_outputs w s (outs ++ [g]) g _ _ _ _ _ _ Hg) as (go' & E).
    rewrite obj_set_inputs. destruct (decide (g = g)); [|contradiction]. rewrite E. reflexivity. }
  split; [|split; [|split; [exact Ho'|exact Hi']]].
  - rewrite addOutput_S, bind_gets, Ho, Hgo, bind_modify, bind_gets.
    destruct (gate_after_set_outputs w s (outs ++ [g]) g _ _ _ _ _ _ Hg) as (go' & E).
    rewrite E. cbn [has_addInput inputs_of]. rewrite Hsi.
    rewrite addInput_S, bind_gets, E, Hroom, Hsi, bind_modify, bind_gets.
    fold w'.
    assert (has_addOutput (obj w' s) = true) as ->
        by (destruct (obj w' s) as [[| |]|]; try discriminate; reflexivity).
    rewrite addOutput_S, bind_gets, Ho'.
    assert (includes (outs ++ [g]) g = true) as ->.
    { apply includes_true, elem_of_app. right. left. }
    reflexivity.
  - rewrite addInput_S, bind_gets, Hg, Hroom, Hsi, bind_modify, bind_gets.
    set (w1 := upd_heap (set_inputs g (ins ++ [s])) w).
    assert (outputs_of (obj w1 s) = Some outs) as Ho1
        by (unfold w1; rewrite outputs_after_set_inputs; exact Ho).
    assert (has_addOutput (obj w1 s) = true) as ->
        by (destruct (obj w1 s) as [[| |]|]; try discriminate; reflexivity).
    rewrite addOutput_S, bind_gets, Ho1, Hgo, bind_modify, bind_gets.
    assert (upd_heap (set_outputs s (outs ++ [g])) w1 = w') as ->.
    { unfold w', w1, upd_heap, set_outputs, set_inputs. simpl. f_equal.
      apply heap_alter_swap. intros [| |]; reflexivity. }
    assert (has_addInput (obj w' g) = true) as ->
        by (destruct (obj w' g) as [[| |]|]; try discriminate; reflexivity).
    rewrite Hi'.
    assert (includes (ins ++ [s]) s = true) as ->.
    { apply includes_true, elem_of_app. right. left. }
    reflexivity.
Qed.

Lemma link_either_way_witness :
  let w' := upd_heap (set_inputs And1 ([] ++ [InputA]))
                     (upd_heap (set_outputs InputA ([] ++ [And1])) and_circuit_start) in
  addOutput 3 InputA And1 and_circuit_start = (Return tt, w')
  /\ addInput 3 And1 InputA and_circuit_start = (Return tt, w')
  /\ outputs_of (obj w' InputA) = Some ([] ++ [And1])
  /\ inputs_of (obj w' And1) = Some ([] ++ [InputA]).
Proof.
  apply (link_either_way 3 and_circuit_start InputA And1 [] AndGate "And1" [] LOW [] 2%Z).
  - reflexivity.
  - reflexivity.
  - apply not_elem_of_nil.
  - apply not_elem_of_nil.
  - simpl. lia.
  - lia.
Defined.

(** ** Output points as targets *)

Lemma obj_set_input w r i r' :
  obj (upd_heap (set_input r i) w) r'
  = if decide (r = r') then with_input i <$> obj w r' else obj w r'.
Proof. apply obj_alter. Qed.

Lemma has_addOutput_outputs o outs : outputs_of o = Some outs -> has_addOutput o = true.
Proof. destruct o as [[| |]|]; try discriminate; reflexivity. Qed.

(** A source with an [outputs] array is no output point. *)
Lemma source_not_sink w s op outs nm inp v :
  outputs_of (obj w s) = Some outs -> obj w op = Some (OutputPoint nm inp v) -> s <> op.
Proof. intros Ho Hop ->. rewrite Hop in Ho. discriminate. Qed.

(** [source.addOutput(outputPoint)] for an output point not yet among the
    source's outputs: the push is done, then [destination.inputs] is
    undefined. *)
Lemma addOutput_sink_throws n w s op outs nm inp v :
  outputs_of (obj w s) = Some outs ->
  obj w op = Some (OutputPoint nm inp v) ->
  op ∉ outs ->
  addOutput (S n) s op w = (Throw TypeError, upd_heap (set_outputs s (outs ++ [op])) w).
Proof.
  intros Ho Hop Hout. pose proof (source_not_sink _ _ _ _ _ _ _ Ho Hop) as Hne.
  apply includes_false in Hout.
  rewrite addOutput_S, bind_gets, Ho, Hout, bind_modify, bind_gets, obj_set_outputs.
  destruct (decide (s = op)); [contradiction|]. rewrite Hop. reflexivity.
Qed.

(** [connect(source, outputPoint)], both registered, for a source that
    does not yet list the output point: at any stack depth of at least 1
    the call throws a TypeError.  By then the source lists the output
    point; the output point itself is as it was (its slot is not set), and
    [propagate] has not run. *)
Theorem connect_to_sink_throws (fuel : nat) (w : World) (s op : ref) outs nm inp v :
  s ∈ components (sim w) -> op ∈ components (sim w) ->
  outputs_of (obj w s) = Some outs ->
  obj w op = Some (OutputPoint nm inp v) ->
  op ∉ outs ->
  (1 <= fuel)%nat ->
  let w' := upd_heap (set_outputs s (outs ++ [op])) w in
  connect fuel s op w = (Throw TypeError, w')
  /\ outputs_of (obj w' s) = Some (outs ++ [op])
  /\ obj w' op = Some (OutputPoint nm inp v).
Proof.
  intros Hs Hop Ho Hobj Hout Hfuel w'. destruct fuel as [|n]; [lia|].
  pose proof (source_not_sink _ _ _ _ _ _ _ Ho Hobj) as Hne.
  split; [|split].
  - unfold connect. rewrite bind_gets. unfold id.
    apply includes_true in Hs. apply includes_true in Hop. rewrite Hs, Hop.
    cbn [negb orb]. rewrite (has_addOutput_outputs _ _ Ho), Hobj. cbn [has_addInput andb].
    apply bind_throws. eapply addOutput_sink_throws; eassumption.
  - apply outputs_after_set_outputs. rewrite Ho. discriminate.
  - unfold w'. rewrite obj_set_outputs. destruct (decide (s = op)); [contradiction|exact Hobj].
Qed.

Lemma connect_to_sink_throws_witness :
  let w' := upd_heap (set_outputs InputA ([Not1] ++ [OutputX])) scenario_stopped in
  connect 1 InputA OutputX scenario_stopped = (Throw TypeError, w')
  /\ outputs_of (obj w' InputA) = Some ([Not1] ++ [OutputX])
  /\ obj w' OutputX = Some (OutputPoint "OutputX" None LOW).
Proof.
  apply (connect_to_sink_throws 1 scenario_stopped InputA OutputX [Not1] "OutputX" None LOW).
  - vm_compute. repeat constructor.
  - vm_compute. repeat constructor.
  - reflexivity.
  - reflexivity.
  - vm_compute. intros H. repeat (inversion H as [|? ? ? H']; clear H; rename H' into H).
  - lia.
Defined.

(** [outputPoint.addInput(source)] on an output point whose slot is empty,
    for a source that has an [outputs] array.  If the source does not yet
    list the output point, the slot is set and the source lists the output
    point, then a TypeError is thrown and [update] is skipped: the value
    stays.  If the source lists it already, the call returns with the slot
    set and the value refreshed from the source. *)
Theorem sink_addInput (fuel : nat) (w : World) (op s : ref) nm v outs :
  obj w op = Some (OutputPoint nm None v) ->
  outputs_of (obj w s) = Some outs ->
  (2 <= fuel)%nat ->
  (op ∉ outs ->
     addInput fuel op s w
     = (Throw TypeError,
        upd_heap (set_outputs s (outs ++ [op])) (upd_heap (set_input op (Some s)) w)))
  /\ (op ∈ outs ->
     addInput fuel op s w
     = (Return tt, poke op (read w s) (upd_heap (set_input op (Some s)) w))).
Proof.
  intros Hop Ho Hfuel. destruct fuel as [|[|n]]; try lia.
  pose proof (source_not_sink _ _ _ _ _ _ _ Ho Hop) as Hne.
  set (w1 := upd_heap (set_input op (Some s)) w).
  assert (obj w1 s = obj w s) as Es.
  { unfold w1. rewrite obj_set_input. destruct (decide (op = s)); [congruence|reflexivity]. }
  assert (obj w1 op = Some (OutputPoint nm (Some s) v)) as Eop.
  { unfold w1. rewrite obj_set_input. destruct (decide (op = op)); [|contradiction].
    rewrite Hop. reflexivity. }
  split; intros Hin.
  - rewrite addInput_S, bind_gets, Hop.
    rewrite bind_ret, bind_modify, bind_gets. fold w1.
    apply bind_throws. rewrite Es, (has_addOutput_outputs _ _ Ho), Ho.
    apply includes_false in Hin. rewrite Hin.
    apply addOutput_sink_throws with (nm := nm) (inp := Some s) (v := v).
    + rewrite Es. exact Ho.
    + exact Eop.
    + apply includes_false. exact Hin.
  - rewrite addInput_S, bind_gets, Hop.
    rewrite bind_ret, bind_modify, bind_gets. fold w1.
    rewrite Es, (has_addOutput_outputs _ _ Ho), Ho.
    apply includes_true in Hin. rewrite Hin, bind_ret.
    unfold update. rewrite bind_gets. unfold id. rewrite Eop, Es.
    unfold read, poke. destruct (obj w s) as [[| |]|]; try discriminate; reflexivity.
Qed.

Lemma sink_addInput_witness :
  (OutputX ∉ [Not1] ->
     addInput 2 OutputX InputA scenario_stopped
     = (Throw TypeError,
        upd_heap (set_outputs InputA ([Not1] ++ [OutputX]))
                 (upd_heap (set_input OutputX (Some InputA)) scenario_stopped)))
  /\ (OutputX ∈ [Not1] ->
     addInput 2 OutputX InputA scenario_stopped
     = (Return tt, poke OutputX (read scenario_stopped InputA)
                        (upd_heap (set_input OutputX (Some InputA)) scenario_stopped))).
Proof.
  apply (sink_addInput 2 scenario_stopped OutputX InputA "OutputX" LOW [Not1]).
  - reflexivity.
  - reflexivity.
  - lia.
Defined.

(** ** Unlinking *)

Lemma upd_heap_id f w : f (heap w) = heap w -> upd_heap f w = w.
Proof. destruct w as [h s c]. unfold upd_heap. simpl. intros ->. reflexivity. Qed.

Lemma set_outputs_same w s outs :
  outputs_of (obj w s) = Some outs -> upd_heap (set_outputs s outs) w = w.
Proof.
  intros H. apply upd_heap_id, alter_id. intros x Hx. unfold obj in H. rewrite Hx in H.
  destruct x; simpl in *; congruence.
Qed.

Lemma set_inputs_same w g ins :
  inputs_of (obj w g) = Some ins -> upd_heap (set_inputs g ins) w = w.
Proof.
  intros H. apply upd_heap_id, alter_id. intros x Hx. unfold obj in H. rewrite Hx in H.
  destruct x; simpl in *; congruence.
Qed.

Lemma lookup_alter_dec (f : node -> node) i (m : gmap ref node) r :
  alter f i m !! r = if decide (i = r) then f <$> m !! r else m !! r.
Proof.
  destruct (decide (i = r)) as [<-|Hne]; [apply lookup_alter_eq|apply lookup_alter_ne; exact Hne].
Qed.

(** A source and a gate with no link between them: the two unlinking
    methods call each other without writing anything, until the stack is
    exhausted. *)
Lemma unlinked_gate_overflows (n : nat) : forall w s g outs c nm ins ov gouts mx,
  outputs_of (obj w s) = Some outs -> g ∉ outs ->
  obj w g = Some (Gate c nm ins ov gouts mx) -> s ∉ ins ->
  removeOutput n s g w = (Throw RangeError, w)
  /\ removeInput n g s w = (Throw RangeError, w).
Proof.
  induction n as [|n IH]; intros w s g outs c nm ins ov gouts mx Ho Hg Hobj Hs.
  - split; reflexivity.
  - destruct (IH w s g outs c nm ins ov gouts mx Ho Hg Hobj Hs) as [IHo IHi]. split.
    + rewrite removeOutput_S, bind_gets, Ho, bind_modify, bind_gets.
      rewrite (without_absent g outs Hg), (set_outputs_same w s outs Ho), Hobj.
      exact IHi.
    + rewrite removeInput_S, bind_gets, Hobj, bind_modify, bind_gets.
      rewrite (without_absent s ins Hs), (set_inputs_same w g ins) by (rewrite Hobj; reflexivity).
      assert (has_removeOutput (obj w s) = true) as -> by (eapply has_addOutput_outputs; exact Ho).
      exact IHo.
Qed.

(** The world after the first two steps of unlinking [s] and gate [g]. *)
Lemma unlink_gate_steps n w s g outs c nm ins ov gouts mx :
  outputs_of (obj w s) = Some outs ->
  obj w g = Some (Gate c nm ins ov gouts mx) ->
  let w' := upd_heap (set_inputs g (without s ins))
                     (upd_heap (set_outputs s (without g outs)) w) in
  removeOutput (S (S n)) s g w = (Throw RangeError, w')
  /\ outputs_of (obj w' s) = Some (without g outs)
  /\ inputs_of (obj w' g) = Some (without s ins).
Proof.
  intros Ho Hg w'.
  destruct (gate_after_set_outputs w s (without g outs) g _ _ _ _ _ _ Hg) as (go' & E).
  assert (outputs_of (obj w' s) = Some (without g outs)) as Ho'.
  { unfold w'. rewrite outputs_after_set_inputs. apply outputs_after_set_outputs.
    rewrite Ho. discriminate. }
  assert (obj w' g = Some (Gate c nm (without s ins) ov go' mx)) as Hg'.
  { unfold w'. rewrite obj_set_inputs. destruct (decide (g = g)); [|contradiction].
    rewrite E. reflexivity. }
  split; [|split; [exact Ho'|rewrite Hg'; reflexivity]].
  rewrite removeOutput_S, bind_gets, Ho, bind_modify, bind_gets, E.
  cbn [has_removeInput has_addInput].
  rewrite removeInput_S, bind_gets, E, bind_modify, bind_gets. fold w'.
  assert (has_removeOutput (obj w' s) = true) as -> by (eapply has_addOutput_outputs; exact Ho').
  eapply unlinked_gate_overflows.
  - exact Ho'.
  - apply not_elem_of_without.
  - exact Hg'.
  - apply not_elem_of_without.
Qed.

(** [disconnect] on a source and a gate, in one equation. *)
Lemma disconnect_gate_steps_world n w s g outs c nm ins ov gouts mx :
  outputs_of (obj w s) = Some outs ->
  obj w g = Some (Gate c nm ins ov gouts mx) ->
  disconnect (S (S n)) s g w
  = (Throw RangeError,
     upd_heap (set_inputs g (without s ins)) (upd_heap (set_outputs s (without g outs)) w)).
Proof.
  intros Ho Hg.
  destruct (unlink_gate_steps n w s g _ _ _ _ _ _ _ Ho Hg) as (E & _).
  unfold disconnect. rewrite bind_gets. unfold id.
  assert (has_removeOutput (obj w s) = true) as -> by (eapply has_addOutput_outputs; exact Ho).
  apply bind_throws. exact E.
Qed.

(** [disconnect(source, gate)] never returns normally.  For a source with
    an [outputs] array and a gate, linked or not, at any stack depth of at
    least 2 the call ends in a RangeError: the two sides filter each other
    out of their arrays and then [removeOutput] and [removeInput] keep
    calling each other.  The world left behind has the link removed on
    both sides and nothing else changed; [propagate] has not run. *)
Theorem disconnect_gate_overflows (fuel : nat) (w : World) (s g : ref)
    outs c nm ins ov gouts mx :
  outputs_of (obj w s) = Some outs ->
  obj w g = Some (Gate c nm ins ov gouts mx) ->
  (2 <= fuel)%nat ->
  let w' := upd_heap (set_inputs g (without s ins))
                     (upd_heap (set_outputs s (without g outs)) w) in
  disconnect fuel s g w = (Throw RangeError, w')
  /\ outputs_of (obj w' s) = Some (without g outs)
  /\ inputs_of (obj w' g) = Some (without s ins).
Proof.
  intros Ho Hg Hfuel w'. destruct fuel as [|[|n]]; try lia.
  destruct (unlink_gate_steps n w s g _ _ _ _ _ _ _ Ho Hg) as (E & Ho' & Hg').
  split; [|split; [exact Ho'|exact Hg']].
  unfold disconnect. rewrite bind_gets. unfold id.
  assert (has_removeOutput (obj w s) = true) as -> by (eapply has_addOutput_outputs; exact Ho).
  apply bind_throws. exact E.
Qed.

Lemma disconnect_gate_overflows_witness :
  let w' := upd_heap (set_inputs And1 (without InputA [InputA; InputB]))
                     (upd_heap (set_outputs InputA (without And1 [And1])) and_circuit) in
  disconnect 2 InputA And1 and_circuit = (Throw RangeError, w')
  /\ outputs_of (obj w' InputA) = Some (without And1 [And1])
  /\ inputs_of (obj w' And1) = Some (without InputA [InputA; InputB]).
Proof.
  apply (disconnect_gate_overflows 2 and_circuit InputA And1
           [And1] AndGate "And1" [InputA; InputB] LOW [] 2%Z).
  - reflexivity.
  - reflexivity.
  - lia.
Defined.

(** Linking and then disconnecting undoes the link exactly: from a source
    and a gate with room that are not linked, [source.addOutput(gate)]
    followed by [disconnect(source, gate)] ends in the world it started
    from, with the RangeError of [disconnect] as its outcome. *)
Theorem link_then_disconnect (fuel : nat) (w : World) (s g : ref)
    outs c n ins ov gouts mx :
  outputs_of (obj w s) = Some outs ->
  obj w g = Some (Gate c n ins ov gouts mx) ->
  g ∉ outs -> s ∉ ins -> (Z.of_nat (length ins) < mx)%Z ->
  (3 <= fuel)%nat ->
  (addOutput fuel s g ;; disconnect fuel s g) w = (Throw RangeError, w).
Proof.
  intros Ho Hg Hgo Hsi Hroom Hfuel.
  destruct fuel as [|[|[|k]]]; try lia.
  apply includes_false in Hgo. apply includes_false in Hsi. apply Z.ltb_lt in Hroom.
  set (w1 := upd_heap (set_outputs s (outs ++ [g])) w).
  set (w2 := upd_heap (set_inputs g (ins ++ [s])) w1).
  destruct (gate_after_set_outputs w s (outs ++ [g]) g _ _ _ _ _ _ Hg) as (go' & E).
  fold w1 in E.
  assert (outputs_of (obj w2 s) = Some (outs ++ [g])) as Ho2.
  { unfold w2, w1. rewrite outputs_after_set_inputs. apply outputs_after_set_outputs.
    rewrite Ho. discriminate. }
  assert (obj w2 g = Some (Gate c n (ins ++ [s]) ov go' mx)) as Hg2.
  { unfold w2. rewrite obj_set_inputs. destruct (decide (g = g)); [|contradiction].
    rewrite E. reflexivity. }
  assert (addOutput (S (S (S k))) s g w = (Return tt, w2)) as Eadd.
  { rewrite addOutput_S, bind_gets, Ho, Hgo, bind_modify, bind_gets. fold w1.
    rewrite E. cbn [has_addInput inputs_of]. rewrite Hsi.
    rewrite addInput_S, bind_gets, E, Hroom, Hsi, bind_modify, bind_gets. fold w2.
    rewrite (has_addOutput_outputs _ _ Ho2).
    rewrite addOutput_S, bind_gets, Ho2.
    assert (includes (outs ++ [g]) g = true) as ->.
    { apply includes_true, elem_of_app. right. left. }
    reflexivity. }
  rewrite (bind_returns _ _ _ _ _ Eadd).
  pose proof (disconnect_gate_steps_world (S k) w2 s g _ _ _ _ _ _ _ Ho2 Hg2) as E2.
  rewrite E2. f_equal.
  apply includes_false in Hgo. apply includes_false in Hsi.
  rewrite (without_push g outs Hgo), (without_push s ins Hsi).
  destruct w as [h sm cn]. unfold w2, w1, upd_heap, set_inputs, set_outputs. simpl. f_equal.
  apply map_eq. intros r. rewrite !lookup_alter_dec.
  unfold obj in Ho, Hg. simpl in Ho, Hg.
  destruct (decide (g = r)) as [Egr|Hgr], (decide (s = r)) as [Esr|Hsr]; subst.
  - rewrite Hg in *. simpl in *. injection Ho as <-. reflexivity.
  - rewrite Hg. reflexivity.
  - destruct (h !! r) as [[| |]|]; simpl in *; try discriminate; congruence.
  - reflexivity.
Qed.

Lemma link_then_disconnect_witness :
  (addOutput 3 InputA And1 ;; disconnect 3 InputA And1) and_circuit_start
  = (Throw RangeError, and_circuit_start).
Proof.
  apply (link_then_disconnect 3 and_circuit_start InputA And1 [] AndGate "And1" [] LOW [] 2%Z).
  - reflexivity.
  - reflexivity.
  - apply not_elem_of_nil.
  - apply not_elem_of_nil.
  - simpl. lia.
  - lia.
Defined.

(** An output point whose slot holds [s], while [s] does not list it: the
    two unlinking methods call each other without writing anything. *)
Lemma unlinked_sink_overflows (n : nat) : forall w s op outs nm v,
  outputs_of (obj w s) = Some outs -> op ∉ outs ->
  obj w op = Some (OutputPoint nm (Some s) v) ->
  removeOutput n s op w = (Throw RangeError, w)
  /\ forall x, removeInput n op x w = (Throw RangeError, w).
Proof.
  induction n as [|n IH]; intros w s op outs nm v Ho Hout Hop.
  - split; [|intros x]; reflexivity.
  - destruct (IH w s op outs nm v Ho Hout Hop) as [IHo IHi]. split.
    + rewrite removeOutput_S, bind_gets, Ho, bind_modify, bind_gets.
      rewrite (without_absent op outs Hout), (set_outputs_same w s outs Ho), Hop.
      apply IHi.
    + intros x. rewrite removeInput_S, bind_gets, Hop.
      apply bind_throws. rewrite bind_gets.
      assert (has_removeOutput (obj w s) = true) as -> by (eapply has_addOutput_outputs; exact Ho).
      exact IHo.
Qed.

(** [disconnect(source, outputPoint)] for an output point whose slot holds
    the source never returns normally: at any stack depth of at least 1 it
    ends in a RangeError.  The source no longer lists the output point,
    but the output point is as it was: its slot still holds the source and
    its value is not reset; [propagate] has not run. *)
Theorem disconnect_sink_overflows (fuel : nat) (w : World) (s op : ref) outs nm v :
  outputs_of (obj w s) = Some outs ->
  obj w op = Some (OutputPoint nm (Some s) v) ->
  (1 <= fuel)%nat ->
  let w' := upd_heap (set_outputs s (without op outs)) w in
  disconnect fuel s op w = (Throw RangeError, w')
  /\ outputs_of (obj w' s) = Some (without op outs)
  /\ obj w' op = Some (OutputPoint nm (Some s) v).
Proof.
  intros Ho Hop Hfuel w'. destruct fuel as [|n]; [lia|].
  pose proof (source_not_sink _ _ _ _ _ _ _ Ho Hop) as Hne.
  assert (outputs_of (obj w' s) = Some (without op outs)) as Ho'.
  { apply outputs_after_set_outputs. rewrite Ho. discriminate. }
  assert (obj w' op = Some (OutputPoint nm (Some s) v)) as Hop'.
  { unfold w'. rewrite obj_set_outputs. destruct (decide (s = op)); [contradiction|exact Hop]. }
  split; [|split; [exact Ho'|exact Hop']].
  unfold disconnect. rewrite bind_gets. unfold id.
  assert (has_removeOutput (obj w s) = true) as -> by (eapply has_addOutput_outputs; exact Ho).
  apply bind_throws.
  rewrite removeOutput_S, bind_gets, Ho, bind_modify, bind_gets. fold w'. rewrite Hop'.
  cbn [has_removeInput has_addInput].
  eapply (unlinked_sink_overflows n w' s op); [exact Ho'|apply not_elem_of_without|exact Hop'].
Qed.

Lemma disconnect_sink_overflows_witness :
  let w' := upd_heap (set_outputs 0 (without 1 [1])) stale_world in
  disconnect 1 0 1 stale_world = (Throw RangeError, w')
  /\ outputs_of (obj w' 0) = Some (without 1 [1])
  /\ obj w' 1 = Some (OutputPoint "OutputX" (Some 0) LOW).
Proof.
  apply (disconnect_sink_overflows 1 stale_world 0 1 [1] "OutputX" LOW).
  - reflexivity.
  - reflexivity.
  - lia.
Defined.

(** ** Removing components *)

(** Detaching [c] from an object that calls back never returns. *)
Lemma detach_calls_back fuel w d c :
  calls_back w d -> has_removeOutput (obj w c) = true ->
  has_removeInput (obj w d) = true
  /\ exists w' rs, removeInput fuel d c w = (Throw RangeError, w') /\ touched rs w w'.
Proof.
  intros [Hd|(i & Hi & Hio)] Hc.
  - split; [destruct (obj w d) as [[| |]|]; try discriminate; reflexivity|].
    destruct (gate_unlink_overflows fuel w d c Hd Hc) as [_ (w' & E & T)].
    exists w', [d; c]. split; assumption.
  - split; [destruct (obj w d) as [[| |]|]; try discriminate; reflexivity|].
    destruct (output_unlink_overflows fuel w d i Hi Hio) as [_ Hx].
    destruct (Hx c) as (w' & E & T). exists w', [i]. split; assumption.
Qed.

(** Removing a gate whose first input has [removeOutput]. *)
Lemma remove_gate_first_input fuel w c cl nm s ins ov outs mx :
  obj w c = Some (Gate cl nm (s :: ins) ov outs mx) ->
  has_removeOutput (obj w s) = true ->
  exists w',
    removeComponent fuel c w = (Throw RangeError, w')
    /\ components (sim w') = without c (components (sim w))
    /\ console w' = console w
    /\ (forall r, tag_of (obj w' r) = tag_of (obj w r)).
Proof.
  intros Hc Hs. unfold removeComponent.
  rewrite bind_modify, bind_gets, obj_upd_sim, Hc.
  assert (String.eqb (constructor_name (Some (Gate cl nm (s :: ins) ov outs mx)))
                     "InputPoint" = false) as -> by (destruct cl; reflexivity).
  assert (String.eqb (constructor_name (Some (Gate cl nm (s :: ins) ov outs mx)))
                     "OutputPoint" = false) as -> by (destruct cl; reflexivity).
  cbn [has_evaluate]. rewrite bind_modify.
  cbn [inputs_of default from_option forEach].
  match goal with |- context [bind _ _ ?u] => set (w2 := u) end.
  destruct (gate_unlink_overflows fuel w2 c s) as [(w' & E & T) _].
  { unfold w2. rewrite !obj_upd_sim, Hc. reflexivity. }
  { exact Hs. }
  exists w'. split.
  - apply bind_throws, bind_throws. rewrite bind_gets.
    assert (has_removeOutput (obj w2 s) = true) as -> by exact Hs. exact E.
  - destruct T as (Sm & Cn & Tg & _). rewrite Sm, Cn. repeat split. exact Tg.
Qed.

(** [removeComponent(c)] never returns normally when the first link it
    detaches calls back: the first output of an input point (or of a gate
    without inputs) that is a gate or a wired output point, the source in
    the slot of an output point, or the first input of a gate.  At every
    stack depth the call ends in a RangeError.  By then [c] is out of
    [components]; nothing was written to the console and no object changed
    class. *)
Theorem removeComponent_linked_overflows (fuel : nat) (w : World) (c : ref) :
  first_link_live w c ->
  exists w',
    removeComponent fuel c w = (Throw RangeError, w')
    /\ components (sim w') = without c (components (sim w))
    /\ console w' = console w
    /\ (forall r, tag_of (obj w' r) = tag_of (obj w r)).
Proof.
  unfold first_link_live. intros Hlive.
  destruct (obj w c) as [[nm v [|d rest]|nm [i|] v|cl nm [|s ins] ov [|d rest] mx]|] eqn:Hc;
    try contradiction.
  - (* an input point *)
    unfold removeComponent. rewrite bind_modify, bind_gets, obj_upd_sim, Hc.
    assert (String.eqb (constructor_name (Some (InputPoint nm v (d :: rest)))) "InputPoint"
            = true) as -> by reflexivity.
    rewrite bind_modify. cbn [outputs_of default from_option forEach].
    match goal with |- context [bind _ _ ?u] => set (w2 := u) end.
    destruct (detach_calls_back fuel w2 d c) as (Hd & w' & rs & E & T).
    { exact Hlive. }
    { unfold w2. rewrite !obj_upd_sim, Hc. reflexivity. }
    exists w'. split.
    + apply bind_throws, bind_throws. rewrite bind_gets, Hd. exact E.
    + destruct T as (Sm & Cn & Tg & _). rewrite Sm, Cn. repeat split. exact Tg.
  - (* an output point *)
    unfold removeComponent. rewrite bind_modify, bind_gets, obj_upd_sim, Hc.
    assert (String.eqb (constructor_name (Some (OutputPoint nm (Some i) v))) "InputPoint"
            = false) as -> by reflexivity.
    assert (String.eqb (constructor_name (Some (OutputPoint nm (Some i) v))) "OutputPoint"
            = true) as -> by reflexivity.
    rewrite bind_modify. cbn [input_of].
    match goal with |- context [bind _ _ ?u] => set (w2 := u) end.
    destruct (output_unlink_overflows fuel w2 c i) as [(w' & E & T) _].
    { unfold w2. rewrite !obj_upd_sim, Hc. reflexivity. }
    { exact Hlive. }
    exists w'. split.
    + apply bind_throws. rewrite bind_gets.
      assert (has_removeOutput (obj w2 i) = true) as -> by exact Hlive. exact E.
    + destruct T as (Sm & Cn & Tg & _). rewrite Sm, Cn. repeat split. exact Tg.
  - (* a gate without inputs *)
    unfold removeComponent. rewrite bind_modify, bind_gets, obj_upd_sim, Hc.
    assert (String.eqb (constructor_name (Some (Gate cl nm [] ov (d :: rest) mx))) "InputPoint"
            = false) as -> by (destruct cl; reflexivity).
    assert (String.eqb (constructor_name (Some (Gate cl nm [] ov (d :: rest) mx))) "OutputPoint"
            = false) as -> by (destruct cl; reflexivity).
    cbn [has_evaluate]. rewrite bind_modify.
    cbn [inputs_of default from_option forEach id]. rewrite bind_ret, bind_modify, bind_gets.
    match goal with |- context [bind _ _ ?u] => set (w3 := u) end.
    assert (forall r, obj w3 r = obj w r) as Hsame.
    { intros r. unfold w3. rewrite obj_set_inputs, !obj_upd_sim.
      destruct (decide (c = r)) as [<-|]; [rewrite Hc|]; reflexivity. }
    rewrite Hsame, Hc. cbn [outputs_of default from_option forEach].
    destruct (detach_calls_back fuel w3 d c) as (Hd & w' & rs & E & T).
    { destruct Hlive as [Hd|(i & Hi & Hio)]; [left|right; exists i];
        rewrite !Hsame; [exact Hd|split; assumption]. }
    { rewrite Hsame, Hc. reflexivity. }
    exists w'. split.
    + apply bind_throws, bind_throws. rewrite bind_gets, Hd. exact E.
    + destruct T as (Sm & Cn & Tg & _). rewrite Sm, Cn.
      split; [reflexivity|]. split; [reflexivity|].
      intros r. rewrite Tg, Hsame. reflexivity.
  - (* a gate with an input and no output *)
    apply (remove_gate_first_input fuel w c cl nm s ins ov [] mx Hc Hlive).
  - (* a gate with an input and an output *)
    apply (remove_gate_first_input fuel w c cl nm s ins ov (d :: rest) mx Hc Hlive).
Qed.

Lemma removeComponent_linked_overflows_witness :
  exists w',
    removeComponent 7 InputA and_circuit = (Throw RangeError, w')
    /\ components (sim w') = without InputA (components (sim and_circuit))
    /\ console w' = console and_circuit
    /\ (forall r, tag_of (obj w' r) = tag_of (obj and_circuit r)).
Proof.
  apply (removeComponent_linked_overflows 7 and_circuit InputA).
  left. reflexivity.
Defined.

(** Registering an object without links and removing it again gives the
    world back, at every stack depth: [removeComponent] returns normally
    when there is nothing to detach. *)
Theorem add_then_remove (fuel : nat) (w : World) (c : ref) :
  c ∉ components (sim w) -> c ∉ inputPoints (sim w) ->
  c ∉ outputPoints (sim w) -> c ∉ gates (sim w) ->
  unlinked_node (obj w c) ->
  (addComponent c ;; removeComponent fuel c) w = (Return tt, w).
Proof.
  intros Hc Hi Ho Hg (Hins & Houts & Hinp).
  assert (forall l, c ∉ l -> without c (l ++ [c]) = l) as Hpush
      by (intros l Hl; apply without_push; exact Hl).
  pose proof (without_absent c _ Hi) as Hi'.
  pose proof (without_absent c _ Ho) as Ho'.
  pose proof (without_absent c _ Hg) as Hg'.
  apply includes_false in Hc as Hinc.
  destruct w as [h [comps ips ops gs] cn]. simpl in *.
  unfold without in Hpush, Hi', Ho', Hg'.
  unfold bind at 1. unfold addComponent. rewrite bind_gets. unfold id. cbn [sim components].
  rewrite Hinc, bind_modify.
  unfold obj in *. cbn [heap] in *.
  destruct (h !! c) as [[nm v outs|nm inp v|cl nm ins ov outs mx]|] eqn:Ec; simpl in Hins, Houts, Hinp.
  - subst outs.
    assert (String.eqb (constructor_name (Some (InputPoint nm v []))) "InputPoint" = true)
      as -> by reflexivity.
    unfold modify at 1. cbv beta iota.
    unfold removeComponent. rewrite bind_modify, bind_gets.
    unfold obj, upd_sim. cbn [heap sim console]. rewrite Ec.
    assert (String.eqb (constructor_name (Some (InputPoint nm v []))) "InputPoint" = true)
      as -> by reflexivity.
    rewrite bind_modify. cbn [outputs_of default from_option forEach id].
    rewrite bind_ret. unfold modify, upd_sim, upd_heap, set_components, set_inputPoints.
    cbn. rewrite (Hpush comps Hc), (Hpush ips Hi).
    unfold set_outputs. rewrite alter_id; [reflexivity|].
    intros x Hx. rewrite Ec in Hx. injection Hx as <-. reflexivity.
  - subst inp.
    assert (String.eqb (constructor_name (Some (OutputPoint nm None v))) "InputPoint" = false)
      as -> by reflexivity.
    assert (String.eqb (constructor_name (Some (OutputPoint nm None v))) "OutputPoint" = true)
      as -> by reflexivity.
    unfold modify at 1. cbv beta iota.
    unfold removeComponent. rewrite bind_modify, bind_gets.
    unfold obj, upd_sim. cbn [heap sim console]. rewrite Ec.
    assert (String.eqb (constructor_name (Some (OutputPoint nm None v))) "InputPoint" = false)
      as -> by reflexivity.
    assert (String.eqb (constructor_name (Some (OutputPoint nm None v))) "OutputPoint" = true)
      as -> by reflexivity.
    rewrite bind_modify. cbn [input_of]. rewrite bind_ret.
    unfold modify, upd_sim, upd_heap, set_components, set_outputPoints.
    cbn. rewrite (Hpush comps Hc), (Hpush ops Ho).
    unfold set_input. rewrite alter_id; [reflexivity|].
    intros x Hx. rewrite Ec in Hx. injection Hx as <-. reflexivity.
  - subst ins outs.
    assert (String.eqb (constructor_name (Some (Gate cl nm [] ov [] mx))) "InputPoint" = false)
      as E1 by (destruct cl; reflexivity).
    assert (String.eqb (constructor_name (Some (Gate cl nm [] ov [] mx))) "OutputPoint" = false)
      as E2 by (destruct cl; reflexivity).
    rewrite E1, E2. cbn [instanceof_gates_constructor]. unfold ret at 1. cbv beta iota.
    unfold removeComponent. rewrite bind_modify, bind_gets.
    unfold obj, upd_sim. cbn [heap sim console]. rewrite Ec, E1, E2.
    cbn [has_evaluate]. rewrite bind_modify.
    cbn [inputs_of default from_option forEach id]. rewrite bind_ret, bind_modify, bind_gets.
    assert (set_inputs c [] h = h) as Eh.
    { unfold set_inputs. apply alter_id. intros x Hx. rewrite Ec in Hx.
      injection Hx as <-. reflexivity. }
    unfold obj, upd_heap. cbn [heap sim console]. rewrite Eh, Ec.
    cbn [outputs_of default from_option forEach id]. rewrite bind_ret.
    unfold modify, set_components, set_gates. cbn.
    rewrite (Hpush comps Hc), Hg'.
    unfold set_outputs. rewrite alter_id; [reflexivity|].
    intros x Hx. rewrite Ec in Hx. injection Hx as <-. reflexivity.
  - assert (String.eqb (constructor_name None) "InputPoint" = false) as E1 by reflexivity.
    assert (String.eqb (constructor_name None) "OutputPoint" = false) as E2 by reflexivity.
    rewrite E1, E2. cbn [instanceof_gates_constructor]. unfold ret at 1. cbv beta iota.
    unfold removeComponent. rewrite bind_modify, bind_gets.
    unfold obj, upd_sim. cbn [heap sim console]. rewrite Ec, E1, E2.
    cbn [has_evaluate]. unfold ret, set_components. cbn.
    rewrite (Hpush comps Hc). reflexivity.
Qed.

Lemma add_then_remove_witness :
  (addComponent And1 ;; removeComponent 0 And1) and_circuit_start
  = (Return tt, and_circuit_start).
Proof.
  apply (add_then_remove 0 and_circuit_start And1).
  - apply not_elem_of_nil.
  - apply not_elem_of_nil.
  - apply not_elem_of_nil.
  - apply not_elem_of_nil.
  - repeat split.
Defined.

(** ** The registry *)

Lemma same_classes_refl w : same_classes w w.
Proof. split; reflexivity. Qed.

Lemma same_classes_trans a b c : same_classes a b -> same_classes b c -> same_classes a c.
Proof. intros (S1 & T1) (S2 & T2). split; [congruence|]. intros r. rewrite T2. apply T1. Qed.

Lemma classes_alter f r :
  (forall o, tag_of (f <$> o) = tag_of o) -> stable same_classes (modify (upd_heap (alter f r))).
Proof.
  intros Hf w. split; [reflexivity|]. intros r'. simpl. rewrite obj_alter.
  destruct (decide (r = r')); [apply Hf|reflexivity].
Qed.

Lemma classes_write_console e : stable same_classes (modify (write_console e)).
Proof. intros w. split; reflexivity. Qed.

Ltac classes_leaf :=
  match goal with
  | |- stable _ (modify (upd_heap (set_value _ _))) => apply classes_alter, tag_with_value
  | |- stable _ (modify (upd_heap (set_input _ _))) => apply classes_alter, tag_with_input
  | |- stable _ (modify (upd_heap (set_inputs _ _))) => apply classes_alter, tag_with_inputs
  | |- stable _ (modify (upd_heap (set_outputs _ _))) => apply classes_alter, tag_with_outputs
  | |- stable _ (modify (write_console _)) => apply classes_write_console
  end.

Ltac classes_step := stable_with same_classes_refl same_classes_trans ltac:(idtac; classes_leaf).

Lemma update_same_classes op : stable same_classes (update op).
Proof. unfold update. classes_step. Qed.

Lemma propagate_same_classes : stable same_classes propagate.
Proof.
  intros w. pose proof (propagate_same_wiring w) as Hw. split; [apply Hw|].
  intros r. apply same_wiring_tag. exact Hw.
Qed.

Lemma remove_same_classes (n : nat) :
  (forall this d, stable same_classes (removeOutput n this d))
  /\ (forall this s, stable same_classes (removeInput n this s)).
Proof.
  induction n as [|n [IHo IHi]].
  - split; intros; apply (stable_throw _ same_classes_refl).
  - split; intros this x.
    + rewrite removeOutput_S. classes_step. apply IHi.
    + rewrite removeInput_S. classes_step; apply IHo.
Qed.

Lemma add_same_classes (n : nat) :
  (forall this d, stable same_classes (addOutput n this d))
  /\ (forall this s, stable same_classes (addInput n this s)).
Proof.
  induction n as [|n [IHo IHi]].
  - split; intros; apply (stable_throw _ same_classes_refl).
  - split; intros this x.
    + rewrite addOutput_S. classes_step. apply IHi.
    + rewrite addInput_S. classes_step;
        first [apply remove_same_classes | apply IHo | apply update_same_classes].
Qed.

Lemma classified_same_classes w w' : same_classes w w' -> classified w -> classified w'.
Proof.
  intros (Sm & Tg) (Hn & Hi & Ho & Hg). unfold classified. rewrite Sm.
  split; [exact Hn|]. split; [|split; [|exact Hg]].
  - rewrite Hi. apply list_filter_iff. intros r. rewrite Tg. reflexivity.
  - rewrite Ho. apply list_filter_iff. intros r. rewrite Tg. reflexivity.
Qed.

Lemma classified_stable {A} (m : M A) : stable same_classes m -> keeps classified m.
Proof. intros Hm w Hw. eapply classified_same_classes; [apply Hm|exact Hw]. Qed.

Lemma filter_push (P : ref -> Prop) `{forall x, Decision (P x)} (l : list ref) c :
  filter P (l ++ [c]) = filter P l ++ (if decide (P c) then [c] else []).
Proof.
  rewrite filter_app. reflexivity.
Qed.

Lemma filter_without (P : ref -> Prop) `{forall x, Decision (P x)} (l : list ref) c :
  filter P (without c l)
  = if decide (P c) then without c (filter P l) else filter P l.
Proof.
  unfold without. rewrite !list_filter_filter.
  destruct (decide (P c)) as [Hc|Hc]; apply list_filter_iff; intros x.
  - tauto.
  - split; [tauto|]. intros Hx. split; [exact Hx|]. intros ->. contradiction.
Qed.

(** The registry after the registry writes of [removeComponent(c)]. *)
Lemma classified_removed w c s' :
  classified w ->
  components s' = without c (components (sim w)) ->
  inputPoints s' = (if decide (tag_of (obj w c) = TInput)
                    then without c (inputPoints (sim w)) else inputPoints (sim w)) ->
  outputPoints s' = (if decide (tag_of (obj w c) = TOutput)
                     then without c (outputPoints (sim w)) else outputPoints (sim w)) ->
  gates s' = [] ->
  classified (mkWorld (heap w) s' (console w)).
Proof.
  intros (Hn & Hi & Ho & Hg) Ec Ei Eo Eg. unfold classified. cbn [sim].
  change (obj (mkWorld (heap w) s' (console w))) with (obj w).
  rewrite Ec, Ei, Eo, Eg. split; [apply NoDup_filter; exact Hn|].
  split; [|split; [|reflexivity]].
  - rewrite (filter_without (fun r => tag_of (obj w r) = TInput)), Hi. reflexivity.
  - rewrite (filter_without (fun r => tag_of (obj w r) = TOutput)), Ho. reflexivity.
Qed.

(** The registry after the registry writes of [addComponent(c)]. *)
Lemma classified_added w c s' :
  classified w -> c ∉ components (sim w) ->
  components s' = components (sim w) ++ [c] ->
  inputPoints s' = inputPoints (sim w)
                   ++ (if decide (tag_of (obj w c) = TInput) then [c] else []) ->
  outputPoints s' = outputPoints (sim w)
                    ++ (if decide (tag_of (obj w c) = TOutput) then [c] else []) ->
  gates s' = gates (sim w) ->
  classified (mkWorld (heap w) s' (console w)).
Proof.
  intros (Hn & Hi & Ho & Hg) Hc Ec Ei Eo Eg. unfold classified. cbn [sim].
  change (obj (mkWorld (heap w) s' (console w))) with (obj w).
  rewrite Ec, Ei, Eo, Eg, !filter_push, <- Hi, <- Ho.
  split; [|repeat split; exact Hg].
  apply NoDup_app. split; [exact Hn|]. split; [|apply NoDup_singleton].
  intros x Hx Hx'. apply list_elem_of_singleton in Hx'. subst x. contradiction.
Qed.

Lemma addComponent_classified c : keeps classified (addComponent c).
Proof.
  intros w Hw. unfold addComponent. rewrite bind_gets. unfold id.
  destruct (includes (components (sim w)) c) eqn:Ei; [exact Hw|].
  apply includes_false in Ei. rewrite bind_modify.
  destruct (obj w c) as [[nm v outs|nm inp v|cl nm ins ov outs mx]|] eqn:Ec.
  - assert (String.eqb (constructor_name (Some (InputPoint nm v outs))) "InputPoint" = true)
      as -> by reflexivity.
    apply (classified_added w c); [exact Hw|exact Ei|reflexivity| | |reflexivity];
      rewrite Ec; cbn; rewrite ?app_nil_r; reflexivity.
  - assert (String.eqb (constructor_name (Some (OutputPoint nm inp v))) "InputPoint" = false)
      as -> by reflexivity.
    assert (String.eqb (constructor_name (Some (OutputPoint nm inp v))) "OutputPoint" = true)
      as -> by reflexivity.
    apply (classified_added w c); [exact Hw|exact Ei|reflexivity| | |reflexivity];
      rewrite Ec; cbn; rewrite ?app_nil_r; reflexivity.
  - assert (String.eqb (constructor_name (Some (Gate cl nm ins ov outs mx))) "InputPoint" = false)
      as -> by (destruct cl; reflexivity).
    assert (String.eqb (constructor_name (Some (Gate cl nm ins ov outs mx))) "OutputPoint" = false)
      as -> by (destruct cl; reflexivity).
    apply (classified_added w c); [exact Hw|exact Ei|reflexivity| | |reflexivity];
      rewrite Ec; cbn; rewrite ?app_nil_r; reflexivity.
  - assert (String.eqb (constructor_name None) "InputPoint" = false) as -> by reflexivity.
    assert (String.eqb (constructor_name None) "OutputPoint" = false) as -> by reflexivity.
    apply (classified_added w c); [exact Hw|exact Ei|reflexivity| | |reflexivity];
      rewrite Ec; cbn; rewrite ?app_nil_r; reflexivity.
Qed.

Lemma removeComponent_classified fuel c : keeps classified (removeComponent fuel c).
Proof.
  intros w Hw. unfold removeComponent. rewrite bind_modify, bind_gets, obj_upd_sim.
  pose proof Hw as (_ & _ & _ & Hg).
  destruct (obj w c) as [[nm v outs|nm inp v|cl nm ins ov outs mx]|] eqn:Ec.
  - assert (String.eqb (constructor_name (Some (InputPoint nm v outs))) "InputPoint" = true)
      as -> by reflexivity.
    rewrite bind_modify. apply keeps_at.
    + apply classified_stable. classes_step. apply remove_same_classes.
    + apply (classified_removed w c); [exact Hw|reflexivity| | |exact Hg];
        rewrite Ec; reflexivity.
  - assert (String.eqb (constructor_name (Some (OutputPoint nm inp v))) "InputPoint" = false)
      as -> by reflexivity.
    assert (String.eqb (constructor_name (Some (OutputPoint nm inp v))) "OutputPoint" = true)
      as -> by reflexivity.
    rewrite bind_modify. apply keeps_at.
    + apply classified_stable. classes_step. apply remove_same_classes.
    + apply (classified_removed w c); [exact Hw|reflexivity| | |exact Hg];
        rewrite Ec; reflexivity.
  - assert (String.eqb (constructor_name (Some (Gate cl nm ins ov outs mx))) "InputPoint" = false)
      as -> by (destruct cl; reflexivity).
    assert (String.eqb (constructor_name (Some (Gate cl nm ins ov outs mx))) "OutputPoint" = false)
      as -> by (destruct cl; reflexivity).
    cbn [has_evaluate]. rewrite bind_modify. apply keeps_at.
    + apply classified_stable. classes_step; apply remove_same_classes.
    + apply (classified_removed w c); [exact Hw|reflexivity| | |];
        [rewrite Ec; reflexivity|rewrite Ec; reflexivity|].
      cbn. rewrite Hg. reflexivity.
  - assert (String.eqb (constructor_name None) "InputPoint" = false) as -> by reflexivity.
    assert (String.eqb (constructor_name None) "OutputPoint" = false) as -> by reflexivity.
    cbn [has_evaluate]. 
    apply (classified_removed w c); [exact Hw|reflexivity| | |exact Hg];
      rewrite Ec; reflexivity.
Qed.

Lemma perform_classified fuel o : keeps classified (perform fuel o).
Proof.
  destruct o; simpl.
  - apply addComponent_classified.
  - apply removeComponent_classified.
  - apply classified_stable. unfold connect. classes_step;
      first [apply add_same_classes | apply propagate_same_classes].
  - apply classified_stable. unfold disconnect. classes_step;
      first [apply remove_same_classes | apply propagate_same_classes].
  - apply classified_stable, propagate_same_classes.
  - apply classified_stable, add_same_classes.
  - apply classified_stable, add_same_classes.
  - apply classified_stable, remove_same_classes.
  - apply classified_stable, remove_same_classes.
  - apply classified_stable. unfold setValue. classes_step.
  - apply classified_stable. unfold toggle. classes_step.
  - apply classified_stable. unfold evaluate. classes_step.
  - apply classified_stable, update_same_classes.
Qed.

(** Whatever public operations are called, in any order, at any stack
    depths and however each call ends, the registry stays classified:
    [components] holds no object twice, [inputPoints] and [outputPoints]
    list exactly the registered InputPoints and OutputPoints in
    registration order, and [gates] stays empty, so that no gate is ever
    evaluated by [propagate]. *)
Theorem registry_classified (script : list (nat * operation)) (w : World) :
  classified w -> classified (run script w).
Proof.
  revert w. induction script as [|[fuel o] script IH]; intros w Hw; simpl.
  - exact Hw.
  - apply IH. apply perform_classified. exact Hw.
Qed.

Lemma registry_classified_witness :
  classified (run [(5, AddComponent InputA); (5, AddComponent Not1); (5, AddComponent OutputX);
                   (5, Connect InputA Not1); (5, Connect Not1 OutputX);
                   (5, RemoveComponent InputA); (5, Propagate)]%nat scenario_start).
Proof.
  apply (registry_classified _ scenario_start).
  split; [apply NoDup_nil_2|]. repeat split.
Defined.

(** ** Capacity *)

Lemma store_within_capacity (l : list (ref * node)) s c :
  forallb (fun p => node_within_capacity p.2) l = true ->
  within_capacity (mkWorld (store l) s c).
Proof.
  intros Hl g cl nm ins ov outs mx. unfold obj, store. simpl.
  induction l as [|[r0 n0] l IH]; simpl in *.
  - rewrite lookup_empty. discriminate.
  - apply andb_true_iff in Hl as [Hn Hl].
    destruct (decide (r0 = g)) as [<-|Hne].
    + rewrite lookup_insert_eq. intros [= ->]. simpl in Hn. apply Z.leb_le. exact Hn.
    + rewrite lookup_insert_ne by exact Hne. apply IH. exact Hl.
Qed.

Lemma capacity_bound_within w : capacity_bound w <-> within_capacity w.
Proof.
  split; intros H g c nm ins ov outs mx Hg; specialize (H g c nm ins ov outs mx Hg); lia.
Qed.

(** The guard of [addInput] holds under every sequence of calls.  From a
    world where every gate has fewer than [maxInputs + 1] inputs (for the
    integer capacities of this embedding: at most [maxInputs]), whatever
    public operations are called, at any stack depths and however they
    end, every gate still has fewer than [maxInputs + 1] inputs.  And a
    gate with [maxInputs] inputs or more refuses every [addInput]: the
    error goes to the console and nothing else changes, also when the
    source is one the gate already lists. *)
Theorem gates_stay_within_capacity (w : World) :
  capacity_bound w ->
  (forall script, capacity_bound (run script w))
  /\ (forall fuel g c nm ins ov outs mx s,
        obj w g = Some (Gate c nm ins ov outs mx) ->
        (mx <= Z.of_nat (length ins))%Z -> (1 <= fuel)%nat ->
        addInput fuel g s w = (Return tt, write_console (MaxInputsReached nm mx) w)).
Proof.
  intros Hw. split.
  - intros script. apply capacity_bound_within, run_keeps_capacity.
    apply capacity_bound_within. exact Hw.
  - intros fuel g c nm ins ov outs mx s Hg Hfull Hfuel.
    destruct fuel as [|n]; [lia|]. eapply gate_addInput_at_capacity; eassumption.
Qed.

Lemma gates_stay_within_capacity_witness :
  (forall script, capacity_bound (run script full_gate_world))
  /\ (forall fuel g c nm ins ov outs mx s,
        obj full_gate_world g = Some (Gate c nm ins ov outs mx) ->
        (mx <= Z.of_nat (length ins))%Z -> (1 <= fuel)%nat ->
        addInput fuel g s full_gate_world
        = (Return tt, write_console (MaxInputsReached nm mx) full_gate_world)).
Proof.
  apply (gates_stay_within_capacity full_gate_world).
  apply capacity_bound_within, store_within_capacity. vm_compute. reflexivity.
Defined.

(** [connect(source, gate)] on a full gate, both registered and not
    linked: the gate refuses and logs the error, but the source has by
    then recorded the gate among its outputs, and [connect] goes on to
    propagate.  The call leaves a link that exists on the source side
    only. *)
Theorem connect_refused_half_link (fuel : nat) (w : World) (s g : ref)
    outs c nm ins ov gouts mx :
  s ∈ components (sim w) -> g ∈ components (sim w) ->
  outputs_of (obj w s) = Some outs ->
  obj w g = Some (Gate c nm ins ov gouts mx) ->
  g ∉ outs -> s ∉ ins -> (mx <= Z.of_nat (length ins))%Z ->
  (2 <= fuel)%nat ->
  let w1 := write_console (MaxInputsReached nm mx)
                          (upd_heap (set_outputs s (outs ++ [g])) w) in
  let w' := (connect fuel s g w).2 in
  connect fuel s g w = propagate w1
  /\ console w' = console w ++ [MaxInputsReached nm mx]
  /\ outputs_of (obj w' s) = Some (outs ++ [g])
  /\ inputs_of (obj w' g) = Some ins.
Proof.
  intros Hs Hg Ho Hobj Hgo Hsi Hfull Hfuel w1 w'.
  destruct fuel as [|[|n]]; try lia.
  destruct (gate_after_set_outputs w s (outs ++ [g]) g _ _ _ _ _ _ Hobj) as (go' & E).
  assert (connect (S (S n)) s g w = propagate w1) as Ec.
  { unfold connect. rewrite bind_gets. unfold id.
    apply includes_true in Hs. apply includes_true in Hg. rewrite Hs, Hg. cbn [negb orb].
    rewrite (has_addOutput_outputs _ _ Ho), Hobj. cbn [has_addInput andb].
    erewrite bind_returns; [reflexivity|].
    apply includes_false in Hgo. apply includes_false in Hsi.
    rewrite addOutput_S, bind_gets, Ho, Hgo, bind_modify, bind_gets, E.
    cbn [has_addInput inputs_of]. rewrite Hsi.
    eapply gate_addInput_at_capacity; eassumption. }
  split; [exact Ec|]. unfold w'. rewrite Ec.
  destruct (propagate_same_structure w1) as (_ & Cn & L).
  split; [rewrite Cn; reflexivity|].
  pose proof (L s) as Ls. pose proof (L g) as Lg. unfold links in Ls, Lg.
  injection Ls as _ _ Ls. injection Lg as Lg _ _.
  rewrite Ls, Lg. unfold w1. rewrite !obj_write_console. split.
  - apply outputs_after_set_outputs. rewrite Ho. discriminate.
  - rewrite E. reflexivity.
Qed.

Lemma connect_refused_half_link_witness :
  let w1 := write_console (MaxInputsReached "And1" 2%Z)
                          (upd_heap (set_outputs 5 ([] ++ [And1])) full_gate_world) in
  let w' := (connect 2 5 And1 full_gate_world).2 in
  connect 2 5 And1 full_gate_world = propagate w1
  /\ console w' = console full_gate_world ++ [MaxInputsReached "And1" 2%Z]
  /\ outputs_of (obj w' 5) = Some ([] ++ [And1])
  /\ inputs_of (obj w' And1) = Some [InputA; InputB].
Proof.
  apply (connect_refused_half_link 2 full_gate_world 5 And1
           [] AndGate "And1" [InputA; InputB] LOW [] 2%Z).
  - vm_compute. repeat constructor.
  - vm_compute. repeat constructor.
  - reflexivity.
  - reflexivity.
  - apply not_elem_of_nil.
  - vm_compute. intros H. repeat (inversion H as [|? ? ? H']; clear H; rename H' into H).
  - simpl. lia.
  - lia.
Defined.

(** ** What [connect] never does *)

Lemma same_slots_refl w : same_slots w w.
Proof. intros r. reflexivity. Qed.

Lemma same_slots_trans a b c : same_slots a b -> same_slots b c -> same_slots a c.
Proof. intros H1 H2 r. rewrite H2. apply H1. Qed.

Lemma slots_set_outputs w r l : same_slots w (upd_heap (set_outputs r l) w).
Proof.
  intros r'. rewrite obj_set_outputs. destruct (decide (r = r')); [|reflexivity].
  destruct (obj w r') as [[| |]|]; reflexivity.
Qed.

Lemma slots_set_inputs w r l : same_slots w (upd_heap (set_inputs r l) w).
Proof.
  intros r'. rewrite obj_set_inputs. destruct (decide (r = r')); [|reflexivity].
  destruct (obj w r') as [[| |]|]; reflexivity.
Qed.

(** [addOutput] on any receiver, and [addInput] on a gate, write no slot:
    [addOutput] calls [addInput] only on a destination that has an
    [inputs] array. *)
Lemma add_same_slots (n : nat) :
  (forall this d, stable same_slots (addOutput n this d))
  /\ (forall this s w, has_evaluate (obj w this) = true ->
        same_slots w (addInput n this s w).2).
Proof.
  induction n as [|n [IHo IHi]].
  - split; [intros this d w|intros this s w _]; apply same_slots_refl.
  - split.
    + intros this d w. rewrite addOutput_S, bind_gets.
      destruct (outputs_of (obj w this)) as [outs|]; [|apply same_slots_refl].
      destruct (includes outs d); [apply same_slots_refl|].
      rewrite bind_modify, bind_gets.
      pose proof (slots_set_outputs w this (outs ++ [d])) as H1.
      destruct (has_addInput _); [|exact H1].
      destruct (inputs_of _) as [ins|] eqn:Ei; [|exact H1].
      destruct (includes ins this); [exact H1|].
      eapply same_slots_trans; [exact H1|]. apply IHi.
      destruct (obj _ d) as [[| |]|]; try discriminate; reflexivity.
    + intros this s w Hg. rewrite addInput_S, bind_gets.
      destruct (obj w this) as [[| |c nm ins ov outs mx]|]; try discriminate.
      destruct (Z.ltb _ _); [|intros r; reflexivity].
      destruct (includes ins s); [apply same_slots_refl|].
      rewrite bind_modify, bind_gets.
      pose proof (slots_set_inputs w this (ins ++ [s])) as H1.
      destruct (has_addOutput _); [|exact H1].
      eapply same_slots_trans; [exact H1|]. apply IHo.
Qed.

(** [connect] never wires an output point: whatever its arguments, at any
    stack depth and however it ends, every output point's [input] slot is
    what it was before the call. *)
Theorem connect_keeps_slots (fuel : nat) (w : World) (a b r : ref) :
  input_of (obj (connect fuel a b w).2 r) = input_of (obj w r).
Proof.
  revert r. change (same_slots w (connect fuel a b w).2). revert w.
  change (stable same_slots (connect fuel a b)).
  assert (stable same_slots propagate) as Hp.
  { intros w r. destruct (propagate_same_structure w) as (_ & _ & L).
    specialize (L r). unfold links in L. congruence. }
  unfold connect.
  stable_with same_slots_refl same_slots_trans
    ltac:(first [apply add_same_slots | apply Hp | intros ? ?; reflexivity]).
Qed.

(** ** Snapshots *)

Lemma connection_same (c conn : connection) :
  bool_decide (from c = from conn) && bool_decide (to c = to conn) = bool_decide (c = conn).
Proof.
  destruct c as [f t], conn as [f' t']. simpl.
  apply Bool.eq_iff_eq_true. rewrite andb_true_iff, !bool_decide_eq_true. split.
  - intros [-> ->]. reflexivity.
  - intros [= -> ->]. split; reflexivity.
Qed.

Lemma findIndex_cons conn c rest i :
  findIndex conn (c :: rest) i
  = if bool_decide (c = conn) then Return (Some i)
    else if reverse_of conn c then Throw ReferenceError
    else findIndex conn rest (S i).
Proof.
  simpl. rewrite connection_same. unfold reverse_of.
  destruct (bool_decide (c = conn)); [reflexivity|].
  simpl. rewrite andb_true_r. reflexivity.
Qed.

Lemma findIndex_skip conn pre l : forall i,
  conn ∉ pre -> (forall x, x ∈ pre -> reverse_of conn x = false) ->
  findIndex conn (pre ++ l) i = findIndex conn l (i + length pre).
Proof.
  induction pre as [|c pre IH]; intros i Hin Hrev.
  - simpl. rewrite Nat.add_0_r. reflexivity.
  - change ((c :: pre) ++ l) with (c :: (pre ++ l)). rewrite findIndex_cons.
    rewrite bool_decide_eq_false_2 by (intros ->; apply Hin; left).
    rewrite Hrev by left.
    rewrite IH.
    + f_equal. simpl. lia.
    + intros H. apply Hin. right. exact H.
    + intros x Hx. apply Hrev. right. exact Hx.
Qed.

Lemma findIndex_throws conn self : forall i e,
  findIndex conn self i = Throw e -> e = ReferenceError.
Proof.
  induction self as [|c self IH]; intros i e; [discriminate|].
  rewrite findIndex_cons. destruct (bool_decide _); [discriminate|].
  destruct (reverse_of _ _); [congruence|apply IH].
Qed.

Lemma reverse_of_sym conn c : reverse_of conn c = true -> reverse_of c conn = true.
Proof.
  unfold reverse_of. rewrite !andb_true_iff, !negb_true_iff, !bool_decide_eq_true,
    !bool_decide_eq_false.
  intros [[H1 H2] H3]. repeat split; congruence.
Qed.

Lemma reverse_of_unique conn c d :
  reverse_of conn c = true -> reverse_of conn d = true -> c = d.
Proof.
  unfold reverse_of. rewrite !andb_true_iff, !bool_decide_eq_true.
  intros [[H1 H2] _] [[H3 H4] _]. destruct c, d. simpl in *. congruence.
Qed.

Lemma reverse_of_ne conn c : reverse_of conn c = true -> c <> conn.
Proof.
  unfold reverse_of. rewrite !andb_true_iff, negb_true_iff, bool_decide_eq_false.
  intros [_ H]. exact H.
Qed.

(** Without a reversed pair in [self], the filter keeps first occurrences. *)
Lemma dedup_clean self :
  has_reversed self = false ->
  forall todo done, self = done ++ todo ->
    dedup_connections self todo (length done) = Return (first_occurrences done todo).
Proof.
  intros Hclean.
  assert (forall conn c, conn ∈ self -> c ∈ self -> reverse_of conn c = false) as Hrev.
  { intros conn c Hconn Hc. destruct (reverse_of conn c) eqn:E; [|reflexivity].
    assert (has_reversed self = true) as Hr; [|congruence].
    apply existsb_exists. exists conn. split; [apply list_elem_of_In; exact Hconn|].
    apply existsb_exists. exists c. split; [apply list_elem_of_In; exact Hc|exact E]. }
  induction todo as [|conn todo IH]; intros done Hself; [reflexivity|].
  assert (conn ∈ self) as Hconn.
  { rewrite Hself. apply elem_of_app. right. left. }
  assert (self = (done ++ [conn]) ++ todo) as Hself' by (rewrite <- app_assoc; exact Hself).
  pose proof (IH (done ++ [conn]) Hself') as IH'.
  rewrite length_app, Nat.add_1_r in IH'.
  cbn [dedup_connections first_occurrences]. rewrite IH'.
  destruct (decide (conn ∈ done)) as [Hin|Hin].
  - rewrite (bool_decide_eq_true_2 _ Hin).
    destruct (list_elem_of_split_l done conn Hin) as (pre & post & Hd & Hpre).
    assert (findIndex conn self 0 = Return (Some (length pre))) as ->.
    { rewrite Hself, Hd, <- !app_assoc, findIndex_skip.
      - change ((conn :: post) ++ conn :: todo) with (conn :: (post ++ conn :: todo)).
        rewrite findIndex_cons, bool_decide_eq_true_2 by reflexivity. reflexivity.
      - exact Hpre.
      - intros x Hx. apply Hrev; [exact Hconn|].
        rewrite Hself, Hd. apply elem_of_app. left. apply elem_of_app. left. exact Hx. }
    rewrite bool_decide_eq_false_2; [reflexivity|].
    intros [= E]. rewrite Hd, length_app in E. simpl in E. lia.
  - rewrite (bool_decide_eq_false_2 _ Hin).
    assert (findIndex conn self 0 = Return (Some (length done))) as ->.
    { rewrite Hself, findIndex_skip.
      - rewrite findIndex_cons, bool_decide_eq_true_2 by reflexivity. reflexivity.
      - exact Hin.
      - intros x Hx. apply Hrev; [exact Hconn|].
        rewrite Hself. apply elem_of_app. left. exact Hx. }
    rewrite bool_decide_eq_true_2 by reflexivity. reflexivity.
Qed.

Lemma dedup_throws self todo : forall i conn,
  conn ∈ todo -> findIndex conn self 0 = Throw ReferenceError ->
  dedup_connections self todo i = Throw ReferenceError.
Proof.
  induction todo as [|c todo IH]; intros i conn Hin Hthrow.
  - apply elem_of_nil in Hin. contradiction.
  - cbn [dedup_connections].
    destruct (findIndex c self 0) as [found|e] eqn:Ef.
    + apply elem_of_cons in Hin as [->|Hin]; [congruence|].
      rewrite (IH (S i) conn Hin Hthrow). reflexivity.
    + apply findIndex_throws in Ef. subst e. reflexivity.
Qed.

Lemma first_of_two (a b : connection) (self : list connection) :
  a ∈ self -> b ∈ self ->
  exists pre x post, self = pre ++ x :: post /\ (a ∉ pre) /\ (b ∉ pre) /\ (x = a \/ x = b).
Proof.
  induction self as [|c self IH]; intros Ha Hb.
  - apply elem_of_nil in Ha. contradiction.
  - destruct (decide (c = a)) as [->|Hca].
    { exists [], a, self. repeat split; try apply not_elem_of_nil. left. reflexivity. }
    destruct (decide (c = b)) as [->|Hcb].
    { exists [], b, self. repeat split; try apply not_elem_of_nil. right. reflexivity. }
    apply elem_of_cons in Ha as [->|Ha]; [contradiction|].
    apply elem_of_cons in Hb as [->|Hb]; [contradiction|].
    destruct (IH Ha Hb) as (pre & x & post & -> & Hpa & Hpb & Hx).
    exists (c :: pre), x, post. split; [reflexivity|].
    split; [|split; [|exact Hx]]; intros H; apply elem_of_cons in H as [->|H]; contradiction.
Qed.

Lemma dedup_dirty self :
  has_reversed self = true -> dedup_connections self self 0 = Throw ReferenceError.
Proof.
  intros Hr. apply existsb_exists in Hr as (a & Ha & Hr).
  apply existsb_exists in Hr as (b & Hb & Hab).
  apply list_elem_of_In in Ha. apply list_elem_of_In in Hb.
  destruct (first_of_two a b self Ha Hb) as (pre & x & post & Hself & Hpa & Hpb & Hx).
  assert (forall conn other, reverse_of conn other = true -> x = other ->
            conn ∈ self -> (conn ∉ pre) -> (other ∉ pre) ->
            dedup_connections self self 0 = Throw ReferenceError) as Hcase.
  { intros conn other Hrev -> Hconn Hnc Hno.
    apply (dedup_throws self self 0 conn Hconn).
    rewrite Hself, findIndex_skip.
    - rewrite findIndex_cons, bool_decide_eq_false_2 by (apply reverse_of_ne; exact Hrev).
      rewrite Hrev. reflexivity.
    - exact Hnc.
    - intros y Hy. destruct (reverse_of conn y) eqn:E; [|reflexivity].
      rewrite (reverse_of_unique conn y other E Hrev) in Hy. contradiction. }
  destruct Hx as [Hx|Hx].
  - apply (Hcase b a); [apply reverse_of_sym; exact Hab|exact Hx|exact Hb|exact Hpb|exact Hpa].
  - apply (Hcase a b); [exact Hab|exact Hx|exact Ha|exact Hpa|exact Hpb].
Qed.

Lemma first_occurrences_elem l : forall seen c,
  c ∈ first_occurrences seen l <-> c ∈ l /\ c ∉ seen.
Proof.
  induction l as [|x l IH]; intros seen c; cbn [first_occurrences].
  - split; [intros H; apply elem_of_nil in H; contradiction|].
    intros [H _]. apply elem_of_nil in H. contradiction.
  - destruct (decide (x ∈ seen)) as [Hx|Hx].
    + rewrite (bool_decide_eq_true_2 _ Hx), IH. split.
      * intros [Hl Hn]. split; [right; exact Hl|].
        intros H. apply Hn, elem_of_app. left. exact H.
      * intros [Hc Hn]. apply elem_of_cons in Hc as [->|Hl]; [contradiction|].
        split; [exact Hl|]. intros H. apply elem_of_app in H as [H|H]; [contradiction|].
        apply list_elem_of_singleton in H. subst c. contradiction.
    + rewrite (bool_decide_eq_false_2 _ Hx). split.
      * intros H. apply elem_of_cons in H as [->|H]; [split; [left|exact Hx]|].
        apply IH in H as [Hl Hn]. split; [right; exact Hl|].
        intros H. apply Hn, elem_of_app. left. exact H.
      * intros [Hc Hn]. destruct (decide (c = x)) as [->|Hne]; [left|].
        right. apply IH. apply elem_of_cons in Hc as [->|Hl]; [contradiction|].
        split; [exact Hl|]. intros H. apply elem_of_app in H as [H|H]; [contradiction|].
        apply list_elem_of_singleton in H. contradiction.
Qed.

Lemma first_occurrences_NoDup l : forall seen, NoDup (first_occurrences seen l).
Proof.
  induction l as [|x l IH]; intros seen; cbn [first_occurrences]; [apply NoDup_nil_2|].
  destruct (bool_decide (x ∈ seen)); [apply IH|].
  apply NoDup_cons_2; [|apply IH].
  rewrite first_occurrences_elem. intros [_ H]. apply H, elem_of_app. right. left.
Qed.

(** The deduplication filter of [getCircuitState].  When the list holds a
    connection together with its reverse (two components that feed each
    other), the filter throws a ReferenceError: the callback reads a
    variable [comp] that does not exist there.  Otherwise it returns the
    list with every repetition after the first dropped: no connection
    twice, and exactly the connections of the list. *)
Theorem dedup_connections_spec (self : list connection) :
  dedup_connections self self 0
  = (if has_reversed self then Throw ReferenceError
     else Return (first_occurrences [] self))
  /\ NoDup (first_occurrences [] self)
  /\ (forall c, c ∈ first_occurrences [] self <-> c ∈ self).
Proof.
  split; [|split].
  - destruct (has_reversed self) eqn:Hr.
    + apply dedup_dirty. exact Hr.
    + apply (dedup_clean self Hr self []). reflexivity.
  - apply first_occurrences_NoDup.
  - intros c. rewrite first_occurrences_elem. split; [intros [H _]; exact H|].
    intros H. split; [exact H|apply not_elem_of_nil].
Qed.

Lemma mapM_input_points w (l : list ref) :
  (forall ip, ip ∈ l -> tag_of (obj w ip) = TInput) ->
  mapM (fun ip => do v <- getOutput ip; ret (name_of (obj w ip), v)) l w
  = (Return (map (fun ip => (name_of (obj w ip), read w ip)) l), w).
Proof.
  induction l as [|x l IH]; intros Hl; [reflexivity|].
  cbn [mapM map].
  erewrite bind_returns.
  - erewrite bind_returns; [reflexivity|]. apply IH. intros ip Hip. apply Hl. right. exact Hip.
  - erewrite bind_returns; [reflexivity|].
    unfold getOutput. rewrite bind_gets. pose proof (Hl x ltac:(left)) as Hx.
    unfold read. destruct (obj w x) as [[| |]|]; try discriminate. reflexivity.
Qed.

Lemma mapM_output_points w (l : list ref) :
  (forall op, op ∈ l -> tag_of (obj w op) = TOutput) ->
  mapM (fun op => do v <- getValue op; ret (name_of (obj w op), v)) l w
  = (Return (map (fun op => (name_of (obj w op), read w op)) l), w).
Proof.
  induction l as [|x l IH]; intros Hl; [reflexivity|].
  cbn [mapM map].
  erewrite bind_returns.
  - erewrite bind_returns; [reflexivity|]. apply IH. intros op Hop. apply Hl. right. exact Hop.
  - erewrite bind_returns; [reflexivity|].
    unfold getValue. rewrite bind_gets. pose proof (Hl x ltac:(left)) as Hx.
    unfold read. destruct (obj w x) as [[| |]|]; try discriminate. reflexivity.
Qed.

(** [getCircuitState] on a classified registry never changes the world.
    It throws a ReferenceError when some connection is listed together
    with its reverse; otherwise the snapshot holds the registered input
    points and output points with their names and current values, in
    registration order, no gate at all, and each connection once. *)
Theorem getCircuitState_snapshot (w : World) :
  classified w ->
  getCircuitState w
  = (if has_reversed (all_connections w) then Throw ReferenceError
     else Return (mkCircuitState
                    (map (fun ip => (name_of (obj w ip), read w ip)) (inputPoints (sim w)))
                    []
                    (map (fun op => (name_of (obj w op), read w op)) (outputPoints (sim w)))
                    (first_occurrences [] (all_connections w))),
     w).
Proof.
  intros (_ & Hi & Ho & Hg).
  unfold getCircuitState. rewrite bind_gets. unfold id.
  erewrite bind_returns; [|apply mapM_input_points].
  - rewrite Hg. cbn [mapM]. rewrite bind_ret.
    erewrite bind_returns; [|apply mapM_output_points].
    + fold (all_connections w).
      destruct (has_reversed (all_connections w)) eqn:Hr.
      * rewrite (dedup_dirty _ Hr). reflexivity.
      * pose proof (dedup_clean _ Hr (all_connections w) [] eq_refl) as Hd.
        cbn [length] in Hd. rewrite Hd. reflexivity.
    + intros op Hop. rewrite Ho in Hop. apply list_elem_of_filter in Hop as [Hop _]. exact Hop.
  - intros ip Hip. rewrite Hi in Hip. apply list_elem_of_filter in Hip as [Hip _]. exact Hip.
Qed.

Lemma getCircuitState_snapshot_witness :
  getCircuitState stale_world
  = (if has_reversed (all_connections stale_world) then Throw ReferenceError
     else Return (mkCircuitState
                    (map (fun ip => (name_of (obj stale_world ip), read stale_world ip))
                         (inputPoints (sim stale_world)))
                    []
                    (map (fun op => (name_of (obj stale_world op), read stale_world op))
                         (outputPoints (sim stale_world)))
                    (first_occurrences [] (all_connections stale_world))),
     stale_world).
Proof.
  apply (getCircuitState_snapshot stale_world).
  split; [|repeat split].
  apply (bool_decide_unpack _). vm_compute. exact I.
Defined.

(** ** A circuit built through the Simulation computes nothing *)

Lemma dark_alter f r :
  (forall o, dark_node o -> dark_node (f <$> o)) ->
  keeps dark (modify (upd_heap (alter f r))).
Proof.
  intros Hf w [Hg Hn]. split; [exact Hg|]. intros r'. simpl. rewrite obj_alter.
  destruct (decide (r = r')); [apply Hf|]; apply Hn.
Qed.

Lemma dark_set_outputs r l : keeps dark (modify (upd_heap (set_outputs r l))).
Proof. apply dark_alter. intros [[| |]|]; simpl; tauto. Qed.
Lemma dark_set_inputs r l : keeps dark (modify (upd_heap (set_inputs r l))).
Proof. apply dark_alter. intros [[| |]|]; simpl; tauto. Qed.
Lemma dark_clear_input r : keeps dark (modify (upd_heap (set_input r None))).
Proof. apply dark_alter. intros [[| |]|]; simpl; tauto. Qed.
Lemma dark_reset_value r : keeps dark (modify (upd_heap (set_value r LOW))).
Proof. apply dark_alter. intros [[| |]|]; simpl; tauto. Qed.
Lemma dark_write_console e : keeps dark (modify (write_console e)).
Proof. intros w Hw. exact Hw. Qed.
Lemma dark_set_components f : keeps dark (modify (upd_sim (fun s => set_components (f s) s))).
Proof. intros w Hw. exact Hw. Qed.
Lemma dark_set_inputPoints f : keeps dark (modify (upd_sim (fun s => set_inputPoints (f s) s))).
Proof. intros w Hw. exact Hw. Qed.
Lemma dark_set_outputPoints f : keeps dark (modify (upd_sim (fun s => set_outputPoints (f s) s))).
Proof. intros w Hw. exact Hw. Qed.
Lemma dark_filter_gates c :
  keeps dark (modify (upd_sim (fun s => set_gates (without c (gates s)) s))).
Proof. intros w [Hg Hn]. split; [simpl; rewrite Hg; reflexivity|exact Hn]. Qed.

Ltac dark_leaf :=
  match goal with
  | |- keeps _ (modify (upd_heap (set_outputs _ _))) => apply dark_set_outputs
  | |- keeps _ (modify (upd_heap (set_inputs _ _))) => apply dark_set_inputs
  | |- keeps _ (modify (upd_heap (set_input _ None))) => apply dark_clear_input
  | |- keeps _ (modify (upd_heap (set_value _ LOW))) => apply dark_reset_value
  | |- keeps _ (modify (write_console _)) => apply dark_write_console
  | |- keeps _ (modify (upd_sim (fun s => set_components _ s))) => apply dark_set_components
  | |- keeps _ (modify (upd_sim (fun s => set_inputPoints _ s))) => apply dark_set_inputPoints
  | |- keeps _ (modify (upd_sim (fun s => set_outputPoints _ s))) => apply dark_set_outputPoints
  | |- keeps _ (modify (upd_sim (fun s => set_gates (without _ _) s))) => apply dark_filter_gates
  end.

Ltac keeps_dark := keeps_with ltac:(idtac; dark_leaf).

Lemma update_keeps_dark op : keeps dark (update op).
Proof.
  intros w Hw. unfold update. rewrite bind_gets. unfold id.
  pose proof (proj2 Hw op) as Hop.
  destruct (obj w op) as [[|nm inp v|]|]; try exact Hw.
  destruct Hop as [-> _]. apply dark_reset_value. exact Hw.
Qed.

Lemma update_outputs_keeps_dark : keeps dark update_outputs.
Proof. unfold update_outputs. keeps_dark. apply update_keeps_dark. Qed.

Lemma propagate_keeps_dark : keeps dark propagate.
Proof.
  intros w Hw. unfold propagate. rewrite bind_gets. destruct Hw as [Hg Hn]. rewrite Hg.
  cbn [length Nat.add propagate_loop]. pose proof (conj Hg Hn : dark w) as Hw.
  apply keeps_at; [|exact Hw].
  apply keeps_bind; [|intros ?; apply update_outputs_keeps_dark].
  intros u Hu. rewrite bind_gets. rewrite (proj1 Hu). cbn [evaluate_gates]. rewrite bind_ret.
  apply keeps_at; [|exact Hu]. keeps_dark. apply update_outputs_keeps_dark.
Qed.

Lemma remove_keeps_dark (n : nat) :
  (forall this d, keeps dark (removeOutput n this d))
  /\ (forall this s, keeps dark (removeInput n this s)).
Proof.
  induction n as [|n [IHo IHi]].
  - split; intros; apply keeps_throw.
  - split; intros this x.
    + rewrite removeOutput_S. keeps_dark. apply IHi.
    + rewrite removeInput_S. keeps_dark; apply IHo.
Qed.

(** [addOutput] on any receiver and [addInput] on a gate. *)
Lemma add_keeps_dark (n : nat) :
  (forall this d, keeps dark (addOutput n this d))
  /\ (forall this s w, has_evaluate (obj w this) = true -> dark w ->
        dark (addInput n this s w).2).
Proof.
  induction n as [|n [IHo IHi]].
  - split; [intros this d w Hw|intros this s w _ Hw]; exact Hw.
  - split.
    + intros this d w Hw. rewrite addOutput_S, bind_gets.
      destruct (outputs_of (obj w this)) as [outs|]; [|exact Hw].
      destruct (includes outs d); [exact Hw|].
      rewrite bind_modify, bind_gets.
      pose proof (dark_set_outputs this (outs ++ [d]) w Hw) as H1. simpl in H1.
      destruct (has_addInput _); [|exact H1].
      destruct (inputs_of _) as [ins|] eqn:Ei; [|exact H1].
      destruct (includes ins this); [exact H1|].
      apply IHi; [|exact H1].
      destruct (obj _ d) as [[| |]|]; try discriminate; reflexivity.
    + intros this s w Hg Hw. rewrite addInput_S, bind_gets.
      destruct (obj w this) as [[| |c nm ins ov outs mx]|]; try discriminate.
      destruct (Z.ltb _ _); [|exact Hw].
      destruct (includes ins s); [exact Hw|].
      rewrite bind_modify, bind_gets.
      pose proof (dark_set_inputs this (ins ++ [s]) w Hw) as H1. simpl in H1.
      destruct (has_addOutput _); [|exact H1].
      apply IHo. exact H1.
Qed.

Lemma addComponent_heap c w : heap (addComponent c w).2 = heap w.
Proof.
  unfold addComponent, bind, gets, modify, ret. simpl.
  destruct (includes _ _); [reflexivity|].
  destruct (obj w c) as [[| |[]]|]; reflexivity.
Qed.

Lemma perform_keeps_dark fuel o :
  through_simulation o = true -> keeps dark (perform fuel o).
Proof.
  destruct o; simpl; intros Ho; try discriminate.
  - intros w [Hg Hn]. split.
    + rewrite addComponent_gates. exact Hg.
    + intros r. unfold obj. rewrite addComponent_heap. apply Hn.
  - unfold removeComponent. keeps_dark; apply remove_keeps_dark.
  - unfold connect. keeps_dark;
      first [apply add_keeps_dark | apply propagate_keeps_dark].
  - unfold disconnect. keeps_dark;
      first [apply remove_keeps_dark | apply propagate_keeps_dark].
  - apply propagate_keeps_dark.
  - apply add_keeps_dark.
  - apply remove_keeps_dark.
  - apply remove_keeps_dark.
  - intros w Hw. unfold setValue. rewrite bind_gets.
    destruct (obj w this) as [[nm v outs| |]|] eqn:E; try exact Hw.
    destruct (_ || _); [|exact Hw].
    destruct Hw as [Hg Hn]. split; [exact Hg|]. intros r. simpl.
    unfold set_value. rewrite obj_alter. destruct (decide (this = r)) as [<-|]; [|apply Hn].
    rewrite E. exact I.
  - intros w Hw. unfold toggle. rewrite bind_gets.
    destruct (obj w this) as [[nm v outs| |]|] eqn:E; try exact Hw.
    destruct Hw as [Hg Hn]. split; [exact Hg|]. intros r. simpl.
    unfold set_value. rewrite obj_alter. destruct (decide (this = r)) as [<-|]; [|apply Hn].
    rewrite E. exact I.
  - apply update_keeps_dark.
Qed.

Lemma store_dark (l : list (ref * node)) s c :
  gates s = [] -> forallb (fun p => node_dark p.2) l = true ->
  dark (mkWorld (store l) s c).
Proof.
  intros Hg Hl. split; [exact Hg|]. intros r. unfold obj, store. simpl.
  induction l as [|[r0 n0] l IH]; simpl in *.
  - rewrite lookup_empty. exact I.
  - apply andb_true_iff in Hl as [Hn Hl].
    destruct (decide (r0 = r)) as [<-|Hne].
    + rewrite lookup_insert_eq. destruct n0; simpl in *; try exact I.
      * apply andb_true_iff in Hn as [H1 H2]. apply bool_decide_eq_true in H1.
        apply Z.eqb_eq in H2. split; assumption.
      * apply Z.eqb_eq in Hn. exact Hn.
    + rewrite lookup_insert_ne by exact Hne. apply IH. exact Hl.
Qed.

(** A circuit that is built and driven through the Simulation alone
    computes nothing.  Start from freshly constructed objects and an empty
    registry (no gate tracked, every output point unwired at LOW, every
    gate at LOW), and call [addComponent], [removeComponent], [connect],
    [disconnect], [propagate], [setValue], [toggle], [update] and the
    [addOutput], [removeOutput] and [removeInput] methods in any order,
    at any stack depths: as long as no [addInput] and no [evaluate] is
    called directly, every output point still has an empty slot and reads
    LOW, and every gate still reads LOW, whatever the inputs are set to. *)
Theorem simulation_computes_nothing (script : list (nat * operation)) (w : World) :
  dark w ->
  forallb (fun p => through_simulation p.2) script = true ->
  gates (sim (run script w)) = []
  /\ forall r,
       (tag_of (obj (run script w) r) = TOutput ->
          input_of (obj (run script w) r) = None /\ read (run script w) r = LOW)
       /\ (tag_of (obj (run script w) r) = TGate -> read (run script w) r = LOW).
Proof.
  intros Hw Hs.
  assert (dark (run script w)) as [Hg Hn].
  { revert w Hw. induction script as [|[fuel o] script IH]; intros w Hw; simpl.
    - exact Hw.
    - simpl in Hs. apply andb_true_iff in Hs as [Ho Hs].
      apply IH; [exact Hs|]. apply perform_keeps_dark; assumption. }
  split; [exact Hg|]. intros r. specialize (Hn r). unfold read.
  destruct (obj (run script w) r) as [[| |]|]; simpl in *; split; try discriminate.
  - intros _. destruct Hn as [-> ->]. split; reflexivity.
  - intros _. exact Hn.
Qed.

Lemma simulation_computes_nothing_witness :
  let script := [(5, AddComponent InputA); (5, AddComponent InputB); (5, AddComponent Not1);
                 (5, AddComponent And1); (5, AddComponent OutputX);
                 (5, Connect InputA Not1); (5, Connect Not1 And1); (5, Connect InputB And1);
                 (5, Connect And1 OutputX); (5, SetValue InputB HIGH); (5, Propagate)]%nat in
  gates (sim (run script scenario_start)) = []
  /\ forall r,
       (tag_of (obj (run script scenario_start) r) = TOutput ->
          input_of (obj (run script scenario_start) r) = None
          /\ read (run script scenario_start) r = LOW)
       /\ (tag_of (obj (run script scenario_start) r) = TGate ->
           read (run script scenario_start) r = LOW).
Proof.
  apply (simulation_computes_nothing _ scenario_start).
  - apply store_dark; [reflexivity|]. vm_compute. reflexivity.
  - vm_compute. reflexivity.
Defined.
